(** * Midi-File-Tester: the SMF validator core of [midi_file_tester.py]

    A shallow embedding of the validator (lines 38-244 of the source):
    the byte cursor [Reader], the primitive decoders, [read_vlq],
    [validate_division], [parse_header], [parse_track] and
    [validate_midi_file], followed by the properties of the specification.

    Conventions of the embedding.
    - Python [int] is [Z]; a [bytes] value is a [list byte]; a [str] is a
      [string] (UTF-8 bytes, as in the source file).
    - The dataclasses are records.  They are mutated in place by the source;
      here they are threaded through a state monad.  The four list fields
      that [TrackReport] and [FileReport] both have carry the prefixes
      [tr_] and [rep_], every other field keeps its name.
    - Exceptions are values of [exn]; a computation is a function from a
      state to an [outcome] and the new state, so that what was mutated
      before a [raise] is still there in the [except] clause.
    - [while] loops take fuel.  Running out of fuel is a third outcome that no
      [except] clause catches; it is proved never to happen. *)

From Stdlib Require Import ZArith List Bool Lia String.
From Stdlib.Strings Require Import Byte.
From Stdlib Require Import DecimalString HexadecimalString.
From stdpp Require Import base option list gmap strings relations.

Local Open Scope Z_scope.

(** ** Exceptions, outcomes and the state monad *)

Inductive exn : Type :=
| EOFError (msg : string)
| ValueError (msg : string)
| IndexError (msg : string)
| OSError (msg : string).

(** [str(e)], what the f-strings [{e}] print. *)
Definition str_exn (e : exn) : string :=
  match e with
  | EOFError m | ValueError m | IndexError m | OSError m => m
  end.

Inductive outcome (A : Type) : Type :=
| Return (a : A)
| Raise (e : exn)
| OutOfFuel.
Arguments Return {A} a.
Arguments Raise {A} e.
Arguments OutOfFuel {A}.

Definition M (St A : Type) : Type := St -> outcome A * St.

Definition ret {St A} (a : A) : M St A := fun s => (Return a, s).

Definition bind {St A B} (m : M St A) (k : A -> M St B) : M St B :=
  fun s =>
    match m s with
    | (Return a, s') => k a s'
    | (Raise e, s') => (Raise e, s')
    | (OutOfFuel, s') => (OutOfFuel, s')
    end.

Definition raise {St A} (e : exn) : M St A := fun s => (Raise e, s).

(** [try: m except Exception as e: h e] *)
Definition try_except {St A} (m : M St A) (h : exn -> M St A) : M St A :=
  fun s =>
    match m s with
    | (Raise e, s') => h e s'
    | r => r
    end.

Definition gets {St A} (f : St -> A) : M St A := fun s => (Return (f s), s).
Definition modify {St} (f : St -> St) : M St unit := fun s => (Return tt, f s).

Notation "'let!' x ':=' m 'in' k" := (bind m (fun x => k))
  (at level 10, x pattern, m at level 100, k at level 200).
Notation "m ';;;' k" := (bind m (fun _ => k))
  (at level 100, k at level 200, right associativity).

(** [when c m] is [if c: m]. *)
Definition when {St} (c : bool) (m : M St unit) : M St unit :=
  if c then m else ret tt.

(** What one turn of a [while] body tells the loop. *)
Inductive ctl : Type := Next | Break.

Fixpoint while_loop {St} (fuel : nat) (cond : St -> bool) (body : M St ctl)
  : M St unit :=
  fun s =>
    if cond s then
      match fuel with
      | O => (OutOfFuel, s)
      | S fuel' =>
          match body s with
          | (Return Next, s') => while_loop fuel' cond body s'
          | (Return Break, s') => (Return tt, s')
          | (Raise e, s') => (Raise e, s')
          | (OutOfFuel, s') => (OutOfFuel, s')
          end
      end
    else (Return tt, s).

(** ** Bytes, slices and printing *)

Definition byte_val (b : byte) : Z := Z.of_N (Byte.to_N b).

Fixpoint bytes_eqb (a b : list byte) : bool :=
  match a, b with
  | [], [] => true
  | x :: a', y :: b' => Byte.eqb x y && bytes_eqb a' b'
  | _, _ => false
  end.

(** [d[i:j]] for [0 <= i] and [0 <= j], the only slices the source takes. *)
Definition slice (d : list byte) (i j : Z) : list byte :=
  firstn (Z.to_nat (j - i)) (skipn (Z.to_nat i) d).

(** [b[i]]; out of range is an [IndexError]. *)
Definition getitem {St} (b : list byte) (i : nat) : M St Z :=
  match nth_error b i with
  | Some x => ret (byte_val x)
  | None => raise (IndexError "index out of range")
  end.

(** [f"{z}"] and [hex(z)]. *)
Definition dec (z : Z) : string :=
  DecimalString.NilZero.string_of_int (Z.to_int z).
Definition hex (z : Z) : string :=
  "0x" +:+ HexadecimalString.NilZero.string_of_uint (N.to_hex_uint (Z.to_N z)).

Definition MAGIC_MTHD : list byte := [x4d; x54; x68; x64].
Definition MAGIC_MTRK : list byte := [x4d; x54; x72; x6b].

(** ** The dataclasses *)

Record MIDIHeader : Type := mkMIDIHeader {
  format_type : Z;
  num_tracks : Z;
  division : Z
}.

Record TrackStats : Type := mkTrackStats {
  note_on : Z; note_off : Z; dangling_notes : Z;
  program_changes : Z; controllers : Z; pitch_bends : Z;
  aftertouch_poly : Z; aftertouch_ch : Z; sysex : Z;
  meta : Z; tempo_events : Z; time_sig_events : Z; key_sig_events : Z;
  tempo_values : list Z
}.

Definition TrackStats0 : TrackStats :=
  mkTrackStats 0 0 0 0 0 0 0 0 0 0 0 0 0 [].

Record TrackReport : Type := mkTrackReport {
  index : Z;
  length_declared : Z;
  length_parsed : Z;
  has_end_of_track : bool;
  tr_errors : list string;
  tr_warnings : list string;
  tr_error_locs : list (string * Z);
  tr_warning_locs : list (string * Z);
  stats : TrackStats
}.

(** [TrackReport(index=tindex)] *)
Definition TrackReport0 (tindex : Z) : TrackReport :=
  mkTrackReport tindex 0 0 false [] [] [] [] TrackStats0.

Record FileReport : Type := mkFileReport {
  path : string;
  ok : bool;
  header : option MIDIHeader;
  tracks : list TrackReport;
  rep_errors : list string;
  rep_warnings : list string;
  rep_error_locs : list (string * Z);
  rep_warning_locs : list (string * Z);
  bytes_size : Z
}.

(** [FileReport(path=path, ok=False)] *)
Definition FileReport0 (p : string) : FileReport :=
  mkFileReport p false None [] [] [] [] [] 0.

(** ** The byte cursor *)

Record Reader : Type := mkReader {
  data : list byte;
  pos : Z;
  len : Z
}.

Definition new_Reader (d : list byte) : Reader :=
  mkReader d 0 (Z.of_nat (length d)).

Definition remaining (r : Reader) : Z := len r - pos r.
Definition tell (r : Reader) : Z := pos r.
Definition set_pos (p : Z) (r : Reader) : Reader := mkReader (data r) p (len r).

Definition read (n : Z) : M Reader (list byte) :=
  fun r =>
    if pos r + n >? len r then (Raise (EOFError "Unexpected EOF"), r)
    else (Return (slice (data r) (pos r) (pos r + n)), set_pos (pos r + n) r).

Definition peek (n : Z) (r : Reader) : list byte :=
  slice (data r) (pos r) (Z.min (pos r + n) (len r)).

(** ** Primitive decoders *)

Definition read_uint16_be {St} (b : list byte) : M St Z :=
  let! b0 := getitem b 0 in
  let! b1 := getitem b 1 in
  ret (Z.lor (Z.shiftl b0 8) b1).

Definition read_uint32_be {St} (b : list byte) : M St Z :=
  let! b0 := getitem b 0 in
  let! b1 := getitem b 1 in
  let! b2 := getitem b 2 in
  let! b3 := getitem b 3 in
  ret (Z.lor (Z.lor (Z.lor (Z.shiftl b0 24) (Z.shiftl b1 16)) (Z.shiftl b2 8)) b3).

(** The [for _ in range(4)] of [read_vlq], [n] turns left. *)
Fixpoint read_vlq_loop (n : nat) (val : Z) : M Reader Z :=
  match n with
  | O => raise (ValueError "VLQ demasiado largo (>4 bytes)")
  | S n' =>
      let! bs := read 1 in
      let! byte := getitem bs 0 in
      let val := Z.lor (Z.shiftl val 7) (Z.land byte 0x7F) in
      if Z.land byte 0x80 =? 0 then ret val else read_vlq_loop n' val
  end.

Definition read_vlq : M Reader Z := read_vlq_loop 4 0.

(** ** The file-level environment

    What [validate_midi_file] and the functions it calls share: the outer
    cursor [r], the report [rep] they append to, and the track counter [t]. *)

Record FEnv : Type := mkFEnv {
  fe_r : Reader;
  fe_rep : FileReport;
  fe_t : Z
}.

Definition with_r (f : Reader -> Reader) (s : FEnv) : FEnv :=
  mkFEnv (f (fe_r s)) (fe_rep s) (fe_t s).
Definition with_rep (f : FileReport -> FileReport) (s : FEnv) : FEnv :=
  mkFEnv (fe_r s) (f (fe_rep s)) (fe_t s).
Definition with_t (f : Z -> Z) (s : FEnv) : FEnv :=
  mkFEnv (fe_r s) (fe_rep s) (f (fe_t s)).

(** Runs a cursor operation on [r]. *)
Definition on_r {A} (m : M Reader A) : M FEnv A :=
  fun s => let '(o, r') := m (fe_r s) in (o, with_r (fun _ => r') s).

Definition r_tell : M FEnv Z := gets (fun s => tell (fe_r s)).

(** [rep.errors.append(msg)] and the three like it. *)
Definition rep_errors_append (msg : string) : M FEnv unit :=
  modify (with_rep (fun rep =>
    mkFileReport (path rep) (ok rep) (header rep) (tracks rep)
      (rep_errors rep ++ [msg]) (rep_warnings rep)
      (rep_error_locs rep) (rep_warning_locs rep) (bytes_size rep))).
Definition rep_warnings_append (msg : string) : M FEnv unit :=
  modify (with_rep (fun rep =>
    mkFileReport (path rep) (ok rep) (header rep) (tracks rep)
      (rep_errors rep) (rep_warnings rep ++ [msg])
      (rep_error_locs rep) (rep_warning_locs rep) (bytes_size rep))).
Definition rep_error_locs_append (loc : string * Z) : M FEnv unit :=
  modify (with_rep (fun rep =>
    mkFileReport (path rep) (ok rep) (header rep) (tracks rep)
      (rep_errors rep) (rep_warnings rep)
      (rep_error_locs rep ++ [loc]) (rep_warning_locs rep) (bytes_size rep))).
Definition rep_warning_locs_append (loc : string * Z) : M FEnv unit :=
  modify (with_rep (fun rep =>
    mkFileReport (path rep) (ok rep) (header rep) (tracks rep)
      (rep_errors rep) (rep_warnings rep)
      (rep_error_locs rep) (rep_warning_locs rep ++ [loc]) (bytes_size rep))).

(** ** [validate_division] *)

(** The [fps] of line 103: the upper byte read as a signed byte, negated. *)
Definition smpte_fps (div : Z) : Z :=
  let fps := Z.land (Z.shiftr div 8) 0xFF in
  let fps := if fps >=? 0x80 then fps - 0x100 else fps in
  - fps.

Definition fps_usual (fps : Z) : bool :=
  (fps =? 24) || (fps =? 25) || (fps =? 29) || (fps =? 30).

Definition validate_division (div : Z) : M FEnv unit :=
  if negb (Z.land div 0x8000 =? 0) then
    let fps := smpte_fps div in
    let tpf := Z.land div 0xFF in
    when (negb (fps_usual fps))
      (rep_warnings_append ("SMPTE fps inusual: " +:+ dec fps) ;;;
       rep_warning_locs_append ("SMPTE fps inusual", 0)) ;;;
    when (tpf =? 0)
      (rep_errors_append "Ticks/frame=0 inválido" ;;;
       rep_error_locs_append ("Ticks/frame=0 inválido", 0))
  else
    when (div <=? 0)
      (rep_errors_append "Division PPQN debe ser >0" ;;;
       rep_error_locs_append ("Division PPQN debe ser >0", 0)).

(** ** [parse_header] *)

Definition parse_header : M FEnv (option MIDIHeader) :=
  try_except
    (let! tag := on_r (read 4) in
     if negb (bytes_eqb tag MAGIC_MTHD) then
       rep_errors_append "No MThd al inicio" ;;;
       rep_error_locs_append ("No MThd al inicio", 0) ;;;
       ret None
     else
       let! hl := on_r (read 4) in
       let! hlen := read_uint32_be hl in
       if hlen <? 6 then
         rep_errors_append "Cabecera demasiado corta" ;;;
         let! p := r_tell in
         rep_error_locs_append ("Cabecera demasiado corta", p) ;;;
         ret None
       else
         let! hb := on_r (read 6) in
         let! fmt := read_uint16_be (slice hb 0 2) in
         let! ntr := read_uint16_be (slice hb 2 4) in
         let! div := read_uint16_be (slice hb 4 6) in
         when (hlen >? 6)
           (let! _ := on_r (read (hlen - 6)) in
            rep_warnings_append
              ("Cabecera con " +:+ dec hlen +:+ " bytes (estándar=6)") ;;;
            let! p := r_tell in
            rep_warning_locs_append ("Cabecera " +:+ dec hlen +:+ " bytes", p)) ;;;
         when (negb ((fmt =? 0) || (fmt =? 1) || (fmt =? 2)))
           (rep_errors_append ("Formato desconocido: " +:+ dec fmt) ;;;
            let! p := r_tell in
            rep_error_locs_append ("Formato desconocido: " +:+ dec fmt, p)) ;;;
         when (ntr =? 0)
           (rep_errors_append "Número de pistas=0 inválido" ;;;
            let! p := r_tell in
            rep_error_locs_append ("Número de pistas=0 inválido", p)) ;;;
         validate_division div ;;;
         ret (Some (mkMIDIHeader fmt ntr div)))
    (fun e =>
       rep_errors_append ("Error cabecera: " +:+ str_exn e) ;;;
       let! p := r_tell in
       rep_error_locs_append ("Error cabecera: " +:+ str_exn e, p) ;;;
       ret None).

(** ** The track-level environment

    The objects [parse_track] works on: the outer cursor [r], the report
    [tr] it builds, and the locals of its scan loop ([local], [status] and
    the dictionary [active], keyed by (channel, pitch)).  The three locals
    are bound at line 151; until then they hold the values given there for
    an empty chunk, and nothing reads them. *)

Record TEnv : Type := mkTEnv {
  te_r : Reader;
  te_tr : TrackReport;
  te_local : Reader;
  te_status : option Z;
  te_active : gmap (Z * Z) Z
}.

Definition with_te_r (f : Reader -> Reader) (s : TEnv) : TEnv :=
  mkTEnv (f (te_r s)) (te_tr s) (te_local s) (te_status s) (te_active s).
Definition with_tr (f : TrackReport -> TrackReport) (s : TEnv) : TEnv :=
  mkTEnv (te_r s) (f (te_tr s)) (te_local s) (te_status s) (te_active s).
Definition with_local (f : Reader -> Reader) (s : TEnv) : TEnv :=
  mkTEnv (te_r s) (te_tr s) (f (te_local s)) (te_status s) (te_active s).
Definition with_status (f : option Z -> option Z) (s : TEnv) : TEnv :=
  mkTEnv (te_r s) (te_tr s) (te_local s) (f (te_status s)) (te_active s).
Definition with_active (f : gmap (Z * Z) Z -> gmap (Z * Z) Z) (s : TEnv) : TEnv :=
  mkTEnv (te_r s) (te_tr s) (te_local s) (te_status s) (f (te_active s)).

Definition with_stats (f : TrackStats -> TrackStats) (tr : TrackReport)
  : TrackReport :=
  mkTrackReport (index tr) (length_declared tr) (length_parsed tr)
    (has_end_of_track tr) (tr_errors tr) (tr_warnings tr)
    (tr_error_locs tr) (tr_warning_locs tr) (f (stats tr)).

Definition on_te_r {A} (m : M Reader A) : M TEnv A :=
  fun s => let '(o, r') := m (te_r s) in (o, with_te_r (fun _ => r') s).
Definition on_local {A} (m : M Reader A) : M TEnv A :=
  fun s => let '(o, l') := m (te_local s) in (o, with_local (fun _ => l') s).

Definition te_r_tell : M TEnv Z := gets (fun s => tell (te_r s)).
Definition local_tell : M TEnv Z := gets (fun s => tell (te_local s)).
Definition local_remaining : M TEnv Z := gets (fun s => remaining (te_local s)).

(** [_err(tr, msg, abs_off)] and [_warn(tr, msg, abs_off)] *)
Definition _err (msg : string) (abs_off : Z) : M TEnv unit :=
  modify (with_tr (fun tr =>
    mkTrackReport (index tr) (length_declared tr) (length_parsed tr)
      (has_end_of_track tr) (tr_errors tr ++ [msg]) (tr_warnings tr)
      (tr_error_locs tr ++ [(msg, abs_off)]) (tr_warning_locs tr) (stats tr))).

Definition _warn (msg : string) (abs_off : Z) : M TEnv unit :=
  modify (with_tr (fun tr =>
    mkTrackReport (index tr) (length_declared tr) (length_parsed tr)
      (has_end_of_track tr) (tr_errors tr) (tr_warnings tr ++ [msg])
      (tr_error_locs tr) (tr_warning_locs tr ++ [(msg, abs_off)]) (stats tr))).

Fixpoint _check_data_range (vals : list byte) (tindex : Z) (ctx : string)
    (abs_off : Z) : M TEnv unit :=
  match vals with
  | [] => ret tt
  | v :: vals' =>
      if byte_val v >? 127 then
        _err ("Pista " +:+ dec tindex +:+ ": dato >127 en " +:+ ctx +:+ ": "
              +:+ dec (byte_val v)) abs_off
      else _check_data_range vals' tindex ctx abs_off
  end.

Definition set_length_declared (n : Z) : M TEnv unit :=
  modify (with_tr (fun tr =>
    mkTrackReport (index tr) n (length_parsed tr)
      (has_end_of_track tr) (tr_errors tr) (tr_warnings tr)
      (tr_error_locs tr) (tr_warning_locs tr) (stats tr))).
Definition set_length_parsed (n : Z) : M TEnv unit :=
  modify (with_tr (fun tr =>
    mkTrackReport (index tr) (length_declared tr) n
      (has_end_of_track tr) (tr_errors tr) (tr_warnings tr)
      (tr_error_locs tr) (tr_warning_locs tr) (stats tr))).
Definition set_has_end_of_track (b : bool) : M TEnv unit :=
  modify (with_tr (fun tr =>
    mkTrackReport (index tr) (length_declared tr) (length_parsed tr)
      b (tr_errors tr) (tr_warnings tr)
      (tr_error_locs tr) (tr_warning_locs tr) (stats tr))).

(** The counters of [tr.stats]; [+= 1] on each. *)
Definition incr_note_on (s : TrackStats) : TrackStats :=
  mkTrackStats (note_on s + 1) (note_off s) (dangling_notes s) (program_changes s)
    (controllers s) (pitch_bends s) (aftertouch_poly s) (aftertouch_ch s)
    (sysex s) (meta s) (tempo_events s) (time_sig_events s) (key_sig_events s)
    (tempo_values s).
Definition incr_note_off (s : TrackStats) : TrackStats :=
  mkTrackStats (note_on s) (note_off s + 1) (dangling_notes s) (program_changes s)
    (controllers s) (pitch_bends s) (aftertouch_poly s) (aftertouch_ch s)
    (sysex s) (meta s) (tempo_events s) (time_sig_events s) (key_sig_events s)
    (tempo_values s).
Definition set_dangling_notes (n : Z) (s : TrackStats) : TrackStats :=
  mkTrackStats (note_on s) (note_off s) n (program_changes s)
    (controllers s) (pitch_bends s) (aftertouch_poly s) (aftertouch_ch s)
    (sysex s) (meta s) (tempo_events s) (time_sig_events s) (key_sig_events s)
    (tempo_values s).
Definition incr_program_changes (s : TrackStats) : TrackStats :=
  mkTrackStats (note_on s) (note_off s) (dangling_notes s) (program_changes s + 1)
    (controllers s) (pitch_bends s) (aftertouch_poly s) (aftertouch_ch s)
    (sysex s) (meta s) (tempo_events s) (time_sig_events s) (key_sig_events s)
    (tempo_values s).
Definition incr_controllers (s : TrackStats) : TrackStats :=
  mkTrackStats (note_on s) (note_off s) (dangling_notes s) (program_changes s)
    (controllers s + 1) (pitch_bends s) (aftertouch_poly s) (aftertouch_ch s)
    (sysex s) (meta s) (tempo_events s) (time_sig_events s) (key_sig_events s)
    (tempo_values s).
Definition incr_pitch_bends (s : TrackStats) : TrackStats :=
  mkTrackStats (note_on s) (note_off s) (dangling_notes s) (program_changes s)
    (controllers s) (pitch_bends s + 1) (aftertouch_poly s) (aftertouch_ch s)
    (sysex s) (meta s) (tempo_events s) (time_sig_events s) (key_sig_events s)
    (tempo_values s).
Definition incr_aftertouch_poly (s : TrackStats) : TrackStats :=
  mkTrackStats (note_on s) (note_off s) (dangling_notes s) (program_changes s)
    (controllers s) (pitch_bends s) (aftertouch_poly s + 1) (aftertouch_ch s)
    (sysex s) (meta s) (tempo_events s) (time_sig_events s) (key_sig_events s)
    (tempo_values s).
Definition incr_aftertouch_ch (s : TrackStats) : TrackStats :=
  mkTrackStats (note_on s) (note_off s) (dangling_notes s) (program_changes s)
    (controllers s) (pitch_bends s) (aftertouch_poly s) (aftertouch_ch s + 1)
    (sysex s) (meta s) (tempo_events s) (time_sig_events s) (key_sig_events s)
    (tempo_values s).
Definition incr_sysex (s : TrackStats) : TrackStats :=
  mkTrackStats (note_on s) (note_off s) (dangling_notes s) (program_changes s)
    (controllers s) (pitch_bends s) (aftertouch_poly s) (aftertouch_ch s)
    (sysex s + 1) (meta s) (tempo_events s) (time_sig_events s) (key_sig_events s)
    (tempo_values s).
Definition incr_meta (s : TrackStats) : TrackStats :=
  mkTrackStats (note_on s) (note_off s) (dangling_notes s) (program_changes s)
    (controllers s) (pitch_bends s) (aftertouch_poly s) (aftertouch_ch s)
    (sysex s) (meta s + 1) (tempo_events s) (time_sig_events s) (key_sig_events s)
    (tempo_values s).
(** [tempo_events += 1; tempo_values.append(us)] *)
Definition record_tempo (us : Z) (s : TrackStats) : TrackStats :=
  mkTrackStats (note_on s) (note_off s) (dangling_notes s) (program_changes s)
    (controllers s) (pitch_bends s) (aftertouch_poly s) (aftertouch_ch s)
    (sysex s) (meta s) (tempo_events s + 1) (time_sig_events s) (key_sig_events s)
    (tempo_values s ++ [us]).
Definition incr_time_sig_events (s : TrackStats) : TrackStats :=
  mkTrackStats (note_on s) (note_off s) (dangling_notes s) (program_changes s)
    (controllers s) (pitch_bends s) (aftertouch_poly s) (aftertouch_ch s)
    (sysex s) (meta s) (tempo_events s) (time_sig_events s + 1) (key_sig_events s)
    (tempo_values s).
Definition incr_key_sig_events (s : TrackStats) : TrackStats :=
  mkTrackStats (note_on s) (note_off s) (dangling_notes s) (program_changes s)
    (controllers s) (pitch_bends s) (aftertouch_poly s) (aftertouch_ch s)
    (sysex s) (meta s) (tempo_events s) (time_sig_events s) (key_sig_events s + 1)
    (tempo_values s).

Definition stat (f : TrackStats -> TrackStats) : M TEnv unit :=
  modify (with_tr (with_stats f)).

(** [active[key] = max(0, active.get(key, 0) - 1)] and
    [active[key] = active.get(key, 0) + 1] *)
Definition active_release (key : Z * Z) : M TEnv unit :=
  modify (with_active (fun active =>
    <[key := Z.max 0 (default 0 (active !! key) - 1)]> active)).
Definition active_press (key : Z * Z) : M TEnv unit :=
  modify (with_active (fun active =>
    <[key := default 0 (active !! key) + 1]> active)).

(** ** [parse_track] *)

Definition pista (tindex : Z) (rest : string) : string :=
  "Pista " +:+ dec tindex +:+ ": " +:+ rest.

(** [x = seq[0]] on the bytes just read from [local]. *)
Definition local_read_byte : M TEnv Z :=
  let! bs := on_local (read 1) in getitem bs 0.

(** [try: ln = read_vlq(local)] with its [except] clause, which reports
    and breaks; [None] is the break. *)
Definition local_read_vlq_or (report : exn -> M TEnv unit) : M TEnv (option Z) :=
  try_except
    (let! ln := on_local read_vlq in ret (Some ln))
    (fun e => report e ;;; ret None).

(** Lines 163-186: a channel voice message, [0x80 <= status <= 0xEF]. *)
Definition channel_voice (tindex start status : Z) (pair_notes : bool)
  : M TEnv ctl :=
  let ch := Z.land status 0x0F in
  let mt := Z.land status 0xF0 in
  let dl := if (mt =? 0xC0) || (mt =? 0xD0) then 1 else 2 in
  let! rem := local_remaining in
  if rem <? dl then
    let! p := local_tell in
    _err (pista tindex ("datos insuficientes para " +:+ hex status +:+ "."))
         (start + p) ;;;
    ret Break
  else
    let! data := on_local (read dl) in
    let! p := local_tell in
    _check_data_range data tindex ("msg " +:+ hex status) (start + p - dl) ;;;
    (if mt =? 0x80 then
       stat incr_note_off ;;;
       when pair_notes
         (let! d0 := getitem data 0 in active_release (ch, d0))
     else if mt =? 0x90 then
       let! vel := (if dl =? 2 then getitem data 1 else ret 0) in
       if vel =? 0 then
         stat incr_note_off ;;;
         when pair_notes
           (let! d0 := getitem data 0 in active_release (ch, d0))
       else
         stat incr_note_on ;;;
         when pair_notes
           (let! d0 := getitem data 0 in active_press (ch, d0))
     else if mt =? 0xA0 then stat incr_aftertouch_poly
     else if mt =? 0xB0 then stat incr_controllers
     else if mt =? 0xC0 then stat incr_program_changes
     else if mt =? 0xD0 then stat incr_aftertouch_ch
     else if mt =? 0xE0 then stat incr_pitch_bends
     else ret tt) ;;;
    ret Next.

(** Lines 194-213: what is done with a meta event once its [ln] data bytes
    [md] are read. *)
Definition meta_dispatch (tindex start : Z) (strict : bool)
    (meta ln : Z) (md : list byte) : M TEnv ctl :=
  if meta =? 0x2F then
    when (negb (ln =? 0))
      (let! p := local_tell in
       _err (pista tindex "End-of-Track len !=0.") (start + p - ln)) ;;;
    set_has_end_of_track true ;;;
    let! rem := local_remaining in
    if rem >? 0 then
      let! p := local_tell in
      _warn (pista tindex ("bytes extra tras EOT (" +:+ dec rem +:+ ").")) (start + p) ;;;
      let! rem' := local_remaining in
      let! _ := on_local (read rem') in
      ret Break
    else ret Next
  else if meta =? 0x51 then
    (if negb (ln =? 3) then
       let! p := local_tell in
       _err (pista tindex ("Tempo len " +:+ dec ln +:+ " (3).")) (start + p - ln)
     else
       let! m0 := getitem md 0 in
       let! m1 := getitem md 1 in
       let! m2 := getitem md 2 in
       let us := Z.lor (Z.lor (Z.shiftl m0 16) (Z.shiftl m1 8)) m2 in
       stat (record_tempo us) ;;;
       when (strict && negb ((10000 <=? us) && (us <=? 2000000)))
         (let! p := local_tell in
          _warn (pista tindex ("Tempo inusual " +:+ dec us +:+ " us/qn."))
                (start + p - 3))) ;;;
    ret Next
  else if meta =? 0x58 then
    (if negb (ln =? 4) then
       let! p := local_tell in
       _err (pista tindex ("TimeSig len " +:+ dec ln +:+ " (4).")) (start + p - ln)
     else
       match md with
       | [nn; dd; cc; bb] =>
           let nn := byte_val nn in
           let dd := byte_val dd in
           when ((nn =? 0) || (dd >? 7))
             (let! p := local_tell in
              _warn (pista tindex ("compás inusual nn=" +:+ dec nn +:+ ", dd="
                                   +:+ dec dd +:+ "."))
                    (start + p - 4)) ;;;
           stat incr_time_sig_events
       | _ => raise (ValueError "wrong number of values to unpack")
       end) ;;;
    ret Next
  else if meta =? 0x59 then
    (if negb (ln =? 2) then
       let! p := local_tell in
       _err (pista tindex ("KeySig len " +:+ dec ln +:+ " (2).")) (start + p - ln)
     else stat incr_key_sig_events) ;;;
    ret Next
  else ret Next.

(** Lines 187-213: a meta event, [status == 0xFF]. *)
Definition meta_event (tindex start : Z) (strict : bool) : M TEnv ctl :=
  let! rem := local_remaining in
  if rem <? 2 then
    let! p := local_tell in
    _err (pista tindex "meta truncado.") (start + p) ;;;
    ret Break
  else
    let! meta := local_read_byte in
    let! oln := local_read_vlq_or (fun e =>
                  let! p := local_tell in
                  _err (pista tindex ("meta VLQ inválido: " +:+ str_exn e))
                       (start + p)) in
    match oln with
    | None => ret Break
    | Some ln =>
        let! rem := local_remaining in
        if rem <? ln then
          let! p := local_tell in
          _err (pista tindex ("meta datos truncados " +:+ hex meta +:+ "."))
               (start + p) ;;;
          ret Break
        else
          let! md := on_local (read ln) in
          stat incr_meta ;;;
          meta_dispatch tindex start strict meta ln md
    end.

(** Lines 214-218: a system-exclusive block, [status in (0xF0, 0xF7)]. *)
Definition sysex_event (tindex start : Z) : M TEnv ctl :=
  let! oln := local_read_vlq_or (fun e =>
                let! p := local_tell in
                _err (pista tindex ("SysEx VLQ inválido: " +:+ str_exn e))
                     (start + p)) in
  match oln with
  | None => ret Break
  | Some ln =>
      let! rem := local_remaining in
      if rem <? ln then
        let! p := local_tell in
        _err (pista tindex "SysEx truncado.") (start + p) ;;;
        ret Break
      else
        let! _ := on_local (read ln) in
        stat incr_sysex ;;;
        ret Next
  end.

(** Lines 163-220: the dispatch on the current status. *)
Definition dispatch (tindex start status : Z) (pair_notes strict : bool)
  : M TEnv ctl :=
  if (0x80 <=? status) && (status <=? 0xEF) then
    channel_voice tindex start status pair_notes
  else if status =? 0xFF then meta_event tindex start strict
  else if (status =? 0xF0) || (status =? 0xF7) then sysex_event tindex start
  else
    let! p := local_tell in
    _err (pista tindex ("status desconocido " +:+ hex status +:+ "."))
         (start + p) ;;;
    ret Break.

(** Lines 153-220: one turn of the [while local.remaining()>0] loop. *)
Definition scan_event (tindex start : Z) (pair_notes strict : bool)
  : M TEnv ctl :=
  let! ev_start := local_tell in
  let! odelta := local_read_vlq_or (fun e =>
                   _err (pista tindex ("VLQ inválido: " +:+ str_exn e))
                        (start + ev_start)) in
  match odelta with
  | None => ret Break
  | Some _ =>
      let! rem := local_remaining in
      if rem <=? 0 then ret Break
      else
        let! b := local_read_byte in
        let! c :=
          (if negb (Z.land b 0x80 =? 0) then
             modify (with_status (fun _ => Some b)) ;;; ret Next
           else
             let! status := gets te_status in
             match status with
             | None =>
                 let! p := local_tell in
                 _err (pista tindex "running status sin previo.") (start + p - 1) ;;;
                 ret Break
             | Some _ =>
                 modify (with_local (fun l => set_pos (pos l - 1) l)) ;;;
                 ret Next
             end) in
        match c with
        | Break => ret Break
        | Next =>
            let! status := gets te_status in
            match status with
            | None =>
                let! p := local_tell in
                _err (pista tindex "status indefinido.") (start + p) ;;;
                ret Break
            | Some status => dispatch tindex start status pair_notes strict
            end
        end
  end.

Definition scan_cond (s : TEnv) : bool := remaining (te_local s) >? 0.

(** Lines 149-224: the chunk, once its tag is matched and its declared
    length [ld] is read and stored. *)
Definition parse_track_chunk (tindex ld : Z) (pair_notes strict : bool)
  : M TEnv unit :=
  let! start := te_r_tell in
  let! rlen := gets (fun s => len (te_r s)) in
  let! end_ :=
    (if start + ld >? rlen then
       _err (pista tindex "longitud declarada excede archivo.") start ;;;
       ret rlen
     else ret (start + ld)) in
  let! d := gets (fun s => data (te_r s)) in
  modify (fun s =>
    mkTEnv (te_r s) (te_tr s) (new_Reader (slice d start end_)) None ∅) ;;;
  let! fuel := gets (fun s => Z.to_nat (remaining (te_local s))) in
  while_loop fuel scan_cond (scan_event tindex start pair_notes strict) ;;;
  let! lp := local_tell in
  set_length_parsed lp ;;;
  modify (with_te_r (set_pos end_)) ;;;
  when (negb (lp =? ld))
    (_warn (pista tindex ("len analizada " +:+ dec lp +:+ " != declarada "
                          +:+ dec ld +:+ ".")) end_) ;;;
  let! eot := gets (fun s => has_end_of_track (te_tr s)) in
  when (negb eot)
    (_err (pista tindex "sin End-of-Track (FF 2F 00).") (end_ - 1)) ;;;
  when pair_notes (stat (set_dangling_notes 0)).

(** Lines 147-224, the body of the [try]. *)
Definition parse_track_body (tindex : Z) (pair_notes strict : bool)
  : M TEnv unit :=
  let! tag := on_te_r (read 4) in
  if negb (bytes_eqb tag MAGIC_MTRK) then
    let! p := te_r_tell in
    _err (pista tindex "falta 'MTrk'.") (p - 4)
  else
    let! lb := on_te_r (read 4) in
    let! ld := read_uint32_be lb in
    set_length_declared ld ;;;
    parse_track_chunk tindex ld pair_notes strict.

(** The environment [parse_track] starts from. *)
Definition TEnv0 (r : Reader) (tindex : Z) : TEnv :=
  mkTEnv r (TrackReport0 tindex) (new_Reader []) None ∅.

(** [parse_track] with its [try ... except Exception]; the environment it
    ends in is kept for the properties that speak of the loop's locals. *)
Definition parse_track_run (tindex : Z) (pair_notes strict : bool) (r : Reader)
  : outcome unit * TEnv :=
  try_except
    (parse_track_body tindex pair_notes strict)
    (fun e =>
       let! p := te_r_tell in
       _err (pista tindex ("error inesperado: " +:+ str_exn e)) p)
    (TEnv0 r tindex).

Definition parse_track (tindex : Z) (pair_notes strict : bool)
  : M FEnv TrackReport :=
  fun s =>
    let '(o, te) := parse_track_run tindex pair_notes strict (fe_r s) in
    (match o with
     | Return _ => Return (te_tr te)
     | Raise e => Raise e
     | OutOfFuel => OutOfFuel
     end, with_r (fun _ => te_r te) s).

(** ** [validate_midi_file] *)

(** What [open(path,'rb')] and [f.read()] give: the bytes, or the
    exception they raise. *)
Inductive file_read : Type :=
| FileBytes (d : list byte)
| FileFails (e : exn).

Definition open_read {St} (f : file_read) : M St (list byte) :=
  match f with
  | FileBytes d => ret d
  | FileFails e => raise e
  end.

Definition set_bytes_size (n : Z) (rep : FileReport) : FileReport :=
  mkFileReport (path rep) (ok rep) (header rep) (tracks rep)
    (rep_errors rep) (rep_warnings rep)
    (rep_error_locs rep) (rep_warning_locs rep) n.
Definition set_header (h : option MIDIHeader) (rep : FileReport) : FileReport :=
  mkFileReport (path rep) (ok rep) h (tracks rep)
    (rep_errors rep) (rep_warnings rep)
    (rep_error_locs rep) (rep_warning_locs rep) (bytes_size rep).
Definition set_ok (b : bool) (rep : FileReport) : FileReport :=
  mkFileReport (path rep) b (header rep) (tracks rep)
    (rep_errors rep) (rep_warnings rep)
    (rep_error_locs rep) (rep_warning_locs rep) (bytes_size rep).
Definition tracks_append (tr : TrackReport) (rep : FileReport) : FileReport :=
  mkFileReport (path rep) (ok rep) (header rep) (tracks rep ++ [tr])
    (rep_errors rep) (rep_warnings rep)
    (rep_error_locs rep) (rep_warning_locs rep) (bytes_size rep).

(** [len(rep.errors)+sum(len(t.errors) for t in rep.tracks)] *)
Definition total_err (rep : FileReport) : Z :=
  Z.of_nat (length (rep_errors rep))
  + fold_right Z.add 0 (map (fun t => Z.of_nat (length (tr_errors t))) (tracks rep)).

Definition tracks_cond (ntr : Z) (s : FEnv) : bool :=
  (remaining (fe_r s) >? 0) && (fe_t s <? ntr).

(** Lines 232-241, the body of the [try]. *)
Definition validate_body (f : file_read) (pair_notes strict : bool)
  : M FEnv unit :=
  let! d := open_read f in
  modify (with_rep (set_bytes_size (Z.of_nat (length d)))) ;;;
  modify (with_r (fun _ => new_Reader d)) ;;;
  let! hdr := parse_header in
  match hdr with
  | None => ret tt
  | Some h =>
      modify (with_rep (set_header (Some h))) ;;;
      modify (with_t (fun _ => 0)) ;;;
      while_loop (Z.to_nat (num_tracks h)) (tracks_cond (num_tracks h))
        (let! t := gets fe_t in
         let! tr := parse_track t pair_notes strict in
         modify (with_rep (tracks_append tr)) ;;;
         modify (with_t (fun t => t + 1)) ;;;
         ret Next) ;;;
      let! te := gets (fun s => total_err (fe_rep s)) in
      modify (with_rep (set_ok (te =? 0)))
  end.

(** [validate_midi_file(path, pair_notes, strict)], reading [path] giving
    [f].  The cursor does not exist before the file is read; the
    environment starts with one over no bytes, replaced at line 233. *)
Definition validate_midi_file (path : string) (f : file_read)
    (pair_notes strict : bool) : outcome FileReport :=
  let '(o, s) :=
    try_except
      (validate_body f pair_notes strict)
      (fun e =>
         rep_errors_append ("Error: " +:+ str_exn e) ;;;
         modify (with_rep (set_ok false)))
      (mkFEnv (new_Reader []) (FileReport0 path) 0) in
  match o with
  | Return _ => Return (fe_rep s)
  | Raise e => Raise e
  | OutOfFuel => OutOfFuel
  end.

(** * Vocabulary of the properties *)

(** ** Reasoning about computations

    [wpo m Q s]: running [m] from [s] ends in an outcome and a state that
    [Q] holds of.  [wp m Q s] is the case of a normal return: [m] neither
    raises nor runs out of fuel from [s], and [Q] holds of what it returns. *)

Definition wpo {St A} (m : M St A) (Q : outcome A -> St -> Prop) (s : St) : Prop :=
  Q (fst (m s)) (snd (m s)).

Definition normally {St A} (Q : A -> St -> Prop) : outcome A -> St -> Prop :=
  fun o s => match o with Return a => Q a s | _ => False end.

Definition wp {St A} (m : M St A) (Q : A -> St -> Prop) (s : St) : Prop :=
  wpo m (normally Q) s.

(** ** Well-formed cursors *)

Definition wf_reader (r : Reader) : Prop :=
  len r = Z.of_nat (length (data r)) /\ 0 <= pos r <= len r.

(** ** VLQ numbers *)

(** A cursor over [pre ++ bs] standing after [pre]. *)
Definition cursor (pre bs : list byte) : Reader :=
  mkReader (pre ++ bs) (Z.of_nat (length pre)) (Z.of_nat (length (pre ++ bs))).

Definition continues (b : byte) : bool := negb (Z.land (byte_val b) 0x80 =? 0).

(** The number a run of VLQ bytes stands for: seven bits a byte, the most
    significant byte first. *)
Definition vlq_value (bs : list byte) : Z :=
  fold_left (fun acc b => acc * 128 + byte_val b mod 128) bs 0.


(** ** The scan loop *)

(** What the scan loop of [parse_track] keeps: the outer cursor [rr], the
    bytes [d] of the chunk, the declared length [ld], and a local position
    between [p] and the end of the chunk. *)
Definition scan_inv (d : list byte) (rr : Reader) (ld p : Z) (s : TEnv) : Prop :=
  te_r s = rr /\ data (te_local s) = d /\
  len (te_local s) = Z.of_nat (length d) /\
  0 <= p <= pos (te_local s) /\ pos (te_local s) <= len (te_local s) /\
  length_declared (te_tr s) = ld.

(** ** Track chunks *)

(** Where [parse_track] leaves the outer cursor of a chunk that starts at
    [start] and declares [ld] bytes: the declared end, or the end of the
    buffer when the declared end lies beyond it (line 150). *)
Definition chunk_end (rr : Reader) (ld : Z) : Z :=
  if pos rr + ld >? len rr then len rr else pos rr + ld.

(** What the body of [parse_track] ends in: a normal end with
    [length_parsed] the position of the local cursor and, if no
    End-of-Track was seen, at least one error; or an exception raised before
    anything was recorded.  It never runs out of fuel. *)
Definition parse_track_body_post (tindex : Z) (o : outcome unit) (s : TEnv) : Prop :=
  match o with
  | Return _ =>
      length_parsed (te_tr s) = pos (te_local s) /\
      (has_end_of_track (te_tr s) = false -> tr_errors (te_tr s) <> [])
  | Raise e =>
      te_tr s = TrackReport0 tindex /\ te_local s = new_Reader []
  | OutOfFuel => False
  end.

(** The number four bytes stand for, most significant byte first. *)
Definition be32 (b0 b1 b2 b3 : byte) : Z :=
  ((byte_val b0 * 256 + byte_val b1) * 256 + byte_val b2) * 256 + byte_val b3.

(** ** The header *)

(** What [parse_header] leaves alone in the environment it runs in. *)
Definition header_frame (s0 s : FEnv) : Prop :=
  fe_t s = fe_t s0 /\
  path (fe_rep s) = path (fe_rep s0) /\
  ok (fe_rep s) = ok (fe_rep s0) /\
  header (fe_rep s) = header (fe_rep s0) /\
  tracks (fe_rep s) = tracks (fe_rep s0) /\
  bytes_size (fe_rep s) = bytes_size (fe_rep s0) /\
  (length (rep_errors (fe_rep s0)) <= length (rep_errors (fe_rep s)))%nat.

(** What [parse_header] ends in: without a header, it has recorded an error. *)
Definition parse_header_post (s0 : FEnv) (o : option MIDIHeader) (s : FEnv) : Prop :=
  header_frame s0 s /\
  (o = None ->
   (length (rep_errors (fe_rep s0)) < length (rep_errors (fe_rep s)))%nat).

(** ** Reports *)

(** No error anywhere in a report: none at the file level, none in any
    track. *)
Definition no_errors (rep : FileReport) : Prop :=
  rep_errors rep = [] /\ Forall (fun t => tr_errors t = []) (tracks rep).

(** ** Events *)

(** The [active] dictionary after a note of [key] is released: one less,
    and never below zero; left alone when notes are not paired. *)
Definition released (pair_notes : bool) (key : Z * Z)
    (active active' : gmap (Z * Z) Z) : Prop :=
  if pair_notes
  then active' = <[key := Z.max 0 (default 0 (active !! key) - 1)]> active
  else active' = active.

(** The diagnostics of a report aside, nothing of the environment moves. *)
Definition same_but_diagnostics (s s' : TEnv) : Prop :=
  te_r s' = te_r s /\ te_local s' = te_local s /\ te_status s' = te_status s /\
  te_active s' = te_active s /\ stats (te_tr s') = stats (te_tr s) /\
  has_end_of_track (te_tr s') = has_end_of_track (te_tr s) /\
  tr_warnings (te_tr s') = tr_warnings (te_tr s).

(** The number three bytes stand for, most significant byte first. *)
Definition be24 (b0 b1 b2 : byte) : Z :=
  (byte_val b0 * 256 + byte_val b1) * 256 + byte_val b2.

(** ** What the code does to a track report *)

(** The updates [parse_track] makes to the counters of a report, and to the
    report itself: these and no others. *)
Inductive counter_step : (TrackStats -> TrackStats) -> Prop :=
| count_note_on : counter_step incr_note_on
| count_note_off : counter_step incr_note_off
| count_aftertouch_poly : counter_step incr_aftertouch_poly
| count_controllers : counter_step incr_controllers
| count_program_changes : counter_step incr_program_changes
| count_aftertouch_ch : counter_step incr_aftertouch_ch
| count_pitch_bends : counter_step incr_pitch_bends
| count_sysex : counter_step incr_sysex
| count_meta : counter_step incr_meta
| count_tempo m0 m1 m2 : counter_step (record_tempo (be24 m0 m1 m2))
| count_time_sig : counter_step incr_time_sig_events
| count_key_sig : counter_step incr_key_sig_events
| count_dangling : counter_step (set_dangling_notes 0).

Inductive report_step : TrackReport -> TrackReport -> Prop :=
| step_err tr msg off :
    report_step tr
      (mkTrackReport (index tr) (length_declared tr) (length_parsed tr)
         (has_end_of_track tr) (tr_errors tr ++ [msg]) (tr_warnings tr)
         (tr_error_locs tr ++ [(msg, off)]) (tr_warning_locs tr) (stats tr))
| step_warn tr msg off :
    report_step tr
      (mkTrackReport (index tr) (length_declared tr) (length_parsed tr)
         (has_end_of_track tr) (tr_errors tr) (tr_warnings tr ++ [msg])
         (tr_error_locs tr) (tr_warning_locs tr ++ [(msg, off)]) (stats tr))
| step_stat tr f :
    counter_step f -> report_step tr (with_stats f tr)
| step_end_of_track tr :
    report_step tr
      (mkTrackReport (index tr) (length_declared tr) (length_parsed tr)
         true (tr_errors tr) (tr_warnings tr)
         (tr_error_locs tr) (tr_warning_locs tr) (stats tr))
| step_length_declared tr b0 b1 b2 b3 :
    report_step tr
      (mkTrackReport (index tr) (be32 b0 b1 b2 b3) (length_parsed tr)
         (has_end_of_track tr) (tr_errors tr) (tr_warnings tr)
         (tr_error_locs tr) (tr_warning_locs tr) (stats tr))
| step_length_parsed tr n :
    report_step tr
      (mkTrackReport (index tr) (length_declared tr) n
         (has_end_of_track tr) (tr_errors tr) (tr_warnings tr)
         (tr_error_locs tr) (tr_warning_locs tr) (stats tr)).

(** [keeps P m]: whatever [m] ends in, it ends in a state of [P] when it
    starts in one. *)
Definition keeps {St A} (P : St -> Prop) (m : M St A) : Prop :=
  forall s, P s -> P (snd (m s)).

(** The report of the environment is reached from [tr0] by the updates of
    [report_step]. *)
Definition report_from (tr0 : TrackReport) (s : TEnv) : Prop :=
  rtc report_step tr0 (te_tr s).

(** A division [validate_division] finds no fault with: SMPTE with ticks
    per frame, or PPQN above zero. *)
Definition division_ok (div : Z) : Prop :=
  if 32768 <=? div then div mod 256 <> 0 else 0 < div.

(** A header [parse_header] finds no fault with. *)
Definition header_ok (h : MIDIHeader) : Prop :=
  0 <= format_type h <= 2 /\ 1 <= num_tracks h <= 65535 /\
  0 <= division h <= 65535 /\ division_ok (division h).

(** Every diagnostic of a track report has its place: the messages of the
    located lists are the messages of the plain lists, in order. *)
Definition diagnostics_located (tr : TrackReport) : Prop :=
  map fst (tr_error_locs tr) = tr_errors tr /\
  map fst (tr_warning_locs tr) = tr_warnings tr.

(** The tempo counter counts the tempo values, which are 24-bit numbers. *)
Definition tempos_counted (tr : TrackReport) : Prop :=
  tempo_events (stats tr) = Z.of_nat (length (tempo_values (stats tr))) /\
  Forall (fun us => 0 <= us < 2 ^ 24) (tempo_values (stats tr)).

(** No counter of a track report is negative. *)
Definition counters_nonneg (tr : TrackReport) : Prop :=
  let st := stats tr in
  0 <= note_on st /\ 0 <= note_off st /\ 0 <= program_changes st /\
  0 <= controllers st /\ 0 <= pitch_bends st /\ 0 <= aftertouch_poly st /\
  0 <= aftertouch_ch st /\ 0 <= sysex st /\ 0 <= meta st /\
  0 <= tempo_events st /\ 0 <= time_sig_events st /\ 0 <= key_sig_events st /\
  0 <= length_declared tr < 2 ^ 32.

(** The number two bytes stand for, most significant byte first. *)
Definition be16 (b0 b1 : byte) : Z := byte_val b0 * 256 + byte_val b1.

(** The error [_check_data_range] records for the data bytes [vals]: one
    for the first byte above 127, none when there is no such byte. *)
Definition data_range_errors (vals : list byte) (tindex : Z) (ctx : string)
  : list string :=
  match find (fun v => byte_val v >? 127) vals with
  | Some v => [pista tindex ("dato >127 en " +:+ ctx +:+ ": " +:+ dec (byte_val v))]
  | None => []
  end.

(** The errors and the warnings of a 16-bit division, as
    [validate_division] records them. *)
Definition division_errors (div : Z) : list string :=
  if 32768 <=? div
  then (if div mod 256 =? 0 then ["Ticks/frame=0 inválido"] else [])
  else (if 0 <? div then [] else ["Division PPQN debe ser >0"]).

Definition division_warnings (div : Z) : list string :=
  if 32768 <=? div
  then (if fps_usual (256 - div / 256) then []
        else ["SMPTE fps inusual: " +:+ dec (256 - div / 256)])
  else [].

(** The number of data bytes of a channel voice message: one for a program
    change (0xC_) and a channel aftertouch (0xD_), two for the others. *)
Definition voice_data_length (status : Z) : Z :=
  if (status / 16 =? 12) || (status / 16 =? 13) then 1 else 2.

(** The counter a channel voice message counts in, by the upper four bits
    of its status; a Note-On counts as a note-off when its velocity is 0. *)
Definition voice_counter (status : Z) (data : list byte)
  : TrackStats -> TrackStats :=
  match status / 16, data with
  | 8, _ => incr_note_off
  | 9, [_; vel] => if byte_val vel =? 0 then incr_note_off else incr_note_on
  | 10, _ => incr_aftertouch_poly
  | 11, _ => incr_controllers
  | 12, _ => incr_program_changes
  | 13, _ => incr_aftertouch_ch
  | 14, _ => incr_pitch_bends
  | _, _ => fun st => st
  end.

(** What a channel voice message does to the [active] dictionary: a
    Note-On of velocity above 0 adds one to the count of its key (channel,
    pitch); a Note-Off, or a Note-On of velocity 0, takes one off, not below
    zero; nothing else, and nothing without [pair_notes]. *)
Definition voice_active (pair_notes : bool) (status : Z) (data : list byte)
    (active : gmap (Z * Z) Z) : gmap (Z * Z) Z :=
  if pair_notes then
    match status / 16, data with
    | 8, p :: _ =>
        <[(status mod 16, byte_val p) :=
            Z.max 0 (default 0 (active !! (status mod 16, byte_val p)) - 1)]> active
    | 9, [p; vel] =>
        if byte_val vel =? 0 then
          <[(status mod 16, byte_val p) :=
              Z.max 0 (default 0 (active !! (status mod 16, byte_val p)) - 1)]> active
        else
          <[(status mod 16, byte_val p) :=
              default 0 (active !! (status mod 16, byte_val p)) + 1]> active
    | _, _ => active
    end
  else active.











(** * Properties *)

(** ** Rules for computations *)

Section Rules.
Context {St : Type}.

Lemma wpo_run {A} (m : M St A) Q s o s' :
  m s = (o, s') -> Q o s' -> wpo m Q s.
Proof. unfold wpo. intros ->. trivial. Qed.


Lemma wp_inv {A} (m : M St A) Q s :
  wp m Q s -> exists a s', m s = (Return a, s') /\ Q a s'.
Proof.
  unfold wp, wpo. destruct (m s) as [[a|e|] s']; simpl; try tauto. eauto.
Qed.

Lemma wpo_mono {A} (m : M St A) (Q Q' : outcome A -> St -> Prop) s :
  (forall o s', Q o s' -> Q' o s') -> wpo m Q s -> wpo m Q' s.
Proof. unfold wpo. auto. Qed.

Lemma wp_mono {A} (m : M St A) (Q Q' : A -> St -> Prop) s :
  (forall a s', Q a s' -> Q' a s') -> wp m Q s -> wp m Q' s.
Proof.
  intros HQ. apply wpo_mono. intros [a|e|] s'; simpl; auto.
Qed.

Lemma wp_wpo {A} (m : M St A) (Q : A -> St -> Prop) (Q' : outcome A -> St -> Prop) s :
  (forall a s', Q a s' -> Q' (Return a) s') -> wp m Q s -> wpo m Q' s.
Proof.
  intros HQ. apply wpo_mono. intros [a|e|] s'; simpl; auto; contradiction.
Qed.

Lemma wp_ret {A} (a : A) (Q : A -> St -> Prop) s : Q a s -> wp (ret a) Q s.
Proof. trivial. Qed.

Lemma wp_gets {A} (f : St -> A) (Q : A -> St -> Prop) s :
  Q (f s) s -> wp (gets f) Q s.
Proof. trivial. Qed.

Lemma wp_modify (f : St -> St) (Q : unit -> St -> Prop) s :
  Q tt (f s) -> wp (modify f) Q s.
Proof. trivial. Qed.

Lemma wpo_bind {A B} (m : M St A) (k : A -> M St B) Q s :
  wpo m (fun o s' => match o with
                     | Return a => wpo (k a) Q s'
                     | Raise e => Q (Raise e) s'
                     | OutOfFuel => Q OutOfFuel s'
                     end) s ->
  wpo (bind m k) Q s.
Proof.
  unfold wpo, bind. destruct (m s) as [[a|e|] s']; simpl; trivial.
Qed.

Lemma wp_bind {A B} (m : M St A) (k : A -> M St B) (Q : B -> St -> Prop) s :
  wp m (fun a s' => wp (k a) Q s') s -> wp (bind m k) Q s.
Proof.
  unfold wp, wpo, bind. destruct (m s) as [[a|e|] s']; simpl; trivial.
Qed.

Lemma wp_when (c : bool) (m : M St unit) (Q : unit -> St -> Prop) s :
  (c = true -> wp m Q s) -> (c = false -> Q tt s) -> wp (when c m) Q s.
Proof. destruct c; simpl; auto. intros _ H. apply H. reflexivity. Qed.

(** [try ... except]: the body may return or raise, the handler returns. *)
Lemma wp_try_except {A} (m : M St A) (h : exn -> M St A) (Q : A -> St -> Prop) s :
  wpo m (fun o s' => match o with
                     | Return a => Q a s'
                     | Raise e => wp (h e) Q s'
                     | OutOfFuel => False
                     end) s ->
  wp (try_except m h) Q s.
Proof.
  unfold wp, wpo, try_except. destruct (m s) as [[a|e|] s']; simpl; trivial.
Qed.

(** A [while] loop with an invariant [I] and a measure that is positive
    while the condition holds and that every turn ending in [Next]
    decreases: fuel at least the measure is enough. *)
Lemma wp_while (I : St -> Prop) (mu : St -> nat) cond (body : M St ctl) :
  (forall s, I s -> cond s = true -> (0 < mu s)%nat) ->
  (forall s, I s -> cond s = true ->
     wp body (fun c s' => I s' /\ (c = Next -> (mu s' < mu s)%nat)) s) ->
  forall fuel s, I s -> (mu s <= fuel)%nat ->
    wp (while_loop fuel cond body) (fun _ s' => I s') s.
Proof.
  intros Hpos Hbody. induction fuel as [|fuel IH]; intros s HI Hmu.
  - unfold wp, wpo. simpl. destruct (cond s) eqn:Hc; simpl; trivial.
    specialize (Hpos s HI Hc). lia.
  - unfold wp, wpo. simpl. destruct (cond s) eqn:Hc; simpl; trivial.
    specialize (Hbody s HI Hc). unfold wp, wpo in Hbody.
    destruct (body s) as [[[|]|e|] s']; simpl in *; try contradiction.
    + destruct Hbody as [HI' Hlt]. specialize (Hlt eq_refl).
      apply (IH s' HI'). lia.
    + tauto.
Qed.
End Rules.

(** ** The cursor *)

Lemma wf_new_Reader d : wf_reader (new_Reader d).
Proof. unfold wf_reader, new_Reader. simpl. lia. Qed.

Lemma slice_length d i j :
  0 <= i -> i <= j -> j <= Z.of_nat (length d) ->
  length (slice d i j) = Z.to_nat (j - i).
Proof.
  intros Hi Hij Hj. unfold slice.
  rewrite length_take, length_drop. lia.
Qed.

Lemma read_cases n r :
  (pos r + n > len r /\ read n r = (Raise (EOFError "Unexpected EOF"), r)) \/
  (pos r + n <= len r /\
   read n r = (Return (slice (data r) (pos r) (pos r + n)), set_pos (pos r + n) r)).
Proof.
  unfold read. destruct (Z.gtb_spec (pos r + n) (len r)); [left|right]; split; auto; lia.
Qed.

Lemma getitem_cases {St} (b : list byte) i (s : St) :
  (exists x, nth_error b i = Some x /\ getitem b i s = (Return (byte_val x), s)) \/
  (nth_error b i = None /\ getitem b i s = (Raise (IndexError "index out of range"), s)).
Proof.
  unfold getitem.
  destruct (nth_error b i) as [x|]; [left; eauto | right; auto].
Qed.

Lemma read_vlq_loop_frame n : forall val r o r',
  read_vlq_loop n val r = (o, r') ->
  data r' = data r /\ len r' = len r /\
  pos r <= pos r' <= pos r + Z.of_nat n /\
  (pos r <= len r -> pos r' <= len r) /\
  o <> OutOfFuel /\
  (forall v, o = Return v -> pos r < pos r' /\ (0 <= val -> 0 <= v)).
Proof.
  induction n as [|n IH]; intros val r o r' H; simpl in H.
  - inversion H; subst. split_and!; try lia; done.
  - unfold bind at 1 in H.
    destruct (read_cases 1 r) as [[Hgt E]|[Hle E]]; rewrite E in H; clear E.
    { inversion H; subst. split_and!; try lia; done. }
    unfold bind at 1 in H.
    destruct (getitem_cases (slice (data r) (pos r) (pos r + 1)) 0 (set_pos (pos r + 1) r))
      as [(x & _ & E)|[_ E]]; rewrite E in H; clear E.
    2: { inversion H; subst. simpl. split_and!; try lia; done. }
    assert (Hacc : 0 <= val -> 0 <= Z.lor (Z.shiftl val 7) (Z.land (byte_val x) 127)).
    { intros Hval. apply Z.lor_nonneg. split.
      - apply Z.shiftl_nonneg. exact Hval.
      - apply Z.land_nonneg. right. lia. }
    destruct (Z.land (byte_val x) 128 =? 0).
    + inversion H; subst. simpl. split_and!; try lia; try done.
      intros v Hv. inversion Hv; subst. split; [lia|exact Hacc].
    + apply IH in H. simpl in H. destruct H as (Hd & Hl & Hp & Hb & Hf & Hr).
      split_and!; try lia; auto.
      intros v Hv. destruct (Hr v Hv) as [Hlt Hnn]. split; [lia|auto].
Qed.

(** ** The VLQ decoder *)

Lemma byte_val_range b : 0 <= byte_val b < 256.
Proof.
  unfold byte_val. pose proof (Byte.to_N_bounded b) as H.
  lia.
Qed.

Lemma vlq_step_arith val x :
  0 <= val -> 0 <= x ->
  Z.lor (Z.shiftl val 7) (Z.land x 0x7F) = val * 128 + x mod 128.
Proof.
  intros Hv Hx.
  change 0x7F with (Z.ones 7). rewrite Z.land_ones by lia.
  rewrite Z.shiftl_mul_pow2 by lia. change (2 ^ 7) with 128.
  rewrite <- Z.lxor_lor, <- Z.add_nocarry_lxor; trivial.
  all: apply Z.bits_inj'; intros n Hn; rewrite Z.land_spec, Z.bits_0.
  all: destruct (Z.lt_ge_cases n 7) as [Hlt|Hge].
  all: try (change 128 with (2 ^ 7) at 1; rewrite Z.mul_pow2_bits_low by lia; reflexivity).
  all: change 128 with (2 ^ 7) at 2; rewrite (Z.mod_pow2_bits_high x 7 n) by lia.
  all: apply andb_false_r.
Qed.

Lemma slice_cursor1 pre b rest :
  slice (pre ++ b :: rest) (Z.of_nat (length pre)) (Z.of_nat (length pre) + 1) = [b].
Proof.
  unfold slice. replace (Z.to_nat (Z.of_nat (length pre) + 1 - Z.of_nat (length pre))) with 1%nat by lia.
  rewrite Nat2Z.id, drop_app_length. reflexivity.
Qed.

Lemma cursor_shift pre b rest :
  set_pos (Z.of_nat (length pre) + 1) (cursor pre (b :: rest)) = cursor (pre ++ [b]) rest.
Proof.
  unfold cursor, set_pos; simpl. rewrite <- app_assoc. simpl.
  f_equal. rewrite length_app. simpl. lia.
Qed.

Lemma read1_cursor pre b rest :
  read 1 (cursor pre (b :: rest)) = (Return [b], cursor (pre ++ [b]) rest).
Proof.
  destruct (read_cases 1 (cursor pre (b :: rest))) as [[Hgt _]|[_ ->]].
  - unfold cursor in Hgt; simpl in Hgt. rewrite length_app in Hgt. simpl in Hgt. lia.
  - unfold cursor at 1 2 3; simpl. rewrite slice_cursor1, cursor_shift. reflexivity.
Qed.

Lemma read_vlq_loop_byte n val pre b rest :
  read_vlq_loop (S n) val (cursor pre (b :: rest)) =
  if continues b
  then read_vlq_loop n (Z.lor (Z.shiftl val 7) (Z.land (byte_val b) 0x7F))
         (cursor (pre ++ [b]) rest)
  else (Return (Z.lor (Z.shiftl val 7) (Z.land (byte_val b) 0x7F)),
        cursor (pre ++ [b]) rest).
Proof.
  simpl. unfold bind at 1. rewrite read1_cursor.
  unfold bind, getitem, continues; simpl.
  destruct (Z.land (byte_val b) 128 =? 0); reflexivity.
Qed.

Lemma read_vlq_loop_continues cs : forall n val pre rest,
  Forall (fun c => continues c = true) cs -> 0 <= val ->
  read_vlq_loop (length cs + n) val (cursor pre (cs ++ rest)) =
  read_vlq_loop n (fold_left (fun acc b => acc * 128 + byte_val b mod 128) cs val)
    (cursor (pre ++ cs) rest).
Proof.
  induction cs as [|c cs IH]; intros n val pre rest Hcs Hval; simpl.
  - rewrite app_nil_r. reflexivity.
  - inversion Hcs as [|? ? Hc Hcs']; subst.
    change (read_vlq_loop (S (length cs + n)) val (cursor pre (c :: cs ++ rest)) =
            read_vlq_loop n
              (fold_left (fun acc b => acc * 128 + byte_val b mod 128) cs
                 (val * 128 + byte_val c mod 128)) (cursor (pre ++ c :: cs) rest)).
    rewrite read_vlq_loop_byte, Hc.
    pose proof (byte_val_range c).
    rewrite vlq_step_arith by lia.
    rewrite IH; trivial.
    + rewrite <- app_assoc. reflexivity.
    + pose proof (Z.mod_pos_bound (byte_val c) 128). lia.
Qed.

Lemma vlq_value_nonneg cs val :
  0 <= val -> 0 <= fold_left (fun acc b => acc * 128 + byte_val b mod 128) cs val.
Proof.
  revert val. induction cs as [|c cs IH]; intros val Hval; simpl; trivial.
  apply IH. pose proof (Z.mod_pos_bound (byte_val c) 128). lia.
Qed.

Lemma read_vlq_cursor_value pre cs b rest :
  Forall (fun c => continues c = true) cs -> (length cs <= 3)%nat ->
  continues b = false ->
  read_vlq (cursor pre (cs ++ b :: rest)) =
  (Return (vlq_value (cs ++ [b])), cursor (pre ++ cs ++ [b]) rest).
Proof.
  intros Hcs Hlen Hb. unfold read_vlq.
  replace 4%nat with (length cs + S (3 - length cs))%nat by lia.
  rewrite read_vlq_loop_continues by (trivial; lia).
  rewrite read_vlq_loop_byte, Hb.
  pose proof (byte_val_range b).
  rewrite vlq_step_arith by (try apply vlq_value_nonneg; lia).
  unfold vlq_value. rewrite fold_left_app. simpl.
  rewrite <- app_assoc. reflexivity.
Qed.

Lemma read_vlq_cursor_too_long pre cs rest :
  Forall (fun c => continues c = true) cs -> length cs = 4%nat ->
  read_vlq (cursor pre (cs ++ rest)) =
  (Raise (ValueError "VLQ demasiado largo (>4 bytes)"), cursor (pre ++ cs) rest).
Proof.
  intros Hcs Hlen. unfold read_vlq.
  replace 4%nat with (length cs + 0)%nat by lia.
  rewrite read_vlq_loop_continues by (trivial; lia). reflexivity.
Qed.

(** C5.  [read_vlq] never moves the cursor by more than four bytes; a run of
    at most three continuation bytes followed by a byte with its high bit
    clear decodes to the number of their low seven bits, most significant
    byte first, and leaves the cursor after that byte; four continuation
    bytes make it raise the too-long [ValueError], whatever comes before or
    after them, a fifth continuation byte included. *)
Theorem read_vlq_decodes (pre cs rest : list byte) :
  Forall (fun c => continues c = true) cs ->
  (forall r, pos r <= pos (snd (read_vlq r)) <= pos r + 4 /\
             data (snd (read_vlq r)) = data r) /\
  (forall b, (length cs <= 3)%nat -> continues b = false ->
     read_vlq (cursor pre (cs ++ b :: rest)) =
     (Return (vlq_value (cs ++ [b])), cursor (pre ++ cs ++ [b]) rest)) /\
  (length cs = 4%nat ->
     read_vlq (cursor pre (cs ++ rest)) =
     (Raise (ValueError "VLQ demasiado largo (>4 bytes)"), cursor (pre ++ cs) rest)) /\
  (forall c5, length cs = 4%nat -> continues c5 = true ->
     fst (read_vlq (cursor pre (cs ++ c5 :: rest))) =
     Raise (ValueError "VLQ demasiado largo (>4 bytes)")).
Proof.
  intros Hcs. split_and!.
  - intros r. destruct (read_vlq r) as [o r'] eqn:E.
    apply read_vlq_loop_frame in E. simpl. change (Z.of_nat 4) with 4 in E.
    split; [apply E|apply E].
  - intros b Hlen Hb. apply read_vlq_cursor_value; assumption.
  - intros Hlen. apply read_vlq_cursor_too_long; assumption.
  - intros c5 Hlen Hc5. rewrite read_vlq_cursor_too_long by assumption. reflexivity.
Qed.

Lemma read_vlq_decodes_witness :
  Forall (fun c => continues c = true) [x81; x80] /\
  read_vlq (cursor [x00] ([x81; x80] ++ x00 :: [xff; x2f; x00])) =
  (Return 16384, cursor ([x00] ++ [x81; x80] ++ [x00]) [xff; x2f; x00]).
Proof.
  assert (H : Forall (fun c => continues c = true) [x81; x80])
    by (repeat constructor).
  split; [exact H|].
  destruct (read_vlq_decodes [x00] [x81; x80] [xff; x2f; x00] H) as (_ & Hv & _).
  apply (Hv x00); [simpl; lia | reflexivity].
Defined.

(** ** The division field *)

Lemma land_pow2_zero a n :
  0 <= n -> (Z.land a (2 ^ n) =? 0) = negb (Z.testbit a n).
Proof.
  intros Hn. destruct (Z.testbit a n) eqn:Hb; simpl.
  - apply Z.eqb_neq. intros H.
    assert (Ht : Z.testbit (Z.land a (2 ^ n)) n = true).
    { rewrite Z.land_spec, Hb, Z.pow2_bits_true by lia. reflexivity. }
    rewrite H, Z.bits_0 in Ht. discriminate.
  - apply Z.eqb_eq. apply Z.bits_inj'. intros m Hm.
    rewrite Z.land_spec, Z.bits_0, Z.pow2_bits_eqb by lia.
    destruct (Z.eqb_spec n m) as [->|_].
    + rewrite Hb. reflexivity.
    + apply andb_false_r.
Qed.

Lemma testbit_top a n :
  0 <= n -> 0 <= a < 2 ^ (n + 1) -> Z.testbit a n = (2 ^ n <=? a).
Proof.
  intros Hn Ha.
  pose proof (Z.testbit_spec' a n Hn) as Hs.
  assert (Hp : 0 < 2 ^ n) by (apply Z.pow_pos_nonneg; lia).
  rewrite Z.pow_add_r, Z.pow_1_r in Ha by lia.
  destruct (Z.leb_spec (2 ^ n) a) as [Hle|Hlt].
  - assert (Hq : a / 2 ^ n = 1).
    { symmetry. apply (Z.div_unique a (2 ^ n) 1 (a - 2 ^ n)); lia. }
    rewrite Hq in Hs. change (1 mod 2) with 1 in Hs.
    destruct (Z.testbit a n); [reflexivity|discriminate].
  - rewrite Z.div_small in Hs by lia. change (0 mod 2) with 0 in Hs.
    destruct (Z.testbit a n); [discriminate|reflexivity].
Qed.

Lemma division_high_bit div :
  0 <= div < 65536 -> (Z.land div 0x8000 =? 0) = (div <? 32768).
Proof.
  intros Hd. change 0x8000 with (2 ^ 15).
  rewrite land_pow2_zero by lia.
  rewrite (testbit_top div 15) by (change (2 ^ (15 + 1)) with 65536; lia).
  change (2 ^ 15) with 32768.
  destruct (Z.leb_spec 32768 div), (Z.ltb_spec div 32768); simpl; auto; lia.
Qed.

Lemma division_low_byte div : 0 <= div -> Z.land div 0xFF = div mod 256.
Proof. intros Hd. change 0xFF with (Z.ones 8). rewrite Z.land_ones by lia. reflexivity. Qed.

Lemma division_high_byte div :
  0 <= div < 65536 -> Z.land (Z.shiftr div 8) 0xFF = div / 256.
Proof.
  intros Hd. rewrite Z.shiftr_div_pow2 by lia. change (2 ^ 8) with 256.
  rewrite division_low_byte by (apply Z.div_pos; lia).
  apply Z.mod_small. split; [apply Z.div_pos; lia|].
  apply Z.div_lt_upper_bound; lia.
Qed.

Lemma smpte_fps_arith div :
  32768 <= div < 65536 -> smpte_fps div = 256 - div / 256.
Proof.
  intros Hd. unfold smpte_fps. rewrite division_high_byte by lia.
  assert (128 <= div / 256) by (apply Z.div_le_lower_bound; lia).
  destruct (Z.geb_spec (div / 256) 128); lia.
Qed.

(** C6.  For a 16-bit division value with the high bit set, the ticks per
    frame (the low byte) being 0 adds the ticks-per-frame error and nothing
    else adds an error; the frames per second (the upper byte read as a
    signed byte, negated) being none of 24, 25, 29, 30 adds the fps warning
    and never an error.  With the high bit clear, the 15-bit PPQN value
    being 0 adds the PPQN error, and no warning is added. *)
Theorem validate_division_spec (div : Z) (s : FEnv) :
  0 <= div < 65536 ->
  exists s', validate_division div s = (Return tt, s') /\
    let fps := 256 - div / 256 in
    let tpf := div mod 256 in
    let ppqn := div mod 32768 in
    if 32768 <=? div then
      rep_errors (fe_rep s') =
        rep_errors (fe_rep s) ++ (if tpf =? 0 then ["Ticks/frame=0 inválido"] else []) /\
      rep_warnings (fe_rep s') =
        rep_warnings (fe_rep s) ++
          (if (fps =? 24) || (fps =? 25) || (fps =? 29) || (fps =? 30) then []
           else ["SMPTE fps inusual: " +:+ dec fps])
    else
      rep_errors (fe_rep s') =
        rep_errors (fe_rep s) ++ (if 0 <? ppqn then [] else ["Division PPQN debe ser >0"]) /\
      rep_warnings (fe_rep s') = rep_warnings (fe_rep s).
Proof.
  intros Hd. unfold validate_division.
  rewrite division_high_bit by lia.
  destruct (Z.leb_spec 32768 div) as [Hhi|Hlo].
  - destruct (Z.ltb_spec div 32768); [lia|]. simpl negb. cbv iota.
    rewrite smpte_fps_arith, division_low_byte by lia.
    unfold fps_usual.
    destruct ((256 - div / 256 =? 24) || (256 - div / 256 =? 25)
              || (256 - div / 256 =? 29) || (256 - div / 256 =? 30));
      destruct (div mod 256 =? 0); eexists; (split; [reflexivity|]); simpl;
      rewrite ?app_nil_r; auto.
  - destruct (Z.ltb_spec div 32768); [|lia]. simpl negb. cbv iota.
    rewrite (Z.mod_small div 32768) by lia.
    destruct (Z.leb_spec div 0), (Z.ltb_spec 0 div); try lia;
      eexists; (split; [reflexivity|]); simpl; rewrite ?app_nil_r; auto.
Qed.

Lemma validate_division_spec_witness :
  0 <= 0xE700 < 65536 /\
  exists s', validate_division 0xE700 (mkFEnv (new_Reader []) (FileReport0 "a.mid") 0)
             = (Return tt, s') /\
    rep_errors (fe_rep s') = ["Ticks/frame=0 inválido"] /\
    rep_warnings (fe_rep s') = [].
Proof.
  split; [lia|].
  exact (validate_division_spec 0xE700 (mkFEnv (new_Reader []) (FileReport0 "a.mid") 0)
           ltac:(lia)).
Defined.

(** ** The scan loop of [parse_track] *)

Ltac wp_simpl := cbv beta.

Ltac wp_step :=
  lazymatch goal with
  | |- wp (bind _ _) _ _ => apply wp_bind
  | |- wp (ret _) _ _ => apply wp_ret
  | |- wp (gets _) _ _ => apply wp_gets
  | |- wp (modify _) _ _ => apply wp_modify
  | |- wp (_err _ _) _ _ => unfold _err
  | |- wp (_warn _ _) _ _ => unfold _warn
  | |- wp (stat _) _ _ => unfold stat
  | |- wp local_tell _ _ => unfold local_tell
  | |- wp local_remaining _ _ => unfold local_remaining
  | |- wp (set_has_end_of_track _) _ _ => unfold set_has_end_of_track
  | |- wp (set_length_parsed _) _ _ => unfold set_length_parsed
  | |- wp (set_length_declared _) _ _ => unfold set_length_declared
  | |- wp te_r_tell _ _ => unfold te_r_tell
  | |- wp r_tell _ _ => unfold r_tell
  | |- wp (rep_errors_append _) _ _ => unfold rep_errors_append
  | |- wp (rep_warnings_append _) _ _ => unfold rep_warnings_append
  | |- wp (rep_error_locs_append _) _ _ => unfold rep_error_locs_append
  | |- wp (rep_warning_locs_append _) _ _ => unfold rep_warning_locs_append
  | |- wp (active_release _) _ _ => unfold active_release
  | |- wp (active_press _) _ _ => unfold active_press
  end; wp_simpl.

Ltac wp_steps := repeat wp_step.
Ltac wp_when := apply wp_when; intros ?; wp_simpl.

Lemma wp_local_read n (Q : list byte -> TEnv -> Prop) s :
  pos (te_local s) + n <= len (te_local s) ->
  Q (slice (data (te_local s)) (pos (te_local s)) (pos (te_local s) + n))
    (with_local (fun _ => set_pos (pos (te_local s) + n) (te_local s)) s) ->
  wp (on_local (read n)) Q s.
Proof.
  intros Hn HQ. unfold wp, wpo, on_local.
  destruct (read_cases n (te_local s)) as [[Hgt _]|[_ ->]]; [lia|exact HQ].
Qed.

Lemma wp_getitem {St} (b : list byte) i (Q : Z -> St -> Prop) s :
  (i < length b)%nat ->
  (forall x, nth_error b i = Some x -> Q (byte_val x) s) ->
  wp (getitem b i) Q s.
Proof.
  intros Hi HQ. unfold wp, wpo.
  destruct (getitem_cases b i s) as [(x & Hx & ->)|[Hx _]].
  - apply HQ, Hx.
  - apply nth_error_None in Hx. lia.
Qed.

Ltac inv_solve :=
  unfold scan_inv in *; simpl in *; intuition (try congruence; try lia).

Lemma check_data_range_inv d rr ld p vals tindex ctx off s :
  scan_inv d rr ld p s ->
  wp (_check_data_range vals tindex ctx off) (fun _ s' => scan_inv d rr ld p s') s.
Proof.
  intros Hs. induction vals as [|v vals IH]; simpl.
  - wp_steps. exact Hs.
  - destruct (byte_val v >? 127); [|exact IH].
    wp_steps. inv_solve.
Qed.

(** Reading a VLQ from [local]: either a number, and the cursor has moved on,
    or the report of the [except] clause. *)
Lemma local_read_vlq_or_inv d rr ld p report s :
  scan_inv d rr ld p s ->
  (forall e s1, scan_inv d rr ld p s1 ->
     wp (report e) (fun _ s2 => scan_inv d rr ld p s2) s1) ->
  wp (local_read_vlq_or report)
     (fun o s' => match o with
                  | Some v => scan_inv d rr ld (pos (te_local s) + 1) s' /\ 0 <= v
                  | None => scan_inv d rr ld p s'
                  end) s.
Proof.
  intros Hs Hrep. unfold local_read_vlq_or.
  apply wp_try_except. apply wpo_bind. unfold wpo, on_local.
  destruct (read_vlq (te_local s)) as [o l'] eqn:E. simpl.
  pose proof E as E'. apply read_vlq_loop_frame in E'.
  destruct E' as (Hd & Hl & Hp & Hb & Hf & Hr).
  destruct o as [v|e|]; simpl.
  - destruct (Hr v eq_refl) as [Hlt Hnn]. split; [inv_solve|lia].
  - apply wp_bind. eapply wp_mono; [|apply (Hrep e); inv_solve].
    intros a s' H. exact H.
  - congruence.
Qed.

Lemma scan_inv_slice d rr ld p s n :
  scan_inv d rr ld p s -> 0 <= n -> pos (te_local s) + n <= len (te_local s) ->
  length (slice (data (te_local s)) (pos (te_local s)) (pos (te_local s) + n))
  = Z.to_nat n.
Proof.
  intros Hs Hn Hle. rewrite slice_length; [f_equal; lia| |lia|]; inv_solve.
Qed.

Lemma channel_voice_inv d rr ld p tindex start status pair_notes s :
  scan_inv d rr ld p s ->
  wp (channel_voice tindex start status pair_notes)
     (fun _ s' => scan_inv d rr ld p s') s.
Proof.
  intros Hs. unfold channel_voice.
  set (mt := Z.land status 240).
  set (dl := if (mt =? 192) || (mt =? 208) then 1 else 2).
  assert (Hdl : dl = 1 \/ dl = 2) by (unfold dl; destruct ((mt =? 192) || (mt =? 208)); auto).
  wp_steps. unfold remaining.
  destruct (Z.ltb_spec (len (te_local s) - pos (te_local s)) dl) as [Hlt|Hge].
  { wp_steps. inv_solve. }
  wp_step. apply wp_local_read; [lia|].
  pose proof (scan_inv_slice d rr ld p s dl Hs ltac:(lia) ltac:(lia)) as Hlen.
  set (bs := slice _ _ _) in *.
  wp_steps.
  eapply wp_mono; [|apply (check_data_range_inv d rr ld p); inv_solve].
  intros [] s1 Hs1. wp_simpl. wp_step.
  assert (Hget : forall i, (i < 2)%nat -> i = 0%nat \/ dl = 2 ->
            forall (Q : Z -> TEnv -> Prop) s2, (forall z, Q z s2) -> wp (getitem bs i) Q s2).
  { intros i Hi Hc Q s2 HQ. apply wp_getitem; [lia|]. intros x _. apply HQ. }
  assert (Hrel : forall s2, scan_inv d rr ld p s2 -> forall k,
            wp (when pair_notes (let! d0 := getitem bs 0 in active_release (k, d0)))
               (fun _ s3 => wp (ret Next) (fun _ s' => scan_inv d rr ld p s') s3) s2).
  { intros s2 Hs2 k. wp_when; [|wp_steps; exact Hs2].
    wp_step. apply Hget; [lia|auto|]. intros z. wp_steps. inv_solve. }
  repeat (lazymatch goal with
          | |- wp (if ?c then _ else _) _ _ => destruct c eqn:?
          end).
  - wp_steps. apply Hrel. inv_solve.
  - wp_step. destruct (dl =? 2) eqn:Hd2.
    + apply Hget; [lia|right; lia|]. intros vel. wp_simpl.
      destruct (vel =? 0).
      * wp_steps. apply Hrel. inv_solve.
      * wp_steps. wp_when; [|wp_steps; inv_solve].
        wp_step. apply Hget; [lia|auto|]. intros z. wp_steps. inv_solve.
    + wp_steps. simpl. wp_steps. apply Hrel. inv_solve.
  - wp_steps. inv_solve.
  - wp_steps. inv_solve.
  - wp_steps. inv_solve.
  - wp_steps. inv_solve.
  - wp_steps. inv_solve.
  - wp_steps. inv_solve.
Qed.

Ltac wp_if :=
  lazymatch goal with
  | |- wp (if ?c then _ else _) _ _ => destruct c eqn:?
  end.

Lemma meta_dispatch_inv d rr ld p tindex start strict meta ln md s :
  scan_inv d rr ld p s -> 0 <= ln -> length md = Z.to_nat ln ->
  wp (meta_dispatch tindex start strict meta ln md)
     (fun _ s' => scan_inv d rr ld p s') s.
Proof.
  intros Hs Hln Hmd. unfold meta_dispatch.
  wp_if; [|wp_if; [|wp_if; [|wp_if]]].
  - wp_step. wp_when.
    + wp_steps. wp_if.
      * wp_steps. apply wp_local_read; [simpl; unfold remaining; simpl; lia|].
        wp_steps. unfold remaining in *. simpl in *.
        apply Z.gtb_lt in Heqb0. inv_solve.
      * wp_steps. inv_solve.
    + wp_steps. wp_if.
      * wp_steps. apply wp_local_read; [simpl; unfold remaining; simpl; lia|].
        wp_steps. unfold remaining in *. simpl in *.
        apply Z.gtb_lt in Heqb0. inv_solve.
      * wp_steps. inv_solve.
  - wp_step. wp_if.
    + wp_steps. inv_solve.
    + apply negb_false_iff, Z.eqb_eq in Heqb1. subst ln.
      wp_step. apply wp_getitem; [lia|]. intros x0 _. wp_simpl.
      wp_step. apply wp_getitem; [lia|]. intros x1 _. wp_simpl.
      wp_step. apply wp_getitem; [lia|]. intros x2 _. wp_simpl.
      wp_steps. wp_when; wp_steps; inv_solve.
  - wp_step. wp_if.
    + wp_steps. inv_solve.
    + apply negb_false_iff, Z.eqb_eq in Heqb2. subst ln.
      destruct md as [|nn [|dd [|cc [|bb [|? ?]]]]]; simpl in Hmd; try lia.
      wp_step. wp_when; wp_steps; inv_solve.
  - wp_step. wp_if; wp_steps; inv_solve.
  - wp_steps. inv_solve.
Qed.

Lemma local_read_byte_inv d rr ld p (Q : Z -> TEnv -> Prop) s :
  scan_inv d rr ld p s -> 0 < remaining (te_local s) ->
  (forall b s', scan_inv d rr ld (pos (te_local s) + 1) s' ->
                te_status s' = te_status s -> 0 <= b < 256 -> Q b s') ->
  wp local_read_byte Q s.
Proof.
  intros Hs Hrem HQ. unfold local_read_byte, remaining in *.
  wp_step. apply wp_local_read; [lia|].
  apply wp_getitem.
  - rewrite (scan_inv_slice d rr ld p s 1 Hs); lia.
  - intros x _. apply HQ; [inv_solve|reflexivity|apply byte_val_range].
Qed.

Lemma meta_event_inv d rr ld p tindex start strict s :
  scan_inv d rr ld p s ->
  wp (meta_event tindex start strict) (fun _ s' => scan_inv d rr ld p s') s.
Proof.
  intros Hs. unfold meta_event. wp_steps.
  destruct (Z.ltb_spec (remaining (te_local s)) 2) as [Hlt|Hge].
  { wp_steps. inv_solve. }
  wp_step. apply (local_read_byte_inv d rr ld p); [exact Hs|lia|].
  intros meta s1 Hs1 _ _. wp_simpl. wp_step.
  eapply wp_mono; [|apply (local_read_vlq_or_inv d rr ld p); [inv_solve|]].
  2: { intros e s2 Hs2. wp_steps. inv_solve. }
  intros [ln|] s2 Hs2; wp_simpl; [|wp_steps; exact Hs2].
  destruct Hs2 as [Hs2 Hln]. wp_steps.
  destruct (Z.ltb_spec (remaining (te_local s2)) ln) as [Hlt|Hge2].
  { wp_steps. inv_solve. }
  unfold remaining in *.
  wp_step. apply wp_local_read; [lia|].
  wp_steps. apply meta_dispatch_inv; [inv_solve|lia|].
  apply (scan_inv_slice d rr ld _ s2 ln Hs2); lia.
Qed.

Lemma sysex_event_inv d rr ld p tindex start s :
  scan_inv d rr ld p s ->
  wp (sysex_event tindex start) (fun _ s' => scan_inv d rr ld p s') s.
Proof.
  intros Hs. unfold sysex_event. wp_step.
  eapply wp_mono; [|apply (local_read_vlq_or_inv d rr ld p); [exact Hs|]].
  2: { intros e s2 Hs2. wp_steps. inv_solve. }
  intros [ln|] s2 Hs2; wp_simpl; [|wp_steps; exact Hs2].
  destruct Hs2 as [Hs2 Hln]. wp_steps.
  destruct (Z.ltb_spec (remaining (te_local s2)) ln) as [Hlt|Hge2].
  { wp_steps. inv_solve. }
  unfold remaining in *.
  wp_step. apply wp_local_read; [lia|].
  wp_steps. inv_solve.
Qed.

Lemma dispatch_inv d rr ld p tindex start status pair_notes strict s :
  scan_inv d rr ld p s ->
  wp (dispatch tindex start status pair_notes strict)
     (fun _ s' => scan_inv d rr ld p s') s.
Proof.
  intros Hs. unfold dispatch.
  wp_if; [|wp_if; [|wp_if]].
  - apply channel_voice_inv, Hs.
  - apply meta_event_inv, Hs.
  - apply sysex_event_inv, Hs.
  - wp_steps. inv_solve.
Qed.

(** One turn of the loop keeps the invariant, and a turn that does not
    break has read at least one byte. *)
Lemma scan_event_inv d rr ld tindex start pair_notes strict s :
  scan_inv d rr ld 0 s ->
  wp (scan_event tindex start pair_notes strict)
     (fun c s' => scan_inv d rr ld 0 s' /\
                  (c = Next -> pos (te_local s) < pos (te_local s'))) s.
Proof.
  intros Hs. unfold scan_event. wp_steps.
  eapply wp_mono; [|apply (local_read_vlq_or_inv d rr ld 0); [exact Hs|]].
  2: { intros e s2 Hs2. wp_steps. inv_solve. }
  intros [v|] s1 Hs1; wp_simpl; [|wp_steps; split; [exact Hs1|discriminate]].
  destruct Hs1 as [Hs1 _]. wp_steps.
  destruct (Z.leb_spec (remaining (te_local s1)) 0) as [Hle|Hgt].
  { wp_steps. split; [inv_solve|discriminate]. }
  wp_step. apply (local_read_byte_inv d rr ld (pos (te_local s) + 1)); [exact Hs1|lia|].
  intros b s2 Hs2 Hst Hb. wp_simpl.
  set (p1 := pos (te_local s) + 1).
  assert (Hfin : forall s3, scan_inv d rr ld p1 s3 ->
            wp (let! status := gets te_status in
                match status with
                | Some status0 => dispatch tindex start status0 pair_notes strict
                | None =>
                    let! p := local_tell in
                    _err (pista tindex "status indefinido.") (start + p);;; ret Break
                end)
               (fun c s' => scan_inv d rr ld 0 s' /\
                            (c = Next -> pos (te_local s) < pos (te_local s'))) s3).
  { intros s3 Hs3. wp_steps. destruct (te_status s3) as [st|].
    - eapply wp_mono; [|apply (dispatch_inv d rr ld p1), Hs3].
      intros c s4 Hs4. unfold p1 in *. inv_solve.
    - wp_steps. split; [unfold p1 in *; inv_solve|discriminate]. }
  wp_step. wp_if.
  - wp_steps. apply Hfin. unfold p1. inv_solve.
  - wp_steps. destruct (te_status s2) as [st|].
    + wp_steps. apply Hfin. unfold p1. inv_solve.
    + wp_steps. split; [inv_solve|discriminate].
Qed.

Lemma scan_loop_inv d rr ld tindex start pair_notes strict s :
  scan_inv d rr ld 0 s ->
  wp (while_loop (Z.to_nat (remaining (te_local s))) scan_cond
        (scan_event tindex start pair_notes strict))
     (fun _ s' => scan_inv d rr ld 0 s') s.
Proof.
  intros Hs.
  apply (wp_while (scan_inv d rr ld 0) (fun s => Z.to_nat (remaining (te_local s)))).
  - intros s1 _ Hc. unfold scan_cond in Hc. apply Z.gtb_lt in Hc. lia.
  - intros s1 Hs1 Hc. eapply wp_mono; [|apply scan_event_inv, Hs1].
    intros c s2 [Hs2 Hlt]. split; [exact Hs2|].
    intros Hn. specialize (Hlt Hn). unfold remaining. inv_solve.
  - exact Hs.
  - lia.
Qed.

(** ** [parse_track] *)

Lemma parse_track_chunk_spec tindex ld pair_notes strict s :
  length_declared (te_tr s) = ld ->
  wp (parse_track_chunk tindex ld pair_notes strict)
     (fun _ s' =>
        te_r s' = set_pos (chunk_end (te_r s) ld) (te_r s) /\
        data (te_local s') =
          slice (data (te_r s)) (pos (te_r s)) (chunk_end (te_r s) ld) /\
        0 <= pos (te_local s') <= Z.of_nat (length (data (te_local s'))) /\
        length_declared (te_tr s') = ld /\
        length_parsed (te_tr s') = pos (te_local s') /\
        (has_end_of_track (te_tr s') = false ->
         exists errs, tr_errors (te_tr s') =
                      errs ++ [pista tindex "sin End-of-Track (FF 2F 00)."])) s.
Proof.
  intros Hld. unfold parse_track_chunk. wp_steps.
  apply wp_mono with (Q := fun end_ s1 =>
    te_r s1 = te_r s /\ length_declared (te_tr s1) = ld /\
    end_ = chunk_end (te_r s) ld).
  2: { unfold chunk_end, tell.
       destruct (pos (te_r s) + ld >? len (te_r s)); wp_steps; auto. }
  intros end_ s1 (Hr1 & Hld1 & ->). wp_simpl. wp_steps. rewrite Hr1.
  set (rr := te_r s). set (end_ := chunk_end rr ld).
  set (d := slice (data rr) (tell rr) end_).
  eapply wp_mono; [|apply (scan_loop_inv d rr ld)].
  2: { unfold scan_inv, new_Reader; simpl. split_and!; auto; lia. }
  intros [] s2 (Hr2 & Hd2 & Hl2 & Hp2 & Hp2' & Hld2). wp_steps.
  apply wp_mono with (Q := fun _ s3 =>
    te_r s3 = set_pos end_ rr /\ te_local s3 = te_local s2 /\
    length_declared (te_tr s3) = ld /\
    length_parsed (te_tr s3) = pos (te_local s2)).
  2: { wp_when; wp_steps; simpl; rewrite Hr2; auto. }
  intros [] s3 (Hr3 & Hl3 & Hld3 & Hlp3). wp_simpl. wp_steps.
  destruct (has_end_of_track (te_tr s3)) eqn:Heot; cbn [negb when].
  - wp_steps. wp_when; wp_steps; simpl; rewrite ?Hl3, ?Hd2, ?Heot;
      split_and!; auto; try lia; try discriminate.
  - wp_steps. wp_when; wp_steps; simpl; rewrite ?Hl3, ?Hd2;
      split_and!; auto; try lia; intros _; eexists; reflexivity.
Qed.

Lemma wpo_bind_getitem {St B} (b : list byte) i (k : Z -> M St B) Q s :
  Q (Raise (IndexError "index out of range")) s ->
  (forall x, wpo (k (byte_val x)) Q s) ->
  wpo (bind (getitem b i) k) Q s.
Proof.
  intros Hr Hk. apply wpo_bind. unfold wpo at 1.
  destruct (getitem_cases b i s) as [(x & _ & ->)|[_ ->]]; simpl; auto.
Qed.

Lemma wpo_read_uint32_be {St} (b : list byte) (Q : outcome Z -> St -> Prop) s :
  Q (Raise (IndexError "index out of range")) s ->
  (forall z, 0 <= z -> Q (Return z) s) ->
  wpo (read_uint32_be b) Q s.
Proof.
  intros Hr Hz. unfold read_uint32_be.
  apply wpo_bind_getitem; [exact Hr|]; intros x0.
  apply wpo_bind_getitem; [exact Hr|]; intros x1.
  apply wpo_bind_getitem; [exact Hr|]; intros x2.
  apply wpo_bind_getitem; [exact Hr|]; intros x3.
  apply Hz.
  pose proof (byte_val_range x0). pose proof (byte_val_range x1).
  pose proof (byte_val_range x2). pose proof (byte_val_range x3).
  repeat (apply Z.lor_nonneg; split); try apply Z.shiftl_nonneg; lia.
Qed.

Lemma parse_track_body_spec tindex pair_notes strict r :
  wpo (parse_track_body tindex pair_notes strict)
      (parse_track_body_post tindex) (TEnv0 r tindex).
Proof.
  unfold parse_track_body. apply wpo_bind. unfold wpo at 1, on_te_r.
  destruct (read_cases 4 (te_r (TEnv0 r tindex))) as [[_ ->]|[_ ->]]; simpl.
  { auto. }
  set (s1 := with_te_r _ _).
  destruct (bytes_eqb _ MAGIC_MTRK); simpl.
  2: { apply wp_wpo with (Q := fun _ s' => parse_track_body_post tindex (Return tt) s').
       - intros [] s' H. exact H.
       - wp_steps. simpl. split; [reflexivity|]. intros _. discriminate. }
  apply wpo_bind. unfold wpo at 1, on_te_r.
  destruct (read_cases 4 (te_r s1)) as [[_ ->]|[_ ->]]; simpl.
  { auto. }
  set (s2 := with_te_r _ _).
  apply wpo_bind. apply wpo_read_uint32_be; [simpl; auto|].
  intros ld Hld. 
  apply wp_wpo with (Q := fun _ s' => parse_track_body_post tindex (Return tt) s').
  { intros [] s' H. exact H. }
  wp_steps. eapply wp_mono; [|apply parse_track_chunk_spec; reflexivity].
  intros [] s' (_ & _ & _ & _ & Hlp & Heot). simpl. split; [exact Hlp|].
  intros H. destruct (Heot H) as [errs ->]. destruct errs; discriminate.
Qed.

Lemma parse_track_run_spec tindex pair_notes strict r :
  exists te, parse_track_run tindex pair_notes strict r = (Return tt, te) /\
    length_parsed (te_tr te) = pos (te_local te) /\
    (has_end_of_track (te_tr te) = false -> tr_errors (te_tr te) <> []) /\
    (forall e te', parse_track_body tindex pair_notes strict (TEnv0 r tindex)
                   = (Raise e, te') ->
       has_end_of_track (te_tr te) = false /\
       tr_errors (te_tr te) = [pista tindex ("error inesperado: " +:+ str_exn e)]).
Proof.
  pose proof (parse_track_body_spec tindex pair_notes strict r) as H.
  unfold wpo in H. unfold parse_track_run, try_except.
  destruct (parse_track_body tindex pair_notes strict (TEnv0 r tindex))
    as [[[]|e|] te'] eqn:E; simpl in H.
  - exists te'. split_and!; try tauto. intros e te'' [=].
  - destruct H as [Htr Hl]. eexists. split; [reflexivity|].
    simpl. rewrite Htr, Hl. simpl. split_and!; try done.
    intros e0 te'' [= <- <-]. done.
  - contradiction.
Qed.

(** ** Track chunks under the cursor *)

Lemma read_cursor pre bs rest :
  read (Z.of_nat (length bs)) (cursor pre (bs ++ rest)) =
  (Return bs, cursor (pre ++ bs) rest).
Proof.
  destruct (read_cases (Z.of_nat (length bs)) (cursor pre (bs ++ rest)))
    as [[Hgt _]|[_ ->]].
  - unfold cursor in Hgt; simpl in Hgt. rewrite !length_app in Hgt. lia.
  - unfold cursor, set_pos, slice; simpl. f_equal.
    + f_equal. rewrite Nat2Z.id, drop_app_length.
      replace (Z.to_nat _) with (length bs) by lia.
      apply take_app_length.
    + rewrite <- app_assoc. f_equal. rewrite length_app. lia.
Qed.

Lemma lor_shiftl_add a b k :
  0 <= a -> 0 <= k -> 0 <= b < 2 ^ k -> Z.lor (Z.shiftl a k) b = a * 2 ^ k + b.
Proof.
  intros Ha Hk Hb. rewrite Z.shiftl_mul_pow2 by lia.
  rewrite <- Z.lxor_lor, <- Z.add_nocarry_lxor; trivial.
  all: apply Z.bits_inj'; intros n Hn; rewrite Z.land_spec, Z.bits_0.
  all: destruct (Z.lt_ge_cases n k) as [Hlt|Hge].
  all: try (rewrite Z.mul_pow2_bits_low by lia; reflexivity).
  all: rewrite <- (Z.mod_small b (2 ^ k)) by lia.
  all: rewrite (Z.mod_pow2_bits_high b k n) by lia; apply andb_false_r.
Qed.

Lemma read_uint32_be_value {St} b0 b1 b2 b3 (s : St) :
  read_uint32_be [b0; b1; b2; b3] s = (Return (be32 b0 b1 b2 b3), s).
Proof.
  unfold read_uint32_be, bind, getitem, ret; simpl. do 2 f_equal.
  pose proof (byte_val_range b0). pose proof (byte_val_range b1).
  pose proof (byte_val_range b2). pose proof (byte_val_range b3).
  unfold be32.
  replace (Z.shiftl (byte_val b0) 24) with (Z.shiftl (Z.shiftl (byte_val b0) 8) 16)
    by (rewrite Z.shiftl_shiftl by lia; reflexivity).
  rewrite <- Z.shiftl_lor.
  rewrite (lor_shiftl_add (byte_val b0) (byte_val b1) 8) by lia.
  replace (Z.shiftl (byte_val b0 * 2 ^ 8 + byte_val b1) 16)
    with (Z.shiftl (Z.shiftl (byte_val b0 * 2 ^ 8 + byte_val b1) 8) 8)
    by (rewrite Z.shiftl_shiftl by lia; reflexivity).
  rewrite <- Z.shiftl_lor.
  rewrite (lor_shiftl_add _ (byte_val b2) 8) by lia.
  rewrite (lor_shiftl_add _ (byte_val b3) 8) by lia.
  reflexivity.
Qed.

Lemma be32_nonneg b0 b1 b2 b3 : 0 <= be32 b0 b1 b2 b3.
Proof.
  unfold be32.
  pose proof (byte_val_range b0). pose proof (byte_val_range b1).
  pose proof (byte_val_range b2). pose proof (byte_val_range b3). lia.
Qed.

Lemma chunk_end_cursor pre body ld :
  0 <= ld ->
  chunk_end (cursor pre body) ld =
  Z.min (Z.of_nat (length pre) + ld) (Z.of_nat (length (pre ++ body))).
Proof.
  intros Hld. unfold chunk_end, cursor; simpl.
  destruct (Z.gtb_spec (Z.of_nat (length pre) + ld) (Z.of_nat (length (pre ++ body)))); lia.
Qed.

Lemma slice_cursor_chunk pre body ld :
  0 <= ld ->
  slice (pre ++ body) (Z.of_nat (length pre)) (chunk_end (cursor pre body) ld)
  = firstn (Z.to_nat ld) body.
Proof.
  intros Hld. rewrite chunk_end_cursor by lia. unfold slice.
  rewrite Nat2Z.id, drop_app_length, length_app.
  destruct (Z.le_gt_cases ld (Z.of_nat (length body))).
  - f_equal. lia.
  - rewrite !firstn_all2 by lia. reflexivity.
Qed.

(** The body of [parse_track] on a chunk with its tag and length. *)
Lemma parse_track_body_chunk pre l0 l1 l2 l3 body tindex pair_notes strict :
  parse_track_body tindex pair_notes strict
    (TEnv0 (cursor pre (MAGIC_MTRK ++ [l0; l1; l2; l3] ++ body)) tindex) =
  parse_track_chunk tindex (be32 l0 l1 l2 l3) pair_notes strict
    (mkTEnv (cursor (pre ++ MAGIC_MTRK ++ [l0; l1; l2; l3]) body)
       (mkTrackReport tindex (be32 l0 l1 l2 l3) 0 false [] [] [] [] TrackStats0)
       (new_Reader []) None ∅).
Proof.
  unfold parse_track_body.
  pose proof (read_cursor pre MAGIC_MTRK ([l0; l1; l2; l3] ++ body)) as E1.
  change (Z.of_nat (length MAGIC_MTRK)) with 4 in E1.
  pose proof (read_cursor (pre ++ MAGIC_MTRK) [l0; l1; l2; l3] body) as E2.
  change (Z.of_nat (length [l0; l1; l2; l3])) with 4 in E2.
  unfold bind at 1. unfold on_te_r at 1. cbn [te_r TEnv0].
  rewrite E1. cbv beta iota zeta.
  change (negb (bytes_eqb MAGIC_MTRK MAGIC_MTRK)) with false. cbv iota.
  unfold bind at 1. unfold on_te_r at 1. cbn [te_r with_te_r TEnv0].
  rewrite E2. cbv beta iota zeta.
  unfold bind at 1. rewrite read_uint32_be_value.
  unfold bind at 1. cbn [set_length_declared modify with_tr with_te_r
    te_r te_tr te_local te_status te_active TEnv0 TrackReport0
    index length_declared length_parsed has_end_of_track tr_errors tr_warnings
    tr_error_locs tr_warning_locs stats].
  rewrite <- !app_assoc. reflexivity.
Qed.

(** C10, as the code has it.  For a chunk whose [MTrk] tag and length field
    are there, [parse_track] returns, however the scan of its events ended,
    with [length_parsed] the number of bytes the scan has consumed of the
    chunk's data (the first [ld] bytes after the length field, or what the
    buffer has of them), and with the outer cursor at the declared end of the
    chunk, or at the end of the buffer when the declared end lies beyond it.
    A chunk whose tag is not [MTrk] leaves the cursor behind the four bytes
    of the tag. *)
Theorem parse_track_leaves_cursor pre l0 l1 l2 l3 body tindex pair_notes strict :
  (let r := cursor pre (MAGIC_MTRK ++ [l0; l1; l2; l3] ++ body) in
   let ld := be32 l0 l1 l2 l3 in
   exists te, parse_track_run tindex pair_notes strict r = (Return tt, te) /\
     length_declared (te_tr te) = ld /\
     data (te_local te) = firstn (Z.to_nat ld) body /\
     length_parsed (te_tr te) = pos (te_local te) /\
     0 <= length_parsed (te_tr te) <= Z.min ld (Z.of_nat (length body)) /\
     data (te_r te) = data r /\ len (te_r te) = len r /\
     pos (te_r te) = Z.min (pos r + 8 + ld) (len r)) /\
  (let r := cursor pre ([l0; l1; l2; l3] ++ body) in
   if bytes_eqb [l0; l1; l2; l3] MAGIC_MTRK then True
   else exists te, parse_track_run tindex pair_notes strict r = (Return tt, te) /\
     tr_errors (te_tr te) = [pista tindex "falta 'MTrk'."] /\
     length_parsed (te_tr te) = 0 /\
     data (te_r te) = data r /\ len (te_r te) = len r /\
     pos (te_r te) = pos r + 4).
Proof.
  split.
  - cbv zeta. unfold parse_track_run, try_except.
    rewrite parse_track_body_chunk.
    pose proof (be32_nonneg l0 l1 l2 l3) as Hld.
    set (ld := be32 l0 l1 l2 l3) in *.
    set (pre' := pre ++ MAGIC_MTRK ++ [l0; l1; l2; l3]).
    match goal with |- context [parse_track_chunk _ _ _ _ ?s0] => set (s := s0) end.
    destruct (wp_inv _ _ _ (parse_track_chunk_spec tindex ld pair_notes strict s eq_refl))
      as ([] & te & E & Hr & Hd & Hp & Hdecl & Hlp & _).
    rewrite E. exists te. split; [reflexivity|].
    subst s. cbn [te_r] in Hr, Hd.
    assert (Hdata : data (te_local te) = firstn (Z.to_nat ld) body).
    { rewrite Hd. unfold cursor at 1 2; cbn [data pos].
      apply slice_cursor_chunk. exact Hld. }
    assert (Hpre : Z.of_nat (length pre') = Z.of_nat (length pre) + 8).
    { unfold pre'. rewrite !length_app. simpl. lia. }
    split_and!; auto.
    + lia.
    + rewrite Hlp. rewrite Hdata, length_firstn in Hp. lia.
    + rewrite Hr. unfold cursor, pre'; simpl. rewrite <- !app_assoc. reflexivity.
    + rewrite Hr. unfold cursor, pre'; simpl. rewrite <- !app_assoc. reflexivity.
    + rewrite Hr. cbn [set_pos pos]. rewrite chunk_end_cursor by exact Hld.
      unfold cursor; cbn [pos len]. unfold pre' in *.
      rewrite <- !app_assoc. cbn [app]. lia.
  - cbv zeta. destruct (bytes_eqb [l0; l1; l2; l3] MAGIC_MTRK) eqn:Htag; [exact I|].
    unfold parse_track_run, try_except, parse_track_body.
    pose proof (read_cursor pre [l0; l1; l2; l3] body) as E1.
    change (Z.of_nat (length [l0; l1; l2; l3])) with 4 in E1.
    unfold bind at 1. unfold on_te_r at 1. cbn [te_r TEnv0].
    rewrite E1. cbv beta iota zeta. rewrite Htag. cbn [negb].
    eexists. split; [reflexivity|].
    unfold cursor; simpl. split_and!; auto.
    + rewrite <- app_assoc. reflexivity.
    + rewrite !length_app. simpl. lia.
    + rewrite length_app. simpl. lia.
Qed.

Lemma parse_track_cursor_counterexample :
  (exists te,
     parse_track_run 0 false false
       (new_Reader (MAGIC_MTRK ++ [x00; x00; x00; x0a] ++ [x00; xff; x2f]))
     = (Return tt, te) /\
     length_declared (te_tr te) = 10 /\
     pos (te_r te) = 11 /\
     pos (te_r te) <> 0 + 8 + length_declared (te_tr te)) /\
  (exists te,
     parse_track_run 0 false false
       (new_Reader ([x4d; x54; x72; x78] ++ [x00; x00; x00; x04] ++ [x00; xff; x2f; x00]))
     = (Return tt, te) /\
     length_declared (te_tr te) = 0 /\
     pos (te_r te) = 4).
Proof.
  split; eexists; (split; [vm_compute; reflexivity|]); simpl; repeat split; lia.
Qed.


(** ** [parse_header] *)

Ltac frame_solve :=
  unfold header_frame in *; simpl in *; rewrite ?length_app; simpl;
  intuition (try congruence; try lia).

Lemma wpo_bind_on_r_read {B} n (k : list byte -> M FEnv B) Q s :
  Q (Raise (EOFError "Unexpected EOF")) (with_r (fun _ => fe_r s) s) ->
  wpo (k (slice (data (fe_r s)) (pos (fe_r s)) (pos (fe_r s) + n)))
      Q (with_r (fun _ => set_pos (pos (fe_r s) + n) (fe_r s)) s) ->
  wpo (bind (on_r (read n)) k) Q s.
Proof.
  intros Hr Hk. apply wpo_bind. unfold wpo at 1, on_r.
  destruct (read_cases n (fe_r s)) as [[_ ->]|[_ ->]]; simpl; auto.
Qed.

Lemma wpo_read_uint16_be {St} (b : list byte) (Q : outcome Z -> St -> Prop) s :
  Q (Raise (IndexError "index out of range")) s ->
  (forall z, Q (Return z) s) ->
  wpo (read_uint16_be b) Q s.
Proof.
  intros Hr Hz. unfold read_uint16_be.
  apply wpo_bind_getitem; [exact Hr|]; intros x0.
  apply wpo_bind_getitem; [exact Hr|]; intros x1.
  apply Hz.
Qed.

Lemma validate_division_frame s0 div s :
  header_frame s0 s ->
  wp (validate_division div) (fun _ s' => header_frame s0 s') s.
Proof.
  intros Hs. unfold validate_division.
  destruct (negb (Z.land div 32768 =? 0)).
  - wp_step. wp_when; wp_steps; (wp_when; wp_steps; frame_solve).
  - wp_when; wp_steps; frame_solve.
Qed.

Lemma parse_header_spec s :
  wp parse_header (parse_header_post s) s.
Proof.
  unfold parse_header. apply wp_try_except.
  set (Q := fun (o : outcome (option MIDIHeader)) s' =>
         match o with
         | Return a => parse_header_post s a s'
         | Raise e => header_frame s s'
         | OutOfFuel => False
         end).
  apply wpo_mono with (Q := Q).
  { intros [a|e|] s' H; simpl in *; auto.
    wp_steps. split; [frame_solve|]. intros _. frame_solve. }
  assert (Hwp : forall A (m : M FEnv A) (P : A -> FEnv -> Prop) (Q' : outcome A -> FEnv -> Prop) s1,
            (forall a s', P a s' -> Q' (Return a) s') -> wp m P s1 -> wpo m Q' s1).
  { intros. eapply wp_wpo; eauto. }
  apply wpo_bind_on_r_read; [subst Q; frame_solve|].
  set (s1 := with_r _ s). assert (Hs1 : header_frame s s1) by (subst s1; frame_solve).
  clearbody s1.
  destruct (negb (bytes_eqb _ MAGIC_MTHD)).
  { apply wp_wpo with (Q := parse_header_post s); [auto|].
    wp_steps. split; [frame_solve|]. intros _. frame_solve. }
  apply wpo_bind_on_r_read; [subst Q; frame_solve|].
  set (s2 := with_r _ s1). assert (Hs2 : header_frame s s2) by (subst s2; frame_solve).
  clearbody s2.
  apply wpo_bind. apply wpo_read_uint32_be; [exact Hs2|].
  intros hlen Hhlen. cbv beta iota.
  destruct (hlen <? 6).
  { apply wp_wpo with (Q := parse_header_post s); [auto|].
    wp_steps. split; [frame_solve|]. intros _. frame_solve. }
  apply wpo_bind_on_r_read; [subst Q; frame_solve|].
  set (s3 := with_r _ s2). assert (Hs3 : header_frame s s3) by (subst s3; frame_solve).
  clearbody s3.
  set (hb := slice _ _ _). clearbody hb.
  apply wpo_bind. apply wpo_read_uint16_be; [exact Hs3|]. intros fmt. cbv beta iota.
  apply wpo_bind. apply wpo_read_uint16_be; [exact Hs3|]. intros ntr. cbv beta iota.
  apply wpo_bind. apply wpo_read_uint16_be; [exact Hs3|]. intros div. cbv beta iota.
  apply wpo_bind.
  apply wpo_mono with (Q := fun o s' =>
    header_frame s s' /\ o <> OutOfFuel).
  { intros [[]|e|] s4 [Hs4 Hne]; [|exact Hs4|congruence].
    apply wp_wpo with (Q := parse_header_post s); [auto|].
    apply wp_bind.
    apply wp_mono with (Q := fun _ s' => header_frame s s').
    2: { wp_when; wp_steps; frame_solve. }
    intros [] s5 Hs5. wp_simpl. apply wp_bind.
    apply wp_mono with (Q := fun _ s' => header_frame s s').
    2: { wp_when; wp_steps; frame_solve. }
    intros [] s6 Hs6. wp_simpl. apply wp_bind.
    eapply wp_mono; [|apply (validate_division_frame s), Hs6].
    intros [] s7 Hs7. wp_simpl. wp_steps. split; [exact Hs7|discriminate]. }
  unfold when. destruct (hlen >? 6).
  - apply wpo_bind_on_r_read; [split; [frame_solve|discriminate]|].
    apply wp_wpo with (Q := fun _ s' => header_frame s s').
    { intros [] s' H. split; [exact H|discriminate]. }
    wp_steps. frame_solve.
  - unfold wpo, ret; simpl. split; [exact Hs3|discriminate].
Qed.

(** ** [validate_midi_file] *)

Lemma total_err_zero rep : total_err rep = 0 <-> no_errors rep.
Proof.
  unfold total_err, no_errors.
  assert (Hsum : forall ts,
    0 <= fold_right Z.add 0 (map (fun t => Z.of_nat (length (tr_errors t))) ts) /\
    (fold_right Z.add 0 (map (fun t => Z.of_nat (length (tr_errors t))) ts) = 0 <->
     Forall (fun t => tr_errors t = []) ts)).
  { induction ts as [|t ts [IHnn IH]]; simpl.
    - split; [lia|]. split; auto.
    - split; [lia|]. split.
      + intros H. constructor.
        * destruct (tr_errors t); [reflexivity|simpl in H; lia].
        * apply IH. lia.
      + intros H. inversion H as [|? ? Ht Hts]; subst.
        rewrite Ht. apply IH in Hts. simpl. lia. }
  destruct (Hsum (tracks rep)) as [Hnn Hiff].
  split.
  - intros H. split.
    + destruct (rep_errors rep); [reflexivity|simpl in H; lia].
    + apply Hiff. lia.
  - intros [He Ht]. rewrite He. apply Hiff in Ht. simpl. lia.
Qed.

Lemma wp_parse_track t pair_notes strict (Q : TrackReport -> FEnv -> Prop) s :
  (forall tr r', Q tr (with_r (fun _ => r') s)) ->
  wp (parse_track t pair_notes strict) Q s.
Proof.
  intros HQ. unfold wp, wpo, parse_track.
  destruct (parse_track_run_spec t pair_notes strict (fe_r s)) as (te & -> & _).
  simpl. apply HQ.
Qed.

(** The loop over the tracks ends, and leaves alone what is not the tracks. *)
Lemma tracks_loop_spec h pair_notes strict s :
  fe_t s = 0 ->
  wp (while_loop (Z.to_nat (num_tracks h)) (tracks_cond (num_tracks h))
        (let! t := gets fe_t in
         let! tr := parse_track t pair_notes strict in
         modify (with_rep (tracks_append tr)) ;;;
         modify (with_t (fun t => t + 1)) ;;;
         ret Next))
     (fun _ s' => header (fe_rep s') = header (fe_rep s) /\
                  path (fe_rep s') = path (fe_rep s) /\
                  rep_errors (fe_rep s') = rep_errors (fe_rep s)) s.
Proof.
  intros Ht.
  apply (wp_while
    (fun s' => header (fe_rep s') = header (fe_rep s) /\
               path (fe_rep s') = path (fe_rep s) /\
               rep_errors (fe_rep s') = rep_errors (fe_rep s))
    (fun s' => Z.to_nat (num_tracks h - fe_t s'))).
  - intros s1 _ Hc. unfold tracks_cond in Hc.
    apply andb_true_iff in Hc. destruct Hc as [_ Hc]. apply Z.ltb_lt in Hc. lia.
  - intros s1 Hs1 Hc. unfold tracks_cond in Hc.
    apply andb_true_iff in Hc. destruct Hc as [_ Hc]. apply Z.ltb_lt in Hc.
    wp_steps. apply wp_parse_track. intros tr r'. wp_steps.
    simpl. split; [exact Hs1|]. intros _. lia.
  - auto.
  - rewrite Ht. lia.
Qed.

(** What [validate_midi_file] returns. *)
Lemma validate_midi_file_spec p f pair_notes strict :
  exists rep, validate_midi_file p f pair_notes strict = Return rep /\
    path rep = p /\
    (ok rep = true <-> no_errors rep) /\
    (header rep = None -> tracks rep = [] /\ rep_errors rep <> []) /\
    (forall e, f = FileFails e ->
       header rep = None /\ rep_errors rep = ["Error: " +:+ str_exn e]).
Proof.
  unfold validate_midi_file.
  destruct f as [d|e].
  2: { eexists. split; [reflexivity|]. simpl. unfold no_errors. simpl.
       split_and!; auto; try done.
       - split; [discriminate|]. intros [H _]. discriminate H.
       - intros e0 [= ->]. auto. }
  set (s0 := mkFEnv (new_Reader []) (FileReport0 p) 0).
  assert (H : wp (validate_body (FileBytes d) pair_notes strict)
                (fun _ s => path (fe_rep s) = p /\
                   (ok (fe_rep s) = true <-> no_errors (fe_rep s)) /\
                   (header (fe_rep s) = None ->
                    tracks (fe_rep s) = [] /\ rep_errors (fe_rep s) <> [])) s0).
  { unfold validate_body, open_read. wp_steps.
    eapply wp_mono; [|apply parse_header_spec].
    intros [h|] s1 [Hf Herr].
    - wp_simpl. wp_steps.
      eapply wp_mono; [|apply tracks_loop_spec; reflexivity].
      intros [] s2 (Hh & Hp & He). wp_simpl. wp_steps. simpl in *.
      unfold header_frame in Hf. simpl in Hf.
      split_and!.
      + intuition congruence.
      + rewrite Z.eqb_eq. exact (total_err_zero (fe_rep s2)).
      + rewrite Hh. discriminate.
    - wp_simpl. wp_steps. specialize (Herr eq_refl).
      unfold header_frame in Hf. simpl in Hf, Herr.
      destruct Hf as (_ & Hp & Hok & Hh & Htr & _).
      split_and!; auto.
      + unfold no_errors. rewrite Hok. split; [discriminate|].
        intros [He _]. rewrite He in Herr. simpl in Herr. lia.
      + intros _. split; [exact Htr|]. intros He. rewrite He in Herr. simpl in Herr. lia. }
  unfold try_except.
  destruct (wp_inv _ _ _ H) as ([] & s & E & Hp & Hok & Hh). rewrite E.
  exists (fe_rep s). split_and!; auto. intros e [=].
Qed.

Lemma bytes_eqb_true a : forall b, bytes_eqb a b = true -> a = b.
Proof.
  induction a as [|x a IH]; intros [|y b] H; simpl in H; try discriminate; auto.
  apply andb_true_iff in H. destruct H as [Hx Hab].
  apply Byte.byte_dec_bl in Hx. apply IH in Hab. congruence.
Qed.

(** [parse_header] on a buffer that does not start with [MThd]. *)
Lemma parse_header_no_tag s :
  pos (fe_r s) = 0 -> firstn 4 (data (fe_r s)) <> MAGIC_MTHD ->
  wp parse_header
     (fun o s' => o = None /\ header_frame s s' /\
        length (rep_errors (fe_rep s')) = S (length (rep_errors (fe_rep s)))) s.
Proof.
  intros Hpos Htag. unfold parse_header. apply wp_try_except.
  apply wpo_bind_on_r_read.
  { wp_steps. split_and!; auto; frame_solve. }
  rewrite Hpos. unfold slice. simpl Z.to_nat. rewrite drop_0.
  change (Z.to_nat (0 + 4 - 0)) with 4%nat.
  destruct (bytes_eqb (take 4 (data (fe_r s))) MAGIC_MTHD) eqn:E.
  { apply bytes_eqb_true in E. contradiction. }
  cbn [negb].
  apply wp_wpo with (Q := fun o s' => o = None /\ header_frame s s' /\
        length (rep_errors (fe_rep s')) = S (length (rep_errors (fe_rep s)))).
  { intros a s' H. exact H. }
  wp_steps. split_and!; auto; frame_solve.
Qed.

(** C1.  The report [validate_midi_file] returns has [ok] true exactly when
    the number of file-level errors plus the number of errors of every track
    report is zero, that is when there is no error anywhere; warnings have no
    part in it. *)
Theorem ok_iff_no_errors p f pair_notes strict :
  exists rep, validate_midi_file p f pair_notes strict = Return rep /\
    (ok rep = true <->
     (length (rep_errors rep)
      + list_sum (map (fun t => length (tr_errors t)) (tracks rep)) = 0)%nat) /\
    (ok rep = true <-> no_errors rep).
Proof.
  destruct (validate_midi_file_spec p f pair_notes strict) as (rep & E & _ & Hok & _).
  exists rep. split; [exact E|]. split; [|exact Hok].
  rewrite Hok. unfold no_errors.
  assert (Hsum : forall ts,
    list_sum (map (fun t => length (tr_errors t)) ts) = 0%nat <->
    Forall (fun t => tr_errors t = []) ts).
  { induction ts as [|t ts IH]; simpl.
    - split; auto.
    - split.
      + intros H. constructor.
        * destruct (tr_errors t); [reflexivity|simpl in H; lia].
        * apply IH. lia.
      + intros H. inversion H as [|? ? Ht Hts]; subst.
        rewrite Ht. apply IH in Hts. simpl. lia. }
  split.
  - intros [He Ht]. rewrite He. apply Hsum in Ht. simpl. lia.
  - intros H. split.
    + destruct (rep_errors rep); [reflexivity|simpl in H; lia].
    + apply Hsum. lia.
Qed.

(** C3.  For a buffer whose first four bytes are not [MThd] (a buffer of
    fewer than four bytes included) the report has no header, no track
    report, exactly one file-level error and [ok] false; and whatever the
    file, a report without a header has no track report. *)
Theorem no_MThd_report p d pair_notes strict :
  firstn 4 d <> MAGIC_MTHD ->
  (exists rep, validate_midi_file p (FileBytes d) pair_notes strict = Return rep /\
     header rep = None /\ tracks rep = [] /\
     length (rep_errors rep) = 1%nat /\ ok rep = false) /\
  (forall f, exists rep, validate_midi_file p f pair_notes strict = Return rep /\
     (header rep = None -> tracks rep = [])).
Proof.
  intros Htag. split.
  - unfold validate_midi_file.
    set (s0 := mkFEnv (new_Reader []) (FileReport0 p) 0).
    assert (H : wp (validate_body (FileBytes d) pair_notes strict)
                  (fun _ s => header (fe_rep s) = None /\ tracks (fe_rep s) = [] /\
                     length (rep_errors (fe_rep s)) = 1%nat /\ ok (fe_rep s) = false) s0).
    { unfold validate_body, open_read. wp_steps.
      eapply wp_mono; [|apply parse_header_no_tag; [reflexivity|exact Htag]].
      intros o s1 (-> & Hf & Hlen). wp_steps.
      unfold header_frame in Hf. simpl in Hf, Hlen. tauto. }
    unfold try_except.
    destruct (wp_inv _ _ _ H) as ([] & s & E & Hres). rewrite E.
    exists (fe_rep s). auto.
  - intros f. destruct (validate_midi_file_spec p f pair_notes strict)
      as (rep & E & _ & _ & Hh & _).
    exists rep. split; [exact E|]. intros H. apply Hh, H.
Qed.

Lemma no_MThd_report_witness :
  firstn 4 [x52; x49; x46; x46; x00] <> MAGIC_MTHD /\
  exists rep, validate_midi_file "a.mid" (FileBytes [x52; x49; x46; x46; x00]) false false
              = Return rep /\
    header rep = None /\ tracks rep = [] /\
    length (rep_errors rep) = 1%nat /\ ok rep = false.
Proof.
  assert (H : firstn 4 [x52; x49; x46; x46; x00] <> MAGIC_MTHD) by discriminate.
  split; [exact H|].
  exact (proj1 (no_MThd_report "a.mid" [x52; x49; x46; x46; x00] false false H)).
Defined.

(** C4.  The smallest valid file: a header of format 0 with one track and a
    PPQN division of 96, and one track holding the End-of-Track event
    [FF 2F 00] at delta-time 0 and nothing else.  Its report has [ok] true, no
    error, no warning, End-of-Track seen and as many bytes parsed as
    declared. *)
Theorem minimal_file_report p pair_notes strict :
  let d := MAGIC_MTHD ++ [x00; x00; x00; x06; x00; x00; x00; x01; x00; x60]
           ++ MAGIC_MTRK ++ [x00; x00; x00; x04] ++ [x00; xff; x2f; x00] in
  exists rep tr, validate_midi_file p (FileBytes d) pair_notes strict = Return rep /\
    header rep = Some (mkMIDIHeader 0 1 96) /\
    ok rep = true /\ rep_errors rep = [] /\ rep_warnings rep = [] /\
    tracks rep = [tr] /\
    tr_errors tr = [] /\ tr_warnings tr = [] /\
    has_end_of_track tr = true /\
    length_parsed tr = length_declared tr /\ length_declared tr = 4.
Proof.
  destruct pair_notes, strict; cbv zeta; eexists; eexists;
    (split; [vm_compute; reflexivity|]); simpl; repeat split.
Qed.

(** ** Events under the cursor *)

Lemma remaining_cursor pre bs : remaining (cursor pre bs) = Z.of_nat (length bs).
Proof. unfold remaining, cursor; simpl. rewrite length_app. lia. Qed.

Lemma wp_local_read_vlq_cursor pre cs b rest report (Q : option Z -> TEnv -> Prop) s :
  te_local s = cursor pre (cs ++ b :: rest) ->
  Forall (fun c => continues c = true) cs -> (length cs <= 3)%nat ->
  continues b = false ->
  Q (Some (vlq_value (cs ++ [b])))
    (with_local (fun _ => cursor (pre ++ cs ++ [b]) rest) s) ->
  wp (local_read_vlq_or report) Q s.
Proof.
  intros Hl Hcs Hlen Hb HQ.
  unfold wp, wpo, local_read_vlq_or, try_except, bind, on_local.
  rewrite Hl, read_vlq_cursor_value by assumption. exact HQ.
Qed.

Lemma wp_local_read_cursor pre bs rest (Q : list byte -> TEnv -> Prop) s :
  te_local s = cursor pre (bs ++ rest) ->
  Q bs (with_local (fun _ => cursor (pre ++ bs) rest) s) ->
  wp (on_local (read (Z.of_nat (length bs)))) Q s.
Proof.
  intros Hl HQ. unfold wp, wpo, on_local. rewrite Hl, read_cursor. exact HQ.
Qed.

Lemma wp_local_read_byte_cursor pre b rest (Q : Z -> TEnv -> Prop) s :
  te_local s = cursor pre (b :: rest) ->
  Q (byte_val b) (with_local (fun _ => cursor (pre ++ [b]) rest) s) ->
  wp local_read_byte Q s.
Proof.
  intros Hl HQ. unfold local_read_byte. apply wp_bind.
  apply (wp_local_read_cursor pre [b] rest); [exact Hl|].
  unfold wp, wpo, getitem; simpl. exact HQ.
Qed.

Lemma check_data_range_frame vals tindex ctx off s :
  wp (_check_data_range vals tindex ctx off)
     (fun _ s' => same_but_diagnostics s s') s.
Proof.
  induction vals as [|v vals IH]; simpl.
  - wp_steps. unfold same_but_diagnostics. tauto.
  - destruct (byte_val v >? 127); [|exact IH].
    wp_steps. unfold same_but_diagnostics. simpl. tauto.
Qed.

Lemma note_on_status status :
  0x90 <= status <= 0x9F ->
  Z.land status 0xF0 = 0x90 /\ Z.land status 0x0F = status - 0x90.
Proof.
  intros Hs.
  assert (H0 : Z.land status 0x0F = status - 0x90).
  { change 0x0F with (Z.ones 4). rewrite Z.land_ones by lia.
    change (2 ^ 4) with 16.
    symmetry. apply (Z.mod_unique status 16 9 (status - 0x90)); lia. }
  split; [|exact H0].
  assert (Hsplit : status = Z.lor (Z.land status 0xF0) (Z.land status 0x0F)).
  { rewrite <- Z.land_lor_distr_r. change (Z.lor 0xF0 0x0F) with (Z.ones 8).
    rewrite Z.land_ones by lia. change (2 ^ 8) with 256.
    rewrite Z.mod_small by lia. reflexivity. }
  assert (Hdisj : Z.land (Z.land status 0xF0) (Z.land status 0x0F) = 0).
  { rewrite Z.land_assoc, <- (Z.land_assoc status 0xF0 status).
    rewrite (Z.land_comm 0xF0 status), Z.land_assoc, Z.land_diag.
    rewrite <- Z.land_assoc. change (Z.land 0xF0 0x0F) with 0.
    apply Z.land_0_r. }
  rewrite <- Z.lxor_lor, <- Z.add_nocarry_lxor in Hsplit by exact Hdisj.
  lia.
Qed.

(** A Note-On of velocity 0 under the cursor, once its status is known. *)
Lemma dispatch_note_on_zero tindex start status pair_notes strict pre pitch rest s :
  0x90 <= status <= 0x9F ->
  te_local s = cursor pre (pitch :: x00 :: rest) ->
  wp (dispatch tindex start status pair_notes strict)
     (fun c s' =>
        c = Next /\
        te_local s' = cursor (pre ++ [pitch; x00]) rest /\
        te_status s' = te_status s /\
        note_off (stats (te_tr s')) = note_off (stats (te_tr s)) + 1 /\
        note_on (stats (te_tr s')) = note_on (stats (te_tr s)) /\
        released pair_notes (status - 0x90, byte_val pitch)
          (te_active s) (te_active s')) s.
Proof.
  intros Hst Hl. unfold dispatch.
  destruct (Z.leb_spec 0x80 status); [|lia].
  destruct (Z.leb_spec status 0xEF); [|lia]. cbn [andb].
  unfold channel_voice.
  destruct (note_on_status status Hst) as [-> ->].
  change ((0x90 =? 0xC0) || (0x90 =? 0xD0)) with false. cbv iota.
  change (0x90 =? 0x80) with false. change (0x90 =? 0x90) with true.
  change (2 =? 2) with true. cbv iota.
  wp_steps. rewrite Hl, remaining_cursor.
  destruct (Z.ltb_spec (Z.of_nat (length (pitch :: x00 :: rest))) 2) as [Hlt|_].
  { simpl in Hlt. lia. }
  wp_step. apply (wp_local_read_cursor pre [pitch; x00] rest); [exact Hl|].
  wp_steps.
  eapply wp_mono; [|apply check_data_range_frame].
  intros [] s2 (Hr2 & Hl2 & Hs2 & Ha2 & Hst2 & _). simpl in Hl2, Hs2, Ha2, Hst2.
  wp_simpl. wp_step. wp_step.
  unfold wp at 1, wpo, getitem; cbn [nth_error fst snd ret normally].
  change (byte_val x00 =? 0) with true. cbv iota.
  wp_steps. destruct pair_notes; cbn [when].
  - wp_step. unfold wp at 1, wpo, getitem; cbn [nth_error fst snd ret normally].
    wp_steps. simpl. rewrite Hl2, Hs2, Ha2, Hst2. simpl. split_and!; auto.
  - wp_steps. simpl. rewrite Hl2, Hs2, Ha2, Hst2. simpl. split_and!; auto.
Qed.

Lemma status_byte_high b : 0x80 <= b < 0x100 -> (Z.land b 0x80 =? 0) = false.
Proof.
  intros Hb. change (Z.land b 0x80) with (Z.land b (2 ^ 7)).
  rewrite land_pow2_zero by lia.
  rewrite (testbit_top b 7) by (change (2 ^ (7 + 1)) with 256; lia).
  change (2 ^ 7) with 128.
  destruct (Z.leb_spec 128 b); [reflexivity|lia].
Qed.

Lemma released_clamped pair_notes key active active' :
  released pair_notes key active active' -> pair_notes = true ->
  active' !! key = Some (Z.max 0 (default 0 (active !! key) - 1)) /\
  0 <= default 0 (active' !! key) /\
  (forall k, k <> key -> active' !! k = active !! k).
Proof.
  intros H ->. simpl in H. subst active'.
  rewrite lookup_insert_eq. simpl. split_and!; [reflexivity|lia|].
  intros k Hk. apply lookup_insert_ne. congruence.
Qed.

(** C7.  One turn of the scan loop on a Note-On of velocity 0 (a delta-time,
    a status byte from 0x90 to 0x9F, a pitch and the velocity byte 0; or,
    under a running status from 0x90 to 0x9F, a delta-time, a pitch and the
    velocity byte 0): the note-off counter goes up by one and the note-on
    counter stays; with [pair_notes] the count of the key (channel, pitch) in
    [active] becomes one less, and zero instead of a negative number; without
    [pair_notes] the dictionary stays as it is. *)
Theorem note_on_velocity_zero tindex start pair_notes strict pre dcs db pitch rest s :
  Forall (fun c => continues c = true) dcs -> (length dcs <= 3)%nat ->
  continues db = false ->
  (forall sb, 0x90 <= byte_val sb <= 0x9F ->
     te_local s = cursor pre (dcs ++ db :: sb :: pitch :: x00 :: rest) ->
     exists s', scan_event tindex start pair_notes strict s = (Return Next, s') /\
       te_status s' = Some (byte_val sb) /\
       note_off (stats (te_tr s')) = note_off (stats (te_tr s)) + 1 /\
       note_on (stats (te_tr s')) = note_on (stats (te_tr s)) /\
       released pair_notes (byte_val sb - 0x90, byte_val pitch)
         (te_active s) (te_active s') /\
       (pair_notes = true ->
        0 <= default 0 (te_active s' !! (byte_val sb - 0x90, byte_val pitch)))) /\
  (forall st, te_status s = Some st -> 0x90 <= st <= 0x9F ->
     continues pitch = false ->
     te_local s = cursor pre (dcs ++ db :: pitch :: x00 :: rest) ->
     exists s', scan_event tindex start pair_notes strict s = (Return Next, s') /\
       te_status s' = Some st /\
       note_off (stats (te_tr s')) = note_off (stats (te_tr s)) + 1 /\
       note_on (stats (te_tr s')) = note_on (stats (te_tr s)) /\
       released pair_notes (st - 0x90, byte_val pitch)
         (te_active s) (te_active s') /\
       (pair_notes = true ->
        0 <= default 0 (te_active s' !! (st - 0x90, byte_val pitch)))).
Proof.
  intros Hdcs Hlen Hdb. split.
  - intros sb Hsb Hl.
    assert (H : wp (scan_event tindex start pair_notes strict)
      (fun c s' => c = Next /\ te_status s' = Some (byte_val sb) /\
         note_off (stats (te_tr s')) = note_off (stats (te_tr s)) + 1 /\
         note_on (stats (te_tr s')) = note_on (stats (te_tr s)) /\
         released pair_notes (byte_val sb - 0x90, byte_val pitch)
           (te_active s) (te_active s')) s).
    { unfold scan_event. wp_steps.
      apply (wp_local_read_vlq_cursor pre dcs db (sb :: pitch :: x00 :: rest));
        try assumption.
      wp_steps. cbn [te_local with_local]. rewrite remaining_cursor.
      destruct (Z.leb_spec (Z.of_nat (length (sb :: pitch :: x00 :: rest))) 0) as [Hle|_].
      { simpl in Hle. lia. }
      wp_step.
      apply (wp_local_read_byte_cursor (pre ++ dcs ++ [db]) sb (pitch :: x00 :: rest));
        [reflexivity|].
      wp_simpl. rewrite status_byte_high by (pose proof (byte_val_range sb); lia).
      cbn [negb]. wp_steps. cbn [te_status with_status].
      eapply wp_mono;
        [|apply (dispatch_note_on_zero tindex start (byte_val sb) pair_notes strict
                   ((pre ++ dcs ++ [db]) ++ [sb]) pitch rest); [exact Hsb|reflexivity]].
      intros c s' (Hc & _ & Hst & Hoff & Hon & Hrel). simpl in Hst, Hoff, Hon, Hrel.
      auto. }
    destruct (wp_inv _ _ _ H) as (c & s' & E & -> & Hst & Hoff & Hon & Hrel).
    exists s'. split_and!; auto.
    intros Hp. apply (released_clamped _ _ _ _ Hrel Hp).
  - intros st Hstatus Hst Hpitch Hl.
    assert (H : wp (scan_event tindex start pair_notes strict)
      (fun c s' => c = Next /\ te_status s' = Some st /\
         note_off (stats (te_tr s')) = note_off (stats (te_tr s)) + 1 /\
         note_on (stats (te_tr s')) = note_on (stats (te_tr s)) /\
         released pair_notes (st - 0x90, byte_val pitch)
           (te_active s) (te_active s')) s).
    { unfold scan_event. wp_steps.
      apply (wp_local_read_vlq_cursor pre dcs db (pitch :: x00 :: rest));
        try assumption.
      wp_steps. cbn [te_local with_local]. rewrite remaining_cursor.
      destruct (Z.leb_spec (Z.of_nat (length (pitch :: x00 :: rest))) 0) as [Hle|_].
      { simpl in Hle. lia. }
      wp_step.
      apply (wp_local_read_byte_cursor (pre ++ dcs ++ [db]) pitch (x00 :: rest));
        [reflexivity|].
      wp_simpl. unfold continues in Hpitch. apply negb_false_iff in Hpitch.
      rewrite Hpitch. cbn [negb]. wp_steps. cbn [te_status with_local].
      rewrite Hstatus. wp_steps. cbn [te_status with_local]. rewrite Hstatus.
      eapply wp_mono;
        [|apply (dispatch_note_on_zero tindex start st pair_notes strict
                   (pre ++ dcs ++ [db]) pitch rest); [exact Hst|]].
      - intros c s' (Hc & _ & Hst' & Hoff & Hon & Hrel).
        simpl in Hst', Hoff, Hon, Hrel. rewrite Hstatus in Hst'. auto.
      - cbn [te_local with_local]. unfold cursor, set_pos; cbn [data pos len].
        rewrite <- !app_assoc. cbn [app]. f_equal.
        rewrite !length_app. simpl. lia. }
    destruct (wp_inv _ _ _ H) as (c & s' & E & -> & Hst' & Hoff & Hon & Hrel).
    exists s'. split_and!; auto.
    intros Hp. apply (released_clamped _ _ _ _ Hrel Hp).
Qed.

Lemma note_on_velocity_zero_witness :
  let s := mkTEnv (new_Reader []) (TrackReport0 0)
             (cursor [] ([] ++ x00 :: x91 :: x3c :: x00 :: [])) None ∅ in
  Forall (fun c => continues c = true) [] /\ (length (@nil byte) <= 3)%nat /\
  continues x00 = false /\ 0x90 <= byte_val x91 <= 0x9F /\
  exists s', scan_event 0 8 true false s = (Return Next, s') /\
    note_off (stats (te_tr s')) = 1 /\
    note_on (stats (te_tr s')) = 0 /\
    te_active s' !! (1, 60) = Some 0.
Proof.
  cbv zeta.
  assert (H1 : Forall (fun c => continues c = true) (@nil byte)) by constructor.
  assert (H2 : (length (@nil byte) <= 3)%nat) by (simpl; lia).
  assert (H3 : continues x00 = false) by reflexivity.
  assert (H4 : 0x90 <= byte_val x91 <= 0x9F) by (vm_compute; split; discriminate).
  split; [exact H1|]. split; [exact H2|]. split; [exact H3|]. split; [exact H4|].
  destruct (note_on_velocity_zero 0 8 true false [] [] x00 x3c []
              (mkTEnv (new_Reader []) (TrackReport0 0)
                 (cursor [] ([] ++ x00 :: x91 :: x3c :: x00 :: [])) None ∅)
              H1 H2 H3) as [Hexp _].
  destruct (Hexp x91 H4 eq_refl) as (s' & E & _ & Hoff & Hon & Hrel & _).
  exists s'. split_and!; auto.
  simpl in Hrel. rewrite Hrel. rewrite lookup_insert_eq. reflexivity.
Defined.

(** ** Set-Tempo events *)

Lemma be24_lor b0 b1 b2 :
  Z.lor (Z.lor (Z.shiftl (byte_val b0) 16) (Z.shiftl (byte_val b1) 8)) (byte_val b2)
  = be24 b0 b1 b2.
Proof.
  pose proof (byte_val_range b0). pose proof (byte_val_range b1).
  pose proof (byte_val_range b2). unfold be24.
  replace (Z.shiftl (byte_val b0) 16) with (Z.shiftl (Z.shiftl (byte_val b0) 8) 8)
    by (rewrite Z.shiftl_shiftl by lia; reflexivity).
  rewrite <- Z.shiftl_lor.
  rewrite (lor_shiftl_add (byte_val b0) (byte_val b1) 8) by lia.
  rewrite (lor_shiftl_add _ (byte_val b2) 8) by lia.
  reflexivity.
Qed.

(** A Set-Tempo meta event of length 3 under the cursor, once the status
    0xFF is known. *)
Lemma meta_event_tempo tindex start strict pre lcs lb m0 m1 m2 rest s :
  Forall (fun c => continues c = true) lcs -> (length lcs <= 3)%nat ->
  continues lb = false -> vlq_value (lcs ++ [lb]) = 3 ->
  te_local s = cursor pre (x51 :: lcs ++ lb :: m0 :: m1 :: m2 :: rest) ->
  wp (meta_event tindex start strict)
     (fun c s' =>
        c = Next /\
        tr_errors (te_tr s') = tr_errors (te_tr s) /\
        tr_warnings (te_tr s') =
          tr_warnings (te_tr s) ++
          (if strict && negb ((10000 <=? be24 m0 m1 m2) && (be24 m0 m1 m2 <=? 2000000))
           then [pista tindex ("Tempo inusual " +:+ dec (be24 m0 m1 m2) +:+ " us/qn.")]
           else []) /\
        tempo_events (stats (te_tr s')) = tempo_events (stats (te_tr s)) + 1 /\
        tempo_values (stats (te_tr s')) =
          tempo_values (stats (te_tr s)) ++ [be24 m0 m1 m2]) s.
Proof.
  intros Hlcs Hlen Hlb Hln Hl. unfold meta_event.
  wp_steps. rewrite Hl, remaining_cursor.
  destruct (Z.ltb_spec (Z.of_nat (length (x51 :: lcs ++ lb :: m0 :: m1 :: m2 :: rest))) 2)
    as [Hlt|_].
  { simpl in Hlt. rewrite length_app in Hlt. simpl in Hlt. lia. }
  wp_step.
  apply (wp_local_read_byte_cursor pre x51 (lcs ++ lb :: m0 :: m1 :: m2 :: rest));
    [exact Hl|].
  wp_simpl. wp_step.
  apply (wp_local_read_vlq_cursor (pre ++ [x51]) lcs lb (m0 :: m1 :: m2 :: rest));
    try assumption; [reflexivity|].
  rewrite Hln. wp_steps. cbn [te_local with_local]. rewrite remaining_cursor.
  destruct (Z.ltb_spec (Z.of_nat (length (m0 :: m1 :: m2 :: rest))) 3) as [Hlt|_].
  { simpl in Hlt. lia. }
  wp_step.
  apply (wp_local_read_cursor ((pre ++ [x51]) ++ lcs ++ [lb]) [m0; m1; m2] rest);
    [reflexivity|].
  wp_steps. unfold meta_dispatch.
  change (byte_val x51 =? 0x2F) with false. change (byte_val x51 =? 0x51) with true.
  change (negb (3 =? 3)) with false. cbv iota.
  wp_step. wp_step.
  unfold wp at 1, wpo, getitem; cbn [nth_error fst snd ret normally]. wp_step.
  unfold wp at 1, wpo, getitem; cbn [nth_error fst snd ret normally]. wp_step.
  unfold wp at 1, wpo, getitem; cbn [nth_error fst snd ret normally].
  rewrite be24_lor. wp_steps.
  destruct (strict && negb ((10000 <=? be24 m0 m1 m2) && (be24 m0 m1 m2 <=? 2000000)));
    cbn [when]; wp_steps; simpl; rewrite ?app_nil_r; auto.
Qed.

(** A Set-Tempo meta event whose declared length is not 3. *)
Lemma meta_event_tempo_len tindex start strict pre lcs lb rest s :
  Forall (fun c => continues c = true) lcs -> (length lcs <= 3)%nat ->
  continues lb = false -> vlq_value (lcs ++ [lb]) <> 3 ->
  te_local s = cursor pre (x51 :: lcs ++ lb :: rest) ->
  wp (meta_event tindex start strict)
     (fun c s' =>
        tr_errors (te_tr s') =
          tr_errors (te_tr s) ++
          [if Z.of_nat (length rest) <? vlq_value (lcs ++ [lb])
           then pista tindex ("meta datos truncados " +:+ hex 0x51 +:+ ".")
           else pista tindex ("Tempo len " +:+ dec (vlq_value (lcs ++ [lb])) +:+ " (3).")] /\
        tr_warnings (te_tr s') = tr_warnings (te_tr s) /\
        tempo_events (stats (te_tr s')) = tempo_events (stats (te_tr s)) /\
        tempo_values (stats (te_tr s')) = tempo_values (stats (te_tr s))) s.
Proof.
  intros Hlcs Hlen Hlb Hln Hl. unfold meta_event.
  wp_steps. rewrite Hl, remaining_cursor.
  destruct (Z.ltb_spec (Z.of_nat (length (x51 :: lcs ++ lb :: rest))) 2) as [Hlt|_].
  { simpl in Hlt. rewrite length_app in Hlt. simpl in Hlt. lia. }
  wp_step.
  apply (wp_local_read_byte_cursor pre x51 (lcs ++ lb :: rest)); [exact Hl|].
  wp_simpl. wp_step.
  apply (wp_local_read_vlq_cursor (pre ++ [x51]) lcs lb rest);
    try assumption; [reflexivity|].
  set (ln := vlq_value (lcs ++ [lb])) in *.
  wp_steps. cbn [te_local with_local]. rewrite remaining_cursor.
  destruct (Z.ltb_spec (Z.of_nat (length rest)) ln) as [Hlt|Hge].
  { wp_steps. simpl. auto. }
  wp_step. apply wp_local_read.
  { cbn [te_local with_local]. unfold cursor; cbn [pos len].
    rewrite (length_app _ rest). lia. }
  wp_steps. unfold meta_dispatch.
  change (byte_val x51 =? 0x2F) with false. change (byte_val x51 =? 0x51) with true.
  cbv iota.
  destruct (Z.eqb_spec ln 3) as [|_]; [contradiction|]. cbn [negb].
  wp_steps. simpl. auto.
Qed.

(** One turn of the scan loop that reads a delta-time and the status byte
    0xFF goes on as [meta_event] does after them. *)
Lemma scan_event_meta tindex start pair_notes strict pre dcs db rest
    (Q : ctl -> TEnv -> Prop) s :
  Forall (fun c => continues c = true) dcs -> (length dcs <= 3)%nat ->
  continues db = false ->
  te_local s = cursor pre (dcs ++ db :: xff :: rest) ->
  wp (meta_event tindex start strict) Q
     (with_status (fun _ => Some 0xFF)
        (with_local (fun _ => cursor (pre ++ dcs ++ [db; xff]) rest) s)) ->
  wp (scan_event tindex start pair_notes strict) Q s.
Proof.
  intros Hdcs Hlen Hdb Hl HQ. unfold scan_event. wp_steps.
  apply (wp_local_read_vlq_cursor pre dcs db (xff :: rest)); try assumption.
  wp_steps. cbn [te_local with_local]. rewrite remaining_cursor.
  destruct (Z.leb_spec (Z.of_nat (length (xff :: rest))) 0) as [Hle|_].
  { simpl in Hle. lia. }
  wp_step.
  apply (wp_local_read_byte_cursor (pre ++ dcs ++ [db]) xff rest); [reflexivity|].
  wp_simpl. change (negb (Z.land (byte_val xff) 128 =? 0)) with true. cbv iota.
  wp_steps. cbn [te_status with_status]. unfold dispatch.
  change ((128 <=? byte_val xff) && (byte_val xff <=? 239)) with false.
  change (byte_val xff =? 255) with true. cbv iota.
  change (byte_val xff) with 0xFF.
  replace ((pre ++ dcs ++ [db]) ++ [xff]) with (pre ++ dcs ++ [db; xff])
    by (rewrite <- !app_assoc; reflexivity).
  exact HQ.
Qed.

(** C8.  One turn of the scan loop on a Set-Tempo meta event (a delta-time,
    FF 51, a length and the data).  A declared length other than 3 adds
    exactly one error, whatever [strict] is: the one of the truncated data
    when the chunk has fewer bytes left than declared, the one of the tempo
    length otherwise; it adds no warning and records no tempo.  With the
    length 3 no error is added, the 24-bit value of the three bytes is
    recorded, and a warning is added exactly when [strict] is set and the
    value is outside 10000..2000000. *)
Theorem set_tempo_event tindex start pair_notes strict pre dcs db lcs lb rest s :
  Forall (fun c => continues c = true) dcs -> (length dcs <= 3)%nat ->
  continues db = false ->
  Forall (fun c => continues c = true) lcs -> (length lcs <= 3)%nat ->
  continues lb = false ->
  te_local s = cursor pre (dcs ++ db :: xff :: x51 :: lcs ++ lb :: rest) ->
  (vlq_value (lcs ++ [lb]) <> 3 ->
   exists c s', scan_event tindex start pair_notes strict s = (Return c, s') /\
     tr_errors (te_tr s') =
       tr_errors (te_tr s) ++
       [if Z.of_nat (length rest) <? vlq_value (lcs ++ [lb])
        then pista tindex ("meta datos truncados " +:+ hex 0x51 +:+ ".")
        else pista tindex ("Tempo len " +:+ dec (vlq_value (lcs ++ [lb])) +:+ " (3).")] /\
     tr_warnings (te_tr s') = tr_warnings (te_tr s) /\
     tempo_values (stats (te_tr s')) = tempo_values (stats (te_tr s))) /\
  (vlq_value (lcs ++ [lb]) = 3 ->
   forall m0 m1 m2 rest', rest = m0 :: m1 :: m2 :: rest' ->
   exists s', scan_event tindex start pair_notes strict s = (Return Next, s') /\
     tr_errors (te_tr s') = tr_errors (te_tr s) /\
     tr_warnings (te_tr s') =
       tr_warnings (te_tr s) ++
       (if strict && negb ((10000 <=? be24 m0 m1 m2) && (be24 m0 m1 m2 <=? 2000000))
        then [pista tindex ("Tempo inusual " +:+ dec (be24 m0 m1 m2) +:+ " us/qn.")]
        else []) /\
     tempo_values (stats (te_tr s')) =
       tempo_values (stats (te_tr s)) ++ [be24 m0 m1 m2]).
Proof.
  intros Hdcs Hdlen Hdb Hlcs Hllen Hlb Hl. split.
  - intros Hln.
    pose proof (scan_event_meta tindex start pair_notes strict pre dcs db
                  (x51 :: lcs ++ lb :: rest)) as Hscan.
    eapply Hscan in Hl; try assumption.
    2: { apply (meta_event_tempo_len tindex start strict (pre ++ dcs ++ [db; xff])
                  lcs lb rest); try assumption. reflexivity. }
    destruct (wp_inv _ _ _ Hl) as (c & s' & E & He & Hw & _ & Hv).
    exists c, s'. simpl in He, Hw, Hv. auto.
  - intros Hln m0 m1 m2 rest' ->.
    pose proof (scan_event_meta tindex start pair_notes strict pre dcs db
                  (x51 :: lcs ++ lb :: m0 :: m1 :: m2 :: rest')) as Hscan.
    eapply Hscan in Hl; try assumption.
    2: { apply (meta_event_tempo tindex start strict (pre ++ dcs ++ [db; xff])
                  lcs lb m0 m1 m2 rest'); try assumption. reflexivity. }
    destruct (wp_inv _ _ _ Hl) as (c & s' & E & -> & He & Hw & _ & Hv).
    exists s'. simpl in He, Hw, Hv. auto.
Qed.

Lemma set_tempo_event_witness :
  let s5 := mkTEnv (new_Reader []) (TrackReport0 0)
              (cursor [] ([] ++ x00 :: xff :: x51 :: [] ++ x03 :: [x4c; x4b; x40]))
              None ∅ in
  let s05 := mkTEnv (new_Reader []) (TrackReport0 0)
               (cursor [] ([] ++ x00 :: xff :: x51 :: [] ++ x03 :: [x07; xa1; x20]))
               None ∅ in
  (Forall (fun c => continues c = true) [] /\ (length (@nil byte) <= 3)%nat /\
   continues x00 = false /\ continues x03 = false /\
   vlq_value ([] ++ [x03]) = 3) /\
  (exists s', scan_event 0 22 false true s5 = (Return Next, s') /\
     tr_errors (te_tr s') = [] /\
     tr_warnings (te_tr s') = ["Pista 0: Tempo inusual 5000000 us/qn."] /\
     tempo_values (stats (te_tr s')) = [5000000]) /\
  (exists s', scan_event 0 22 false true s05 = (Return Next, s') /\
     tr_errors (te_tr s') = [] /\
     tr_warnings (te_tr s') = [] /\
     tempo_values (stats (te_tr s')) = [500000]).
Proof.
  cbv zeta.
  assert (H1 : Forall (fun c => continues c = true) (@nil byte)) by constructor.
  assert (H2 : (length (@nil byte) <= 3)%nat) by (simpl; lia).
  assert (H3 : continues x00 = false) by reflexivity.
  assert (H4 : continues x03 = false) by reflexivity.
  assert (H5 : vlq_value ([] ++ [x03]) = 3) by reflexivity.
  split; [auto|]. split.
  - destruct (set_tempo_event 0 22 false true [] [] x00 [] x03 [x4c; x4b; x40]
                (mkTEnv (new_Reader []) (TrackReport0 0)
                   (cursor [] ([] ++ x00 :: xff :: x51 :: [] ++ x03 :: [x4c; x4b; x40]))
                   None ∅) H1 H2 H3 H1 H2 H4 eq_refl) as [_ H].
    exact (H H5 x4c x4b x40 [] eq_refl).
  - destruct (set_tempo_event 0 22 false true [] [] x00 [] x03 [x07; xa1; x20]
                (mkTEnv (new_Reader []) (TrackReport0 0)
                   (cursor [] ([] ++ x00 :: xff :: x51 :: [] ++ x03 :: [x07; xa1; x20]))
                   None ∅) H1 H2 H3 H1 H2 H4 eq_refl) as [_ H].
    exact (H H5 x07 xa1 x20 [] eq_refl).
Defined.

Lemma be32_lor b0 b1 b2 b3 :
  Z.lor (Z.lor (Z.lor (Z.shiftl (byte_val b0) 24) (Z.shiftl (byte_val b1) 16))
           (Z.shiftl (byte_val b2) 8)) (byte_val b3)
  = be32 b0 b1 b2 b3.
Proof.
  pose proof (read_uint32_be_value b0 b1 b2 b3 tt) as H.
  unfold read_uint32_be, bind, getitem, ret in H; simpl in H.
  congruence.
Qed.

Section Keeps.
Context {St : Type} (P : St -> Prop).

Lemma keeps_ret {A} (a : A) : keeps P (ret a).
Proof. intros s Hs. exact Hs. Qed.

Lemma keeps_raise {A} e : keeps P (@raise St A e).
Proof. intros s Hs. exact Hs. Qed.

Lemma keeps_gets {A} (f : St -> A) : keeps P (gets f).
Proof. intros s Hs. exact Hs. Qed.

Lemma keeps_modify (f : St -> St) : (forall s, P s -> P (f s)) -> keeps P (modify f).
Proof. intros Hf s Hs. apply Hf, Hs. Qed.

Lemma keeps_bind {A B} (m : M St A) (k : A -> M St B) :
  keeps P m -> (forall a, keeps P (k a)) -> keeps P (bind m k).
Proof.
  intros Hm Hk s Hs. specialize (Hm s Hs). unfold bind.
  destruct (m s) as [[a|e|] s']; simpl in *; auto. apply Hk, Hm.
Qed.

Lemma keeps_bind_getitem {B} (b : list byte) i (k : Z -> M St B) :
  (forall x, keeps P (k (byte_val x))) -> keeps P (bind (getitem b i) k).
Proof.
  intros Hk s Hs. unfold bind.
  destruct (getitem_cases b i s) as [(x & _ & ->)|[_ ->]]; simpl; auto.
  apply Hk, Hs.
Qed.

Lemma keeps_getitem (b : list byte) i : keeps P (getitem b i).
Proof.
  intros s Hs. destruct (getitem_cases b i s) as [(x & _ & ->)|[_ ->]]; exact Hs.
Qed.

Lemma keeps_when (c : bool) (m : M St unit) : keeps P m -> keeps P (when c m).
Proof. intros Hm. destruct c; [exact Hm|apply keeps_ret]. Qed.

Lemma keeps_try_except {A} (m : M St A) (h : exn -> M St A) :
  keeps P m -> (forall e, keeps P (h e)) -> keeps P (try_except m h).
Proof.
  intros Hm Hh s Hs. specialize (Hm s Hs). unfold try_except.
  destruct (m s) as [[a|e|] s']; simpl in *; auto. apply Hh, Hm.
Qed.

Lemma keeps_while fuel cond (body : M St ctl) :
  keeps P body -> keeps P (while_loop fuel cond body).
Proof.
  intros Hb. induction fuel as [|fuel IH]; intros s Hs; simpl.
  - destruct (cond s); exact Hs.
  - destruct (cond s); [|exact Hs].
    specialize (Hb s Hs). destruct (body s) as [[[|]|e|] s']; simpl in *; auto.
Qed.
End Keeps.

Section ReportSteps.
Variable tr0 : TrackReport.

Lemma keeps_on_local {A} (m : M Reader A) : keeps (report_from tr0) (on_local m).
Proof. intros s Hs. unfold on_local. destruct (m (te_local s)). exact Hs. Qed.

Lemma keeps_on_te_r {A} (m : M Reader A) : keeps (report_from tr0) (on_te_r m).
Proof. intros s Hs. unfold on_te_r. destruct (m (te_r s)). exact Hs. Qed.

Lemma keeps_err msg off : keeps (report_from tr0) (_err msg off).
Proof. intros s Hs. eapply rtc_r; [exact Hs|apply step_err]. Qed.

Lemma keeps_warn msg off : keeps (report_from tr0) (_warn msg off).
Proof. intros s Hs. eapply rtc_r; [exact Hs|apply step_warn]. Qed.

Lemma keeps_stat f : counter_step f -> keeps (report_from tr0) (stat f).
Proof. intros Hf s Hs. eapply rtc_r; [exact Hs|apply step_stat, Hf]. Qed.

Lemma keeps_active f : keeps (report_from tr0) (modify (with_active f)).
Proof. intros s Hs. exact Hs. Qed.

Lemma keeps_check_data_range vals tindex ctx off :
  keeps (report_from tr0) (_check_data_range vals tindex ctx off).
Proof.
  induction vals as [|v vals IH]; simpl.
  - apply keeps_ret.
  - destruct (byte_val v >? 127); [apply keeps_err|exact IH].
Qed.

Ltac keeps_step :=
  lazymatch goal with
  | |- keeps _ (bind (getitem _ _) _) => apply keeps_bind_getitem; intros ?
  | |- keeps _ (bind _ _) => apply keeps_bind; [|intros ?]
  | |- keeps _ (ret _) => apply keeps_ret
  | |- keeps _ (raise _) => apply keeps_raise
  | |- keeps _ (gets _) => apply keeps_gets
  | |- keeps _ (getitem _ _) => apply keeps_getitem
  | |- keeps _ (when _ _) => apply keeps_when
  | |- keeps _ (try_except _ _) => apply keeps_try_except; [|intros ?]
  | |- keeps _ (on_local _) => apply keeps_on_local
  | |- keeps _ (on_te_r _) => apply keeps_on_te_r
  | |- keeps _ (_err _ _) => apply keeps_err
  | |- keeps _ (_warn _ _) => apply keeps_warn
  | |- keeps _ (stat _) => apply keeps_stat; constructor
  | |- keeps _ (_check_data_range _ _ _ _) => apply keeps_check_data_range
  | |- keeps _ (active_release _) => apply keeps_active
  | |- keeps _ (active_press _) => apply keeps_active
  | |- keeps _ local_tell => apply keeps_gets
  | |- keeps _ local_remaining => apply keeps_gets
  | |- keeps _ te_r_tell => apply keeps_gets
  | |- keeps _ local_read_byte => unfold local_read_byte
  | |- keeps _ (local_read_vlq_or _) => unfold local_read_vlq_or
  | |- keeps _ (set_has_end_of_track _) =>
      apply keeps_modify; intros ? ?; eapply rtc_r; [eassumption|apply step_end_of_track]
  | |- keeps _ (set_length_parsed _) =>
      apply keeps_modify; intros ? ?; eapply rtc_r; [eassumption|apply step_length_parsed]
  | |- keeps _ (modify (with_status _)) => apply keeps_modify; intros ? H; exact H
  | |- keeps _ (modify (with_local _)) => apply keeps_modify; intros ? H; exact H
  | |- keeps _ (modify (with_te_r _)) => apply keeps_modify; intros ? H; exact H
  | |- keeps _ (if ?c then _ else _) => destruct c
  | |- keeps _ (match ?x with _ => _ end) => destruct x
  end.

Lemma keeps_channel_voice tindex start status pair_notes :
  keeps (report_from tr0) (channel_voice tindex start status pair_notes).
Proof. unfold channel_voice. cbv zeta. repeat keeps_step. Qed.

Lemma keeps_meta_dispatch tindex start strict meta ln md :
  keeps (report_from tr0) (meta_dispatch tindex start strict meta ln md).
Proof.
  unfold meta_dispatch. repeat keeps_step.
  cbv zeta. rewrite be24_lor. repeat keeps_step.
Qed.

Lemma keeps_meta_event tindex start strict :
  keeps (report_from tr0) (meta_event tindex start strict).
Proof. unfold meta_event. repeat keeps_step. apply keeps_meta_dispatch. Qed.

Lemma keeps_sysex_event tindex start :
  keeps (report_from tr0) (sysex_event tindex start).
Proof. unfold sysex_event. repeat keeps_step. Qed.

Lemma keeps_scan_event tindex start pair_notes strict :
  keeps (report_from tr0) (scan_event tindex start pair_notes strict).
Proof.
  unfold scan_event. repeat keeps_step.
  unfold dispatch. repeat keeps_step.
  - apply keeps_channel_voice.
  - apply keeps_meta_event.
  - apply keeps_sysex_event.
Qed.

Lemma keeps_bind_read_uint32_be {B} (b : list byte) (k : Z -> M TEnv B) :
  (forall b0 b1 b2 b3, keeps (report_from tr0) (k (be32 b0 b1 b2 b3))) ->
  keeps (report_from tr0) (bind (read_uint32_be b) k).
Proof.
  intros Hk s Hs. unfold bind, read_uint32_be, bind.
  destruct (getitem_cases b 0 s) as [(x0 & _ & ->)|[_ ->]]; [|exact Hs].
  destruct (getitem_cases b 1 s) as [(x1 & _ & ->)|[_ ->]]; [|exact Hs].
  destruct (getitem_cases b 2 s) as [(x2 & _ & ->)|[_ ->]]; [|exact Hs].
  destruct (getitem_cases b 3 s) as [(x3 & _ & ->)|[_ ->]]; [|exact Hs].
  unfold ret. rewrite be32_lor. apply Hk, Hs.
Qed.

Lemma keeps_parse_track_chunk tindex ld pair_notes strict :
  keeps (report_from tr0) (parse_track_chunk tindex ld pair_notes strict).
Proof.
  unfold parse_track_chunk. repeat keeps_step.
  all: try (apply keeps_modify; intros ? H; exact H).
  all: try (apply keeps_while, keeps_scan_event).
Qed.

Lemma keeps_parse_track_body tindex pair_notes strict :
  keeps (report_from tr0) (parse_track_body tindex pair_notes strict).
Proof.
  unfold parse_track_body. keeps_step; [keeps_step|]. keeps_step; [repeat keeps_step|].
  keeps_step; [keeps_step|]. apply keeps_bind_read_uint32_be. intros b0 b1 b2 b3.
  keeps_step.
  - apply keeps_modify. intros s1 H1. eapply rtc_r; [exact H1|apply step_length_declared].
  - apply keeps_parse_track_chunk.
Qed.
End ReportSteps.

(** The report [parse_track] returns is reached from the empty report of
    its index by the updates of [report_step]. *)
Lemma parse_track_report_steps tindex pair_notes strict r :
  rtc report_step (TrackReport0 tindex)
      (te_tr (snd (parse_track_run tindex pair_notes strict r))).
Proof.
  unfold parse_track_run.
  apply (keeps_try_except (report_from (TrackReport0 tindex))).
  - apply keeps_parse_track_body.
  - intros e. apply keeps_bind; [apply keeps_gets|]. intros p. apply keeps_err.
  - apply rtc_refl.
Qed.

Lemma report_steps_invariant (R : TrackReport -> Prop) tr0 tr :
  (forall t t', report_step t t' -> R t -> R t') ->
  R tr0 -> rtc report_step tr0 tr -> R tr.
Proof.
  intros Hstep H0 Hrtc. induction Hrtc as [|t t' t'' Hs _ IH]; [exact H0|].
  apply IH. apply (Hstep t t' Hs H0).
Qed.

(** ** The tracks of a report *)

Lemma wp_parse_track_run t pair_notes strict (Q : TrackReport -> FEnv -> Prop) s :
  Q (te_tr (snd (parse_track_run t pair_notes strict (fe_r s))))
    (with_r (fun _ => te_r (snd (parse_track_run t pair_notes strict (fe_r s)))) s) ->
  wp (parse_track t pair_notes strict) Q s.
Proof.
  intros HQ. unfold wp, wpo, parse_track.
  destruct (parse_track_run_spec t pair_notes strict (fe_r s)) as (te & E & _).
  rewrite E in *. exact HQ.
Qed.

(** The loop over the tracks: the report of the track of index [i] is what
    [parse_track] returns for [i], and there are no more of them than
    [num_tracks]. *)
Lemma tracks_loop_inv (R : Z -> TrackReport -> Prop) h pair_notes strict s :
  (forall t r, R t (te_tr (snd (parse_track_run t pair_notes strict r)))) ->
  fe_t s = 0 -> tracks (fe_rep s) = [] ->
  wp (while_loop (Z.to_nat (num_tracks h)) (tracks_cond (num_tracks h))
        (let! t := gets fe_t in
         let! tr := parse_track t pair_notes strict in
         modify (with_rep (tracks_append tr)) ;;;
         modify (with_t (fun t => t + 1)) ;;;
         ret Next))
     (fun _ s' =>
        (length (tracks (fe_rep s')) <= Z.to_nat (num_tracks h))%nat /\
        (forall i tr, tracks (fe_rep s') !! i = Some tr -> R (Z.of_nat i) tr) /\
        header (fe_rep s') = header (fe_rep s) /\
        bytes_size (fe_rep s') = bytes_size (fe_rep s) /\
        rep_errors (fe_rep s') = rep_errors (fe_rep s) /\
        rep_warnings (fe_rep s') = rep_warnings (fe_rep s)) s.
Proof.
  intros HR Ht Htr.
  eapply wp_mono; [|apply (wp_while
    (fun s' => fe_t s' = Z.of_nat (length (tracks (fe_rep s'))) /\
               (length (tracks (fe_rep s')) <= Z.to_nat (num_tracks h))%nat /\
               (forall i tr, tracks (fe_rep s') !! i = Some tr -> R (Z.of_nat i) tr) /\
               header (fe_rep s') = header (fe_rep s) /\
               bytes_size (fe_rep s') = bytes_size (fe_rep s) /\
               rep_errors (fe_rep s') = rep_errors (fe_rep s) /\
               rep_warnings (fe_rep s') = rep_warnings (fe_rep s))
    (fun s' => Z.to_nat (num_tracks h - fe_t s')))].
  - intros [] s' (_ & H). exact H.
  - intros s1 _ Hc. unfold tracks_cond in Hc.
    apply andb_true_iff in Hc. destruct Hc as [_ Hc]. apply Z.ltb_lt in Hc. lia.
  - intros s1 (Ht1 & Hlen & HR1 & Hrest) Hc. unfold tracks_cond in Hc.
    apply andb_true_iff in Hc. destruct Hc as [_ Hc]. apply Z.ltb_lt in Hc.
    wp_steps. apply wp_parse_track_run. wp_steps. simpl.
    rewrite length_app. simpl. split_and!; try tauto; try lia.
    intros i tr Hi. apply lookup_app_Some in Hi. destruct Hi as [Hi|[Hge Hi]].
    + apply HR1, Hi.
    + destruct (i - length (tracks (fe_rep s1)))%nat as [|k] eqn:Hk; [|discriminate].
      simpl in Hi. injection Hi as <-.
      replace (Z.of_nat i) with (fe_t s1) by lia. apply HR.
  - rewrite Ht, Htr. simpl. split_and!; auto; try lia. intros i tr Hi. discriminate.
  - rewrite Ht. lia.
Qed.

(** The report of [validate_midi_file] for the bytes [d]: what [R] holds of
    every report of [parse_track] holds of every track of it. *)
Lemma validate_tracks_spec (R : Z -> TrackReport -> Prop) p f pair_notes strict :
  (forall t r, R t (te_tr (snd (parse_track_run t pair_notes strict r)))) ->
  exists rep, validate_midi_file p f pair_notes strict = Return rep /\
    (forall i tr, tracks rep !! i = Some tr -> R (Z.of_nat i) tr) /\
    (forall h, header rep = Some h ->
       (length (tracks rep) <= Z.to_nat (num_tracks h))%nat) /\
    (forall d, f = FileBytes d -> bytes_size rep = Z.of_nat (length d)).
Proof.
  intros HR. unfold validate_midi_file.
  destruct f as [d|e].
  2: { eexists. split; [reflexivity|]. simpl. split_and!; discriminate. }
  set (s0 := mkFEnv (new_Reader []) (FileReport0 p) 0).
  assert (H : wp (validate_body (FileBytes d) pair_notes strict)
                (fun _ s =>
                   (forall i tr, tracks (fe_rep s) !! i = Some tr -> R (Z.of_nat i) tr) /\
                   (forall h, header (fe_rep s) = Some h ->
                      (length (tracks (fe_rep s)) <= Z.to_nat (num_tracks h))%nat) /\
                   bytes_size (fe_rep s) = Z.of_nat (length d)) s0).
  { unfold validate_body, open_read. wp_steps.
    eapply wp_mono; [|apply parse_header_spec].
    intros [h|] s1 [Hf _]; unfold header_frame in Hf; simpl in Hf;
      destruct Hf as (Ht1 & _ & _ & Hh1 & Htr1 & Hb1 & _).
    - wp_simpl. wp_steps.
      eapply wp_mono; [|apply (tracks_loop_inv R h); auto].
      intros [] s2 (Hlen & HR2 & Hh2 & Hb2 & _). wp_simpl. wp_steps. simpl in *.
      split_and!; auto; try congruence.
    - wp_simpl. wp_steps. rewrite Htr1, Hh1. split_and!; auto; discriminate. }
  unfold try_except.
  destruct (wp_inv _ _ _ H) as ([] & s & E & HR' & Hlen & Hb). rewrite E.
  exists (fe_rep s). split_and!; auto. intros d' [= <-]. exact Hb.
Qed.

(** ** Headers without fault *)

Lemma wpo_read_uint16_be_range {St} (b : list byte) (Q : outcome Z -> St -> Prop) s :
  Q (Raise (IndexError "index out of range")) s ->
  (forall z, 0 <= z < 65536 -> Q (Return z) s) ->
  wpo (read_uint16_be b) Q s.
Proof.
  intros Hr Hz. unfold read_uint16_be.
  apply wpo_bind_getitem; [exact Hr|]; intros x0.
  apply wpo_bind_getitem; [exact Hr|]; intros x1.
  pose proof (byte_val_range x0). pose proof (byte_val_range x1).
  unfold wpo, ret; simpl. rewrite (lor_shiftl_add (byte_val x0) (byte_val x1) 8) by lia.
  apply Hz. lia.
Qed.

Lemma validate_division_errors s0 div s :
  0 <= div < 65536 -> header_frame s0 s ->
  wp (validate_division div)
     (fun _ s' => header_frame s0 s' /\
        (length (rep_errors (fe_rep s)) <= length (rep_errors (fe_rep s')))%nat /\
        (length (rep_errors (fe_rep s')) = length (rep_errors (fe_rep s)) ->
         division_ok div)) s.
Proof.
  intros Hd Hs. unfold validate_division, division_ok.
  rewrite division_high_bit by lia.
  destruct (Z.ltb_spec div 32768) as [Hlo|Hhi]; cbn [negb].
  - destruct (Z.leb_spec 32768 div); [lia|].
    destruct (Z.leb_spec div 0); cbn [when]; wp_steps.
    + simpl. rewrite length_app. simpl. split_and!; [frame_solve|lia|lia].
    + split_and!; [exact Hs|lia|]. intros _. lia.
  - destruct (Z.leb_spec 32768 div); [|lia].
    rewrite division_low_byte by lia.
    wp_step. apply wp_mono with (Q := fun _ s1 =>
      header_frame s0 s1 /\ rep_errors (fe_rep s1) = rep_errors (fe_rep s)).
    2: { wp_when; wp_steps; split; try frame_solve; reflexivity. }
    intros [] s1 [Hs1 He1]. wp_simpl.
    destruct (Z.eqb_spec (div mod 256) 0); cbn [when]; wp_steps.
    + simpl. rewrite length_app, He1. simpl. split_and!; [frame_solve|lia|lia].
    + rewrite He1. split_and!; [exact Hs1|lia|]. intros _. assumption.
Qed.

(** What [parse_header] ends in, its header looked at: the fields are
    16-bit numbers, and a header that came with no new error has no
    fault. *)
Lemma parse_header_sane s :
  wp parse_header
     (fun o s' => header_frame s s' /\
        forall h, o = Some h ->
          0 <= format_type h < 65536 /\ 0 <= num_tracks h < 65536 /\
          0 <= division h < 65536 /\
          (length (rep_errors (fe_rep s')) = length (rep_errors (fe_rep s)) ->
           header_ok h)) s.
Proof.
  set (Post := fun (o : option MIDIHeader) s' => header_frame s s' /\
        forall h, o = Some h ->
          0 <= format_type h < 65536 /\ 0 <= num_tracks h < 65536 /\
          0 <= division h < 65536 /\
          (length (rep_errors (fe_rep s')) = length (rep_errors (fe_rep s)) ->
           header_ok h)).
  unfold parse_header. apply wp_try_except.
  set (Q := fun (o : outcome (option MIDIHeader)) s' =>
         match o with
         | Return a => Post a s'
         | Raise e => header_frame s s'
         | OutOfFuel => False
         end).
  apply wpo_mono with (Q := Q).
  { intros [a|e|] s' H; simpl in *; auto.
    wp_steps. split; [frame_solve|]. discriminate. }
  apply wpo_bind_on_r_read; [subst Q; frame_solve|].
  set (s1 := with_r _ s). assert (Hs1 : header_frame s s1) by (subst s1; frame_solve).
  assert (He1 : rep_errors (fe_rep s1) = rep_errors (fe_rep s)) by reflexivity.
  clearbody s1.
  destruct (negb (bytes_eqb _ MAGIC_MTHD)).
  { apply wp_wpo with (Q := Post); [auto|].
    wp_steps. split; [frame_solve|]. discriminate. }
  apply wpo_bind_on_r_read; [subst Q; frame_solve|].
  set (s2 := with_r _ s1). assert (Hs2 : header_frame s s2) by (subst s2; frame_solve).
  assert (He2 : rep_errors (fe_rep s2) = rep_errors (fe_rep s)) by exact He1.
  clearbody s2.
  apply wpo_bind. apply wpo_read_uint32_be; [exact Hs2|].
  intros hlen Hhlen. cbv beta iota.
  destruct (hlen <? 6).
  { apply wp_wpo with (Q := Post); [auto|].
    wp_steps. split; [frame_solve|]. discriminate. }
  apply wpo_bind_on_r_read; [subst Q; frame_solve|].
  set (s3 := with_r _ s2). assert (Hs3 : header_frame s s3) by (subst s3; frame_solve).
  assert (He3 : rep_errors (fe_rep s3) = rep_errors (fe_rep s)) by exact He2.
  clearbody s3.
  set (hb := slice _ _ _). clearbody hb.
  apply wpo_bind. apply wpo_read_uint16_be_range; [exact Hs3|]. intros fmt Hfmt. cbv beta iota.
  apply wpo_bind. apply wpo_read_uint16_be_range; [exact Hs3|]. intros ntr Hntr. cbv beta iota.
  apply wpo_bind. apply wpo_read_uint16_be_range; [exact Hs3|]. intros div Hdiv. cbv beta iota.
  apply wpo_bind.
  apply wpo_mono with (Q := fun o s' =>
    header_frame s s' /\ o <> OutOfFuel /\
    rep_errors (fe_rep s') = rep_errors (fe_rep s)).
  2: { unfold when. destruct (hlen >? 6).
       - apply wpo_bind_on_r_read; [split_and!; [frame_solve|discriminate|exact He3]|].
         apply wp_wpo with (Q := fun _ s' =>
           header_frame s s' /\ rep_errors (fe_rep s') = rep_errors (fe_rep s)).
         { intros [] s' [H1 H2]. split_and!; [exact H1|discriminate|exact H2]. }
         wp_steps. split; [frame_solve|exact He3].
       - unfold wpo, ret; simpl. split_and!; [exact Hs3|discriminate|exact He3]. }
  intros [[]|e|] s4 (Hs4 & Hne & He4); [|exact Hs4|congruence].
  apply wp_wpo with (Q := Post); [auto|].
  apply wp_bind.
  apply wp_mono with (Q := fun _ s' => header_frame s s' /\
    (length (rep_errors (fe_rep s)) <= length (rep_errors (fe_rep s')))%nat /\
    (length (rep_errors (fe_rep s')) = length (rep_errors (fe_rep s)) ->
     0 <= fmt <= 2)).
  2: { destruct ((fmt =? 0) || (fmt =? 1) || (fmt =? 2)) eqn:Ef; cbn [negb when]; wp_steps.
       - split_and!; [exact Hs4|rewrite He4; lia|]. intros _.
         apply orb_true_iff in Ef. destruct Ef as [Ef|Ef];
           [apply orb_true_iff in Ef; destruct Ef as [Ef|Ef]|]; apply Z.eqb_eq in Ef; lia.
       - simpl. rewrite length_app, He4. simpl. split_and!; [frame_solve|lia|lia]. }
  intros [] s5 (Hs5 & Hle5 & Hf5). wp_simpl. apply wp_bind.
  apply wp_mono with (Q := fun _ s' => header_frame s s' /\
    (length (rep_errors (fe_rep s)) <= length (rep_errors (fe_rep s')))%nat /\
    (length (rep_errors (fe_rep s')) = length (rep_errors (fe_rep s)) ->
     0 <= fmt <= 2 /\ ntr <> 0)).
  2: { destruct (Z.eqb_spec ntr 0); cbn [when]; wp_steps.
       - simpl. rewrite length_app. simpl. split_and!; [frame_solve|lia|lia].
       - split_and!; [exact Hs5|exact Hle5|]. intros H. split; [apply Hf5, H|assumption]. }
  intros [] s6 (Hs6 & Hle6 & Hf6). wp_simpl. apply wp_bind.
  eapply wp_mono; [|apply (validate_division_errors s div s6 Hdiv Hs6)].
  intros [] s7 (Hs7 & Hle7 & Hd7). wp_simpl. wp_steps.
  split; [exact Hs7|]. intros h [= <-]. simpl. split_and!; try lia.
  intros Hlen.
  assert (Hlen6 : length (rep_errors (fe_rep s6)) = length (rep_errors (fe_rep s))) by lia.
  assert (Hlen7 : length (rep_errors (fe_rep s7)) = length (rep_errors (fe_rep s6))) by lia.
  destruct (Hf6 Hlen6) as [Hfmt' Hntr']. unfold header_ok; simpl.
  split_and!; try lia. apply Hd7, Hlen7.
Qed.

(** ** Invariants of track reports *)

Lemma be24_range m0 m1 m2 : 0 <= be24 m0 m1 m2 < 2 ^ 24.
Proof.
  unfold be24. pose proof (byte_val_range m0). pose proof (byte_val_range m1).
  pose proof (byte_val_range m2). change (2 ^ 24) with 16777216. lia.
Qed.

Lemma be32_range b0 b1 b2 b3 : 0 <= be32 b0 b1 b2 b3 < 2 ^ 32.
Proof.
  unfold be32. pose proof (byte_val_range b0). pose proof (byte_val_range b1).
  pose proof (byte_val_range b2). pose proof (byte_val_range b3).
  change (2 ^ 32) with 4294967296. lia.
Qed.

Ltac by_report_steps tindex pair_notes strict r :=
  generalize (parse_track_report_steps tindex pair_notes strict r);
  generalize (te_tr (snd (parse_track_run tindex pair_notes strict r)));
  let tr := fresh "tr" in
  let Hrtc := fresh "Hrtc" in
  intros tr Hrtc; pattern tr;
  apply (report_steps_invariant _ (TrackReport0 tindex) tr);
  [ intros t t' Hstep; destruct Hstep as [? ? ?|? ? ?|? f Hf|?|? b0 b1 b2 b3|? ?];
    [ | |destruct Hf| | | ]
  | | exact Hrtc ].

Lemma parse_track_index tindex pair_notes strict r :
  index (te_tr (snd (parse_track_run tindex pair_notes strict r))) = tindex.
Proof.
  by_report_steps tindex pair_notes strict r; simpl; auto.
Qed.

Lemma parse_track_dangling tindex pair_notes strict r :
  dangling_notes (stats (te_tr (snd (parse_track_run tindex pair_notes strict r)))) = 0.
Proof.
  by_report_steps tindex pair_notes strict r; simpl; auto.
Qed.

Lemma parse_track_located tindex pair_notes strict r :
  diagnostics_located (te_tr (snd (parse_track_run tindex pair_notes strict r))).
Proof.
  by_report_steps tindex pair_notes strict r; unfold diagnostics_located; simpl;
    rewrite ?map_app; simpl; intuition congruence.
Qed.

Lemma parse_track_tempos tindex pair_notes strict r :
  tempos_counted (te_tr (snd (parse_track_run tindex pair_notes strict r))).
Proof.
  by_report_steps tindex pair_notes strict r; unfold tempos_counted; simpl; auto.
  intros [Hc Hv]. rewrite length_app, Forall_app. simpl. split; [lia|].
  split; [exact Hv|]. constructor; [apply be24_range|constructor].
Qed.

Lemma parse_track_counters tindex pair_notes strict r :
  counters_nonneg (te_tr (snd (parse_track_run tindex pair_notes strict r))).
Proof.
  by_report_steps tindex pair_notes strict r; unfold counters_nonneg; simpl;
    try (intros H; repeat split; try apply H; try lia; fail).
  - intros H. pose proof (be32_range b0 b1 b2 b3). repeat split; try apply H; lia.
  - change (2 ^ 32) with 4294967296. lia.
Qed.

(** ** Reports as a whole *)

Lemma validate_header_spec p f pair_notes strict :
  exists rep, validate_midi_file p f pair_notes strict = Return rep /\
    forall h, header rep = Some h ->
      0 <= format_type h < 65536 /\ 0 <= num_tracks h < 65536 /\
      0 <= division h < 65536 /\
      (rep_errors rep = [] -> header_ok h).
Proof.
  unfold validate_midi_file.
  destruct f as [d|e].
  2: { eexists. split; [reflexivity|]. simpl. discriminate. }
  set (s0 := mkFEnv (new_Reader []) (FileReport0 p) 0).
  assert (H : wp (validate_body (FileBytes d) pair_notes strict)
                (fun _ s => forall h, header (fe_rep s) = Some h ->
                   0 <= format_type h < 65536 /\ 0 <= num_tracks h < 65536 /\
                   0 <= division h < 65536 /\
                   (rep_errors (fe_rep s) = [] -> header_ok h)) s0).
  { unfold validate_body, open_read. wp_steps.
    eapply wp_mono; [|apply parse_header_sane].
    intros [h|] s1 [Hf Hsane]; unfold header_frame in Hf; simpl in Hf;
      destruct Hf as (_ & _ & _ & Hh1 & _).
    - destruct (Hsane h eq_refl) as (Hfmt & Hntr & Hdiv & Hok). simpl in Hok.
      wp_simpl. wp_steps.
      eapply wp_mono; [|apply tracks_loop_spec; reflexivity].
      intros [] s2 (Hh2 & _ & He2). wp_simpl. wp_steps. simpl in *.
      intros h' Hh'. rewrite Hh2 in Hh'. injection Hh' as <-.
      split_and!; try lia. intros He. apply Hok. rewrite He2 in He. rewrite He. reflexivity.
    - wp_simpl. wp_steps. rewrite Hh1. discriminate. }
  unfold try_except.
  destruct (wp_inv _ _ _ H) as ([] & s & E & Hh). rewrite E.
  exists (fe_rep s). auto.
Qed.

Lemma validate_tracks_forall (P : TrackReport -> Prop) p f pair_notes strict :
  (forall t r, P (te_tr (snd (parse_track_run t pair_notes strict r)))) ->
  exists rep, validate_midi_file p f pair_notes strict = Return rep /\
              Forall P (tracks rep).
Proof.
  intros HP.
  destruct (validate_tracks_spec (fun _ => P) p f pair_notes strict HP)
    as (rep & E & HR & _).
  exists rep. split; [exact E|]. apply Forall_lookup. intros i tr Hi. apply (HR i tr Hi).
Qed.

(** X1.  A report with [ok] true has a header without fault (format 0, 1 or
    2, at least one track declared, a division that [validate_division]
    accepts), and every track of it has seen its End-of-Track and has no
    error. *)
Theorem ok_report_sound p f pair_notes strict :
  exists rep, validate_midi_file p f pair_notes strict = Return rep /\
    (ok rep = true ->
     (exists h, header rep = Some h /\ header_ok h) /\
     Forall (fun t => has_end_of_track t = true /\ tr_errors t = []) (tracks rep)).
Proof.
  destruct (validate_midi_file_spec p f pair_notes strict)
    as (rep & E & _ & Hok & Hnone & _).
  destruct (validate_header_spec p f pair_notes strict) as (rep1 & E1 & Hh).
  destruct (validate_tracks_forall
              (fun tr => has_end_of_track tr = false -> tr_errors tr <> [])
              p f pair_notes strict) as (rep2 & E2 & Ht).
  { intros t r. destruct (parse_track_run_spec t pair_notes strict r)
      as (te & Erun & _ & Heot & _). rewrite Erun. exact Heot. }
  rewrite E in E1, E2. injection E1 as <-. injection E2 as <-.
  exists rep. split; [exact E|]. intros Hik. apply Hok in Hik.
  destruct Hik as [He Hte]. split.
  - destruct (header rep) as [h|] eqn:Hhd.
    + exists h. split; [reflexivity|]. apply (Hh h eq_refl), He.
    + destruct (Hnone eq_refl) as [_ Hne]. contradiction.
  - rewrite Forall_forall in *. intros t Hin. specialize (Ht t Hin). specialize (Hte t Hin).
    split; [|exact Hte]. destruct (has_end_of_track t); [reflexivity|].
    exfalso. apply (Ht eq_refl), Hte.
Qed.

(** X2.  The track reports are numbered in order from 0, without gap, and
    there are no more of them than the header declares tracks. *)
Theorem track_reports_indexed p f pair_notes strict :
  exists rep, validate_midi_file p f pair_notes strict = Return rep /\
    map index (tracks rep) = map Z.of_nat (seq 0 (length (tracks rep))) /\
    (forall h, header rep = Some h ->
       Z.of_nat (length (tracks rep)) <= num_tracks h).
Proof.
  destruct (validate_tracks_spec (fun t tr => index tr = t) p f pair_notes strict)
    as (rep & E & HR & Hlen & _).
  { intros t r. apply parse_track_index. }
  destruct (validate_header_spec p f pair_notes strict) as (rep1 & E1 & Hh).
  rewrite E in E1. injection E1 as <-.
  exists rep. split; [exact E|]. split.
  - apply list_eq. intros i. rewrite !list_lookup_fmap.
    destruct (tracks rep !! i) as [tr|] eqn:Hi; simpl.
    + rewrite (HR i tr Hi). apply lookup_lt_Some in Hi.
      rewrite lookup_seq_lt by exact Hi. reflexivity.
    + apply lookup_ge_None in Hi. rewrite lookup_seq_ge by exact Hi. reflexivity.
  - intros h Hhd. specialize (Hlen h Hhd). destruct (Hh h Hhd) as (_ & Hn & _). lia.
Qed.

(** X3.  In every track report the located diagnostics are the diagnostics:
    [error_locs] carries the messages of [errors] and [warning_locs] those
    of [warnings], one for one and in order. *)
Theorem track_diagnostics_located p f pair_notes strict :
  exists rep, validate_midi_file p f pair_notes strict = Return rep /\
    Forall diagnostics_located (tracks rep).
Proof.
  apply validate_tracks_forall. intros t r. apply parse_track_located.
Qed.

(** X4.  In every track report [tempo_events] is the number of
    [tempo_values], and every tempo value is a 24-bit number. *)
Theorem track_tempos_counted p f pair_notes strict :
  exists rep, validate_midi_file p f pair_notes strict = Return rep /\
    Forall tempos_counted (tracks rep).
Proof.
  apply validate_tracks_forall. intros t r. apply parse_track_tempos.
Qed.

(** X5.  [dangling_notes] is 0 in every track report, whatever the notes of
    the track and with or without [pair_notes]. *)
Theorem dangling_notes_zero p f pair_notes strict :
  exists rep, validate_midi_file p f pair_notes strict = Return rep /\
    Forall (fun t => dangling_notes (stats t) = 0) (tracks rep).
Proof.
  apply (validate_tracks_forall (fun t => dangling_notes (stats t) = 0)).
  intros t r. apply parse_track_dangling.
Qed.

(** X6.  No counter of a track report is negative, and the declared length
    of a track is a 32-bit number. *)
Theorem track_counters_nonneg p f pair_notes strict :
  exists rep, validate_midi_file p f pair_notes strict = Return rep /\
    Forall counters_nonneg (tracks rep).
Proof.
  apply validate_tracks_forall. intros t r. apply parse_track_counters.
Qed.

(** ** The cursor and the fixed-width decoders *)

(** X7.  On a well-formed cursor [read(n)] gives exactly the next [n] bytes
    and moves the cursor by [n], which stays well-formed, when [n] bytes are
    left; with fewer bytes left it raises [EOFError] and moves nothing.  It
    never gives fewer bytes than asked for. *)
Theorem read_exact r n :
  wf_reader r -> 0 <= n ->
  (pos r + n <= len r ->
   exists bs, read n r = (Return bs, set_pos (pos r + n) r) /\
     length bs = Z.to_nat n /\
     bs = firstn (Z.to_nat n) (skipn (Z.to_nat (pos r)) (data r)) /\
     wf_reader (set_pos (pos r + n) r)) /\
  (len r < pos r + n -> read n r = (Raise (EOFError "Unexpected EOF"), r)).
Proof.
  intros [Hlen Hpos] Hn. split.
  - intros Hle. destruct (read_cases n r) as [[Hgt _]|[_ E]]; [lia|].
    eexists. split; [exact E|]. split_and!.
    + rewrite slice_length; [f_equal; lia|lia|lia|lia].
    + unfold slice. f_equal. lia.
    + unfold wf_reader, set_pos; simpl. lia.
  - intros Hlt. destruct (read_cases n r) as [[_ E]|[Hle _]]; [exact E|lia].
Qed.

Lemma read_exact_witness :
  wf_reader (new_Reader [x4d; x54; x68; x64; x00]) /\ 0 <= 4 /\
  read 4 (new_Reader [x4d; x54; x68; x64; x00]) =
  (Return MAGIC_MTHD, set_pos 4 (new_Reader [x4d; x54; x68; x64; x00])).
Proof.
  pose proof (wf_new_Reader [x4d; x54; x68; x64; x00]) as Hwf.
  split; [exact Hwf|]. split; [lia|].
  destruct (read_exact (new_Reader [x4d; x54; x68; x64; x00]) 4 Hwf ltac:(lia))
    as [Hok _].
  destruct (Hok ltac:(simpl; lia)) as (bs & E & _ & Hbs & _).
  rewrite E. rewrite Hbs. reflexivity.
Defined.

(** X8.  [peek(n)] never moves the cursor and never fails: on a well-formed
    cursor it gives the next [n] bytes, or all that are left when fewer
    are; when [read(n)] succeeds it gives the same bytes. *)
Theorem peek_read r n :
  wf_reader r -> 0 <= n ->
  length (peek n r) = Z.to_nat (Z.min n (remaining r)) /\
  peek n r = firstn (Z.to_nat n) (skipn (Z.to_nat (pos r)) (data r)) /\
  (forall bs r', read n r = (Return bs, r') -> peek n r = bs).
Proof.
  intros [Hlen Hpos] Hn.
  assert (Hpk : peek n r = firstn (Z.to_nat n) (skipn (Z.to_nat (pos r)) (data r))).
  { unfold peek, slice.
    destruct (Z.le_gt_cases (pos r + n) (len r)) as [Hle|Hgt].
    - rewrite Z.min_l by lia. f_equal. lia.
    - rewrite Z.min_r by lia.
      rewrite !firstn_all2; [reflexivity| |]; rewrite length_skipn; lia. }
  split_and!.
  - rewrite Hpk, length_firstn, length_skipn. unfold remaining. lia.
  - exact Hpk.
  - intros bs r' E. destruct (read_cases n r) as [[_ E']|[_ E']];
      rewrite E' in E; [discriminate|].
    injection E as <- _. rewrite Hpk. unfold slice. f_equal. lia.
Qed.

Lemma peek_read_witness :
  wf_reader (new_Reader [x4d; x54]) /\ 0 <= 4 /\
  length (peek 4 (new_Reader [x4d; x54])) = 2%nat.
Proof.
  pose proof (wf_new_Reader [x4d; x54]) as Hwf.
  split; [exact Hwf|]. split; [lia|].
  destruct (peek_read (new_Reader [x4d; x54]) 4 Hwf ltac:(lia)) as [Hl _].
  rewrite Hl. reflexivity.
Defined.

(** X9.  [read_uint16_be] and [read_uint32_be] give the number the first two,
    or four, bytes stand for, most significant byte first, whatever follows
    them: a 16-bit, or 32-bit, number.  With fewer bytes they raise
    [IndexError]. *)
Theorem fixed_width_decoders (St : Type) (s : St) b0 b1 b2 b3 rest :
  (read_uint16_be (b0 :: b1 :: rest) s = (Return (be16 b0 b1), s) /\
   0 <= be16 b0 b1 < 2 ^ 16) /\
  (read_uint32_be (b0 :: b1 :: b2 :: b3 :: rest) s = (Return (be32 b0 b1 b2 b3), s) /\
   0 <= be32 b0 b1 b2 b3 < 2 ^ 32) /\
  (forall b, (length b < 2)%nat ->
     read_uint16_be b s = (Raise (IndexError "index out of range"), s)) /\
  (forall b, (length b < 4)%nat ->
     read_uint32_be b s = (Raise (IndexError "index out of range"), s)).
Proof.
  pose proof (byte_val_range b0). pose proof (byte_val_range b1).
  split_and!.
  - unfold read_uint16_be, bind, getitem, ret; simpl.
    rewrite (lor_shiftl_add (byte_val b0) (byte_val b1) 8) by lia. reflexivity.
  - unfold be16. lia.
  - unfold be16. change (2 ^ 16) with 65536. lia.
  - unfold read_uint32_be, bind, getitem, ret; simpl. rewrite be32_lor. reflexivity.
  - apply be32_range.
  - apply be32_range.
  - intros [|x0 [|x1 b]] Hb; simpl in Hb; try lia; reflexivity.
  - intros [|x0 [|x1 [|x2 [|x3 b]]]] Hb; simpl in Hb; try lia; reflexivity.
Qed.

(** ** More on the VLQ decoder *)

Lemma read_vlq_loop_bound n : forall val r v r' (k : nat),
  0 <= val < 128 ^ Z.of_nat k ->
  read_vlq_loop n val r = (Return v, r') ->
  0 <= v < 128 ^ Z.of_nat (k + n).
Proof.
  induction n as [|n IH]; intros val r v r' k Hval H; simpl in H.
  - discriminate.
  - unfold bind at 1 in H.
    destruct (read_cases 1 r) as [[_ E]|[_ E]]; rewrite E in H; clear E; [discriminate|].
    unfold bind at 1 in H.
    destruct (getitem_cases (slice (data r) (pos r) (pos r + 1)) 0 (set_pos (pos r + 1) r))
      as [(x & _ & E)|[_ E]]; rewrite E in H; clear E; [|discriminate].
    pose proof (byte_val_range x) as Hx.
    pose proof (Z.mod_pos_bound (byte_val x) 128 ltac:(lia)) as Hm.
    assert (Hacc : 0 <= Z.lor (Z.shiftl val 7) (Z.land (byte_val x) 127)
                   < 128 ^ Z.of_nat (S k)).
    { change 127 with 0x7F. rewrite vlq_step_arith by lia.
      rewrite Nat2Z.inj_succ, Z.pow_succ_r by lia. lia. }
    destruct (Z.land (byte_val x) 128 =? 0).
    + injection H as <- _.
      replace (Z.of_nat (k + S n)) with (Z.of_nat (S k) + Z.of_nat n) by lia.
      rewrite Z.pow_add_r by lia.
      assert (1 <= 128 ^ Z.of_nat n) by (apply Z.pow_le_mono_r with (b := 0) (c := Z.of_nat n); lia).
      nia.
    + replace (k + S n)%nat with (S k + n)%nat by lia.
      apply (IH _ _ _ _ (S k) Hacc H).
Qed.

(** X10.  A number [read_vlq] returns is below 2^28, and the cursor has
    moved by at least one and at most four bytes. *)
Theorem read_vlq_range r v r' :
  read_vlq r = (Return v, r') ->
  0 <= v < 2 ^ 28 /\ pos r < pos r' <= pos r + 4.
Proof.
  intros H. split.
  - apply (read_vlq_loop_bound 4 0 r v r' 0%nat) in H; [exact H|simpl; lia].
  - apply read_vlq_loop_frame in H.
    destruct H as (_ & _ & Hp & _ & _ & Hr).
    destruct (Hr v eq_refl) as [Hlt _]. change (Z.of_nat 4) with 4 in Hp. lia.
Qed.

Lemma read_vlq_range_witness :
  read_vlq (new_Reader [xff; xff; xff; x7f; x00]) =
    (Return 268435455, set_pos 4 (new_Reader [xff; xff; xff; x7f; x00])) /\
  0 <= 268435455 < 2 ^ 28.
Proof.
  assert (E : read_vlq (new_Reader [xff; xff; xff; x7f; x00]) =
              (Return 268435455, set_pos 4 (new_Reader [xff; xff; xff; x7f; x00])))
    by reflexivity.
  split; [exact E|]. exact (proj1 (read_vlq_range _ _ _ E)).
Defined.

(** X11.  A VLQ cut off by the end of the buffer, one, two or three
    continuation bytes and then nothing (or nothing at all), makes [read_vlq]
    raise [EOFError]; the cursor stays behind the bytes it has read. *)
Theorem read_vlq_truncated pre cs :
  Forall (fun c => continues c = true) cs -> (length cs < 4)%nat ->
  read_vlq (cursor pre cs) =
  (Raise (EOFError "Unexpected EOF"), cursor (pre ++ cs) []).
Proof.
  intros Hcs Hlen. unfold read_vlq.
  replace 4%nat with (length cs + S (3 - length cs))%nat by lia.
  replace (cursor pre cs) with (cursor pre (cs ++ [])) by (rewrite app_nil_r; reflexivity).
  rewrite read_vlq_loop_continues by (trivial; lia).
  simpl. unfold bind at 1.
  destruct (read_cases 1 (cursor (pre ++ cs) [])) as [[_ ->]|[Hle _]]; [reflexivity|].
  unfold cursor in Hle; simpl in Hle. rewrite app_nil_r in Hle. lia.
Qed.

Lemma read_vlq_truncated_witness :
  Forall (fun c => continues c = true) [x81; x80] /\ (length [x81; x80] < 4)%nat /\
  read_vlq (cursor [x00] [x81; x80]) =
  (Raise (EOFError "Unexpected EOF"), cursor ([x00] ++ [x81; x80]) []).
Proof.
  assert (H : Forall (fun c => continues c = true) [x81; x80]) by (repeat constructor).
  assert (Hl : (length [x81; x80] < 4)%nat) by (simpl; lia).
  split; [exact H|]. split; [exact Hl|].
  exact (read_vlq_truncated [x00] [x81; x80] H Hl).
Defined.

(** ** The range check of the data bytes *)

(** X12.  [_check_data_range] returns, records one error for the first data
    byte above 127 (its value is in the message, its offset is the one
    given) and none for the bytes after it, records nothing when no byte is
    above 127, and touches nothing else: of the report only [errors] and
    [error_locs] change, every other field of it and the rest of the
    environment stay as they are. *)
Theorem check_data_range_first vals tindex ctx off s :
  exists s', _check_data_range vals tindex ctx off s = (Return tt, s') /\
    tr_errors (te_tr s') = tr_errors (te_tr s) ++ data_range_errors vals tindex ctx /\
    tr_error_locs (te_tr s') =
      tr_error_locs (te_tr s) ++ map (fun m => (m, off)) (data_range_errors vals tindex ctx) /\
    same_but_diagnostics s s' /\
    index (te_tr s') = index (te_tr s) /\
    length_declared (te_tr s') = length_declared (te_tr s) /\
    length_parsed (te_tr s') = length_parsed (te_tr s) /\
    tr_warning_locs (te_tr s') = tr_warning_locs (te_tr s).
Proof.
  unfold data_range_errors. induction vals as [|v vals IH]; simpl.
  - exists s. rewrite !app_nil_r. unfold same_but_diagnostics. split_and!; reflexivity.
  - destruct (byte_val v >? 127).
    + eexists. split; [reflexivity|]. simpl. unfold same_but_diagnostics. simpl.
      split_and!; reflexivity.
    + exact IH.
Qed.

(** ** Headers under the cursor *)

Lemma wp_try_except_body {St A} (m : M St A) h (Q : A -> St -> Prop) s :
  wp m Q s -> wp (try_except m h) Q s.
Proof.
  intros H. apply wp_try_except. eapply wp_wpo; [|exact H]. auto.
Qed.

Lemma wp_on_r_read_cursor pre bs rest (Q : list byte -> FEnv -> Prop) s :
  fe_r s = cursor pre (bs ++ rest) ->
  Q bs (with_r (fun _ => cursor (pre ++ bs) rest) s) ->
  wp (on_r (read (Z.of_nat (length bs)))) Q s.
Proof.
  intros Hr HQ. unfold wp, wpo, on_r. rewrite Hr, read_cursor. exact HQ.
Qed.

Lemma be16_range b0 b1 : 0 <= be16 b0 b1 < 65536.
Proof.
  unfold be16. pose proof (byte_val_range b0). pose proof (byte_val_range b1). lia.
Qed.

Lemma read_uint16_be_value {St} b0 b1 (s : St) :
  read_uint16_be [b0; b1] s = (Return (be16 b0 b1), s).
Proof.
  pose proof (byte_val_range b0). pose proof (byte_val_range b1).
  unfold read_uint16_be, bind, getitem, ret; simpl.
  rewrite (lor_shiftl_add (byte_val b0) (byte_val b1) 8) by lia. reflexivity.
Qed.

Lemma wp_read_uint16_be {St} b0 b1 (Q : Z -> St -> Prop) s :
  Q (be16 b0 b1) s -> wp (read_uint16_be [b0; b1]) Q s.
Proof. intros HQ. unfold wp, wpo. rewrite read_uint16_be_value. exact HQ. Qed.

Lemma wp_read_uint32_be {St} b0 b1 b2 b3 (Q : Z -> St -> Prop) s :
  Q (be32 b0 b1 b2 b3) s -> wp (read_uint32_be [b0; b1; b2; b3]) Q s.
Proof. intros HQ. unfold wp, wpo. rewrite read_uint32_be_value. exact HQ. Qed.

(** What [validate_division] records for a 16-bit division. *)
Lemma validate_division_run div s :
  0 <= div < 65536 ->
  wp (validate_division div)
     (fun _ s' =>
        fe_r s' = fe_r s /\ header_frame s s' /\
        rep_errors (fe_rep s') = rep_errors (fe_rep s) ++ division_errors div /\
        rep_warnings (fe_rep s') = rep_warnings (fe_rep s) ++ division_warnings div) s.
Proof.
  intros Hd. unfold validate_division, division_errors, division_warnings.
  rewrite division_high_bit by lia.
  destruct (Z.ltb_spec div 32768) as [Hlo|Hhi]; cbn [negb].
  - destruct (Z.leb_spec 32768 div); [lia|].
    destruct (Z.leb_spec div 0), (Z.ltb_spec 0 div); try lia; cbn [when]; wp_steps;
      simpl; rewrite ?app_nil_r; split_and!; auto; frame_solve.
  - destruct (Z.leb_spec 32768 div); [|lia].
    rewrite smpte_fps_arith, division_low_byte by lia.
    destruct (fps_usual (256 - div / 256)), (div mod 256 =? 0); cbn [negb when];
      wp_steps; simpl; rewrite ?app_nil_r; split_and!; auto; frame_solve.
Qed.

(** X13.  A header chunk that is all there: [MThd], a length of 6 or more,
    the six bytes of the fields and the bytes the length declares beyond
    them.  [parse_header] returns a header, whatever the fields are, with
    the three fields read as 16-bit numbers, most significant byte first; it
    leaves the cursor behind the chunk; it records an error for a format
    above 2, one for a track count of 0 and those of the division, and a
    warning for a length above 6 before those of the division. *)
Theorem parse_header_fields pre l0 l1 l2 l3 f0 f1 n0 n1 d0 d1 extra rest s :
  fe_r s = cursor pre (MAGIC_MTHD ++ [l0; l1; l2; l3]
                       ++ [f0; f1; n0; n1; d0; d1] ++ extra ++ rest) ->
  be32 l0 l1 l2 l3 = 6 + Z.of_nat (length extra) ->
  exists s',
    parse_header s =
      (Return (Some (mkMIDIHeader (be16 f0 f1) (be16 n0 n1) (be16 d0 d1))), s') /\
    fe_r s' = cursor (pre ++ MAGIC_MTHD ++ [l0; l1; l2; l3]
                      ++ [f0; f1; n0; n1; d0; d1] ++ extra) rest /\
    rep_errors (fe_rep s') =
      rep_errors (fe_rep s)
      ++ (if be16 f0 f1 <=? 2 then []
          else ["Formato desconocido: " +:+ dec (be16 f0 f1)])
      ++ (if be16 n0 n1 =? 0 then ["Número de pistas=0 inválido"] else [])
      ++ division_errors (be16 d0 d1) /\
    rep_warnings (fe_rep s') =
      rep_warnings (fe_rep s)
      ++ (if 0 <? Z.of_nat (length extra)
          then ["Cabecera con " +:+ dec (6 + Z.of_nat (length extra))
                +:+ " bytes (estándar=6)"]
          else [])
      ++ division_warnings (be16 d0 d1).
Proof.
  intros Hr Hlen.
  set (fmt := be16 f0 f1). set (ntr := be16 n0 n1). set (div := be16 d0 d1).
  pose proof (be16_range f0 f1) as Hfmt. pose proof (be16_range n0 n1) as Hntr.
  pose proof (be16_range d0 d1) as Hdiv. fold fmt in Hfmt. fold ntr in Hntr. fold div in Hdiv.
  set (Post := fun (o : option MIDIHeader) (s' : FEnv) =>
    o = Some (mkMIDIHeader fmt ntr div) /\
    fe_r s' = cursor (pre ++ MAGIC_MTHD ++ [l0; l1; l2; l3]
                      ++ [f0; f1; n0; n1; d0; d1] ++ extra) rest /\
    rep_errors (fe_rep s') =
      rep_errors (fe_rep s)
      ++ (if fmt <=? 2 then [] else ["Formato desconocido: " +:+ dec fmt])
      ++ (if ntr =? 0 then ["Número de pistas=0 inválido"] else [])
      ++ division_errors div /\
    rep_warnings (fe_rep s') =
      rep_warnings (fe_rep s)
      ++ (if 0 <? Z.of_nat (length extra)
          then ["Cabecera con " +:+ dec (6 + Z.of_nat (length extra))
                +:+ " bytes (estándar=6)"]
          else [])
      ++ division_warnings div).
  assert (H : wp parse_header Post s).
  { unfold parse_header. apply wp_try_except_body.
    wp_step. apply (wp_on_r_read_cursor pre MAGIC_MTHD _ _ s Hr).
    change (negb (bytes_eqb MAGIC_MTHD MAGIC_MTHD)) with false. cbv iota.
    wp_step.
    apply (wp_on_r_read_cursor (pre ++ MAGIC_MTHD) [l0; l1; l2; l3]
             ([f0; f1; n0; n1; d0; d1] ++ extra ++ rest)); [reflexivity|].
    wp_step. apply wp_read_uint32_be. rewrite Hlen.
    destruct (Z.ltb_spec (6 + Z.of_nat (length extra)) 6) as [Hlt|_]; [lia|].
    wp_step.
    apply (wp_on_r_read_cursor ((pre ++ MAGIC_MTHD) ++ [l0; l1; l2; l3])
             [f0; f1; n0; n1; d0; d1] (extra ++ rest)); [reflexivity|].
    change (slice [f0; f1; n0; n1; d0; d1] 0 2) with [f0; f1].
    change (slice [f0; f1; n0; n1; d0; d1] 2 4) with [n0; n1].
    change (slice [f0; f1; n0; n1; d0; d1] 4 6) with [d0; d1].
    wp_step. apply wp_read_uint16_be.
    wp_step. apply wp_read_uint16_be.
    wp_step. apply wp_read_uint16_be. fold fmt ntr div.
    set (pre6 := ((pre ++ MAGIC_MTHD) ++ [l0; l1; l2; l3]) ++ [f0; f1; n0; n1; d0; d1]).
    wp_step.
    apply wp_mono with (Q := fun _ s1 =>
      fe_r s1 = cursor (pre6 ++ extra) rest /\
      rep_errors (fe_rep s1) = rep_errors (fe_rep s) /\
      rep_warnings (fe_rep s1) =
        rep_warnings (fe_rep s)
        ++ (if 0 <? Z.of_nat (length extra)
            then ["Cabecera con " +:+ dec (6 + Z.of_nat (length extra))
                  +:+ " bytes (estándar=6)"]
            else [])).
    2: { destruct (Z.gtb_spec (6 + Z.of_nat (length extra)) 6) as [Hgt|Hle]; cbn [when].
         - destruct (Z.ltb_spec 0 (Z.of_nat (length extra))); [|lia].
           wp_step.
           replace (6 + Z.of_nat (length extra) - 6) with (Z.of_nat (length extra)) by lia.
           apply (wp_on_r_read_cursor pre6 extra rest); [reflexivity|].
           wp_steps. simpl. split_and!; reflexivity.
         - destruct (Z.ltb_spec 0 (Z.of_nat (length extra))); [lia|].
           assert (extra = []) as -> by (destruct extra; [reflexivity|simpl in *; lia]).
           wp_steps. simpl. rewrite !app_nil_r. split_and!; reflexivity. }
    intros [] s1 (Hr1 & He1 & Hw1). wp_simpl. wp_step.
    apply wp_mono with (Q := fun _ s2 =>
      fe_r s2 = fe_r s1 /\
      rep_errors (fe_rep s2) =
        rep_errors (fe_rep s1)
        ++ (if fmt <=? 2 then [] else ["Formato desconocido: " +:+ dec fmt]) /\
      rep_warnings (fe_rep s2) = rep_warnings (fe_rep s1)).
    2: { destruct (Z.leb_spec fmt 2) as [Hle|Hgt].
         - assert (Hin : (fmt =? 0) || (fmt =? 1) || (fmt =? 2) = true).
           { destruct (Z.eqb_spec fmt 0), (Z.eqb_spec fmt 1), (Z.eqb_spec fmt 2);
               simpl; auto; lia. }
           rewrite Hin. cbn [negb when]. wp_steps. rewrite app_nil_r. auto.
         - assert (Hin : (fmt =? 0) || (fmt =? 1) || (fmt =? 2) = false).
           { destruct (Z.eqb_spec fmt 0), (Z.eqb_spec fmt 1), (Z.eqb_spec fmt 2);
               simpl; auto; lia. }
           rewrite Hin. cbn [negb when]. wp_steps. simpl. auto. }
    intros [] s2 (Hr2 & He2 & Hw2). wp_simpl. wp_step.
    apply wp_mono with (Q := fun _ s3 =>
      fe_r s3 = fe_r s2 /\
      rep_errors (fe_rep s3) =
        rep_errors (fe_rep s2)
        ++ (if ntr =? 0 then ["Número de pistas=0 inválido"] else []) /\
      rep_warnings (fe_rep s3) = rep_warnings (fe_rep s2)).
    2: { destruct (ntr =? 0); cbn [when]; wp_steps; simpl; rewrite ?app_nil_r; auto. }
    intros [] s3 (Hr3 & He3 & Hw3). wp_simpl. wp_step.
    eapply wp_mono; [|apply (validate_division_run div s3 Hdiv)].
    intros [] s4 (Hr4 & _ & He4 & Hw4). wp_simpl. wp_steps.
    unfold Post. split; [reflexivity|]. split_and!.
    - rewrite Hr4, Hr3, Hr2, Hr1. unfold pre6. rewrite <- !app_assoc. reflexivity.
    - rewrite He4, He3, He2, He1. rewrite <- !app_assoc. reflexivity.
    - rewrite Hw4, Hw3, Hw2, Hw1. rewrite <- !app_assoc. reflexivity. }
  destruct (wp_inv _ _ _ H) as (o & s' & E & -> & Hres).
  exists s'. split; [exact E|exact Hres].
Qed.

Lemma parse_header_fields_witness :
  let s := mkFEnv (cursor [] (MAGIC_MTHD ++ [x00; x00; x00; x06]
                              ++ [x00; x01; x00; x02; x01; xe0] ++ [] ++ []))
             (FileReport0 "a.mid") 0 in
  be32 x00 x00 x00 x06 = 6 + Z.of_nat (length (@nil byte)) /\
  exists s', parse_header s = (Return (Some (mkMIDIHeader 1 2 480)), s') /\
    rep_errors (fe_rep s') = [] /\ rep_warnings (fe_rep s') = [].
Proof.
  cbv zeta. split; [reflexivity|].
  destruct (parse_header_fields [] x00 x00 x00 x06 x00 x01 x00 x02 x01 xe0 [] []
              (mkFEnv (cursor [] (MAGIC_MTHD ++ [x00; x00; x00; x06]
                                  ++ [x00; x01; x00; x02; x01; xe0] ++ [] ++ []))
                 (FileReport0 "a.mid") 0) eq_refl eq_refl)
    as (s' & E & _ & He & Hw).
  exists s'. split; [exact E|]. split; [exact He|exact Hw].
Defined.

(** X14.  A header chunk whose declared length is below 6: [parse_header]
    returns no header and records the one error of the too-short header, at
    the offset behind the length field; it reads no further. *)
Theorem parse_header_too_short pre l0 l1 l2 l3 rest s :
  fe_r s = cursor pre (MAGIC_MTHD ++ [l0; l1; l2; l3] ++ rest) ->
  be32 l0 l1 l2 l3 < 6 ->
  exists s', parse_header s = (Return None, s') /\
    fe_r s' = cursor (pre ++ MAGIC_MTHD ++ [l0; l1; l2; l3]) rest /\
    rep_errors (fe_rep s') = rep_errors (fe_rep s) ++ ["Cabecera demasiado corta"] /\
    rep_error_locs (fe_rep s') =
      rep_error_locs (fe_rep s)
      ++ [("Cabecera demasiado corta", Z.of_nat (length pre) + 8)] /\
    rep_warnings (fe_rep s') = rep_warnings (fe_rep s).
Proof.
  intros Hr Hlen.
  assert (H : wp parse_header (fun o s' => o = None /\
    fe_r s' = cursor (pre ++ MAGIC_MTHD ++ [l0; l1; l2; l3]) rest /\
    rep_errors (fe_rep s') = rep_errors (fe_rep s) ++ ["Cabecera demasiado corta"] /\
    rep_error_locs (fe_rep s') =
      rep_error_locs (fe_rep s)
      ++ [("Cabecera demasiado corta", Z.of_nat (length pre) + 8)] /\
    rep_warnings (fe_rep s') = rep_warnings (fe_rep s)) s).
  { unfold parse_header. apply wp_try_except_body.
    wp_step. apply (wp_on_r_read_cursor pre MAGIC_MTHD _ _ s Hr).
    change (negb (bytes_eqb MAGIC_MTHD MAGIC_MTHD)) with false. cbv iota.
    wp_step.
    apply (wp_on_r_read_cursor (pre ++ MAGIC_MTHD) [l0; l1; l2; l3] rest); [reflexivity|].
    wp_step. apply wp_read_uint32_be.
    destruct (Z.ltb_spec (be32 l0 l1 l2 l3) 6) as [_|Hge]; [|lia].
    wp_steps. simpl. split_and!; auto.
    - rewrite <- !app_assoc. reflexivity.
    - unfold tell, cursor; simpl. rewrite !length_app. simpl.
      do 3 f_equal. lia. }
  destruct (wp_inv _ _ _ H) as (o & s' & E & -> & Hres).
  exists s'. split; [exact E|exact Hres].
Qed.

Lemma parse_header_too_short_witness :
  let s := mkFEnv (cursor [] (MAGIC_MTHD ++ [x00; x00; x00; x04] ++ [x00; x00; x00; x01]))
             (FileReport0 "a.mid") 0 in
  be32 x00 x00 x00 x04 < 6 /\
  exists s', parse_header s = (Return None, s') /\
    rep_errors (fe_rep s') = ["Cabecera demasiado corta"] /\
    rep_error_locs (fe_rep s') = [("Cabecera demasiado corta", 8)].
Proof.
  cbv zeta. assert (Hl : be32 x00 x00 x00 x04 < 6) by reflexivity.
  split; [exact Hl|].
  destruct (parse_header_too_short [] x00 x00 x00 x04 [x00; x00; x00; x01]
              (mkFEnv (cursor [] (MAGIC_MTHD ++ [x00; x00; x00; x04] ++ [x00; x00; x00; x01]))
                 (FileReport0 "a.mid") 0) eq_refl Hl)
    as (s' & E & _ & He & Hl' & _).
  exists s'. split; [exact E|]. split; [exact He|exact Hl'].
Defined.

Lemma wpo_on_r_read_eof {A} n (Q : outcome A -> FEnv -> Prop) (k : list byte -> M FEnv A) s :
  len (fe_r s) < pos (fe_r s) + n ->
  Q (Raise (EOFError "Unexpected EOF")) (with_r (fun _ => fe_r s) s) ->
  wpo (bind (on_r (read n)) k) Q s.
Proof.
  intros Hlt HQ. apply wpo_bind. unfold wpo at 1, on_r.
  destruct (read_cases n (fe_r s)) as [[_ ->]|[Hle _]]; [exact HQ|lia].
Qed.

Lemma wpo_on_r_read_cursor {A} pre bs rest (Q : outcome A -> FEnv -> Prop)
    (k : list byte -> M FEnv A) s :
  fe_r s = cursor pre (bs ++ rest) ->
  wpo (k bs) Q (with_r (fun _ => cursor (pre ++ bs) rest) s) ->
  wpo (bind (on_r (read (Z.of_nat (length bs)))) k) Q s.
Proof.
  intros Hr HQ. apply wpo_bind. unfold wpo at 1, on_r.
  rewrite Hr, read_cursor. exact HQ.
Qed.

(** X15.  A header chunk cut off by the end of the buffer, after [MThd]
    fewer than four bytes, or a length of 6 or more and fewer bytes than
    it declares: [parse_header] returns no header and records the one error
    of the unexpected end, and nothing else. *)
Theorem parse_header_truncated pre rest s :
  fe_r s = cursor pre (MAGIC_MTHD ++ rest) ->
  ((length rest < 4)%nat \/
   exists l0 l1 l2 l3 rest',
     rest = [l0; l1; l2; l3] ++ rest' /\ 6 <= be32 l0 l1 l2 l3 /\
     Z.of_nat (length rest') < be32 l0 l1 l2 l3) ->
  exists s', parse_header s = (Return None, s') /\
    rep_errors (fe_rep s') =
      rep_errors (fe_rep s) ++ ["Error cabecera: Unexpected EOF"] /\
    rep_warnings (fe_rep s') = rep_warnings (fe_rep s).
Proof.
  intros Hr Hcut.
  assert (H : wp parse_header (fun o s' => o = None /\
    rep_errors (fe_rep s') =
      rep_errors (fe_rep s) ++ ["Error cabecera: Unexpected EOF"] /\
    rep_warnings (fe_rep s') = rep_warnings (fe_rep s)) s).
  { unfold parse_header. apply wp_try_except.
    set (Q := fun (o : outcome (option MIDIHeader)) (s' : FEnv) =>
      match o with
      | Raise e => e = EOFError "Unexpected EOF" /\
                   rep_errors (fe_rep s') = rep_errors (fe_rep s) /\
                   rep_warnings (fe_rep s') = rep_warnings (fe_rep s)
      | _ => False
      end).
    apply wpo_mono with (Q := Q).
    { intros [a|e|] s' HQ; simpl in HQ; try contradiction.
      destruct HQ as (-> & He & Hw). wp_steps. simpl. rewrite He, Hw. auto. }
    apply (wpo_on_r_read_cursor pre MAGIC_MTHD rest); [exact Hr|].
    change (negb (bytes_eqb MAGIC_MTHD MAGIC_MTHD)) with false. cbv iota.
    destruct Hcut as [Hshort|(l0 & l1 & l2 & l3 & rest' & -> & Hge & Hlt)].
    - apply wpo_on_r_read_eof; [|simpl; auto].
      unfold cursor; simpl. rewrite !length_app. simpl. lia.
    - apply (wpo_on_r_read_cursor (pre ++ MAGIC_MTHD) [l0; l1; l2; l3] rest');
        [reflexivity|].
      apply wpo_bind. unfold wpo at 1. rewrite read_uint32_be_value. cbn [fst snd].
      destruct (Z.ltb_spec (be32 l0 l1 l2 l3) 6) as [Hlt6|_]; [lia|].
      set (pre8 := (pre ++ MAGIC_MTHD) ++ [l0; l1; l2; l3]).
      destruct (Nat.lt_ge_cases (length rest') 6) as [Hlt6|Hge6].
      + apply wpo_on_r_read_eof; [|simpl; auto].
        unfold cursor; simpl. rewrite (length_app pre8 rest'). lia.
      + destruct rest' as [|f0 [|f1 [|n0 [|n1 [|d0 [|d1 rest'']]]]]];
          simpl in Hge6; try lia.
        apply (wpo_on_r_read_cursor pre8 [f0; f1; n0; n1; d0; d1] rest'');
          [reflexivity|].
        change (slice [f0; f1; n0; n1; d0; d1] 0 2) with [f0; f1].
        change (slice [f0; f1; n0; n1; d0; d1] 2 4) with [n0; n1].
        change (slice [f0; f1; n0; n1; d0; d1] 4 6) with [d0; d1].
        apply wpo_bind. unfold wpo at 1. rewrite read_uint16_be_value. cbn [fst snd].
        apply wpo_bind. unfold wpo at 1. rewrite read_uint16_be_value. cbn [fst snd].
        apply wpo_bind. unfold wpo at 1. rewrite read_uint16_be_value. cbn [fst snd].
        simpl length in Hlt.
        destruct (Z.gtb_spec (be32 l0 l1 l2 l3) 6) as [_|Hle]; [|lia].
        cbn [when]. apply wpo_bind. apply wpo_on_r_read_eof; [|simpl; auto].
        unfold cursor; simpl. rewrite (length_app _ rest''). lia. }
  destruct (wp_inv _ _ _ H) as (o & s' & E & -> & Hres).
  exists s'. split; [exact E|exact Hres].
Qed.

Lemma parse_header_truncated_witness :
  let s := mkFEnv (cursor [] (MAGIC_MTHD ++ [x00; x00; x00; x06; x00; x01]))
             (FileReport0 "a.mid") 0 in
  exists s', parse_header s = (Return None, s') /\
    rep_errors (fe_rep s') = ["Error cabecera: Unexpected EOF"].
Proof.
  cbv zeta.
  destruct (parse_header_truncated [] [x00; x00; x00; x06; x00; x01]
              (mkFEnv (cursor [] (MAGIC_MTHD ++ [x00; x00; x00; x06; x00; x01]))
                 (FileReport0 "a.mid") 0) eq_refl)
    as (s' & E & He & _).
  { right. exists x00, x00, x00, x06, [x00; x01].
    split; [reflexivity|]. split; [discriminate|reflexivity]. }
  exists s'. split; [exact E|exact He].
Defined.

(** ** The status of an event *)

Lemma cursor_push_back pre p rest :
  set_pos (pos (cursor (pre ++ [p]) rest) - 1) (cursor (pre ++ [p]) rest)
  = cursor pre (p :: rest).
Proof.
  unfold cursor, set_pos; simpl. rewrite <- app_assoc. simpl. f_equal.
  rewrite length_app. simpl. lia.
Qed.

Lemma local_read_vlq_or_cursor pre cs b rest report s :
  te_local s = cursor pre (cs ++ b :: rest) ->
  Forall (fun c => continues c = true) cs -> (length cs <= 3)%nat ->
  continues b = false ->
  local_read_vlq_or report s =
  (Return (Some (vlq_value (cs ++ [b]))),
   with_local (fun _ => cursor (pre ++ cs ++ [b]) rest) s).
Proof.
  intros Hl Hcs Hlen Hb.
  unfold local_read_vlq_or, try_except, bind, on_local.
  rewrite Hl, read_vlq_cursor_value by assumption. reflexivity.
Qed.

Lemma local_read_byte_cursor pre b rest s :
  te_local s = cursor pre (b :: rest) ->
  local_read_byte s =
  (Return (byte_val b), with_local (fun _ => cursor (pre ++ [b]) rest) s).
Proof.
  intros Hl. unfold local_read_byte, bind, on_local.
  rewrite Hl, read1_cursor. reflexivity.
Qed.

(** X16.  How one turn of the scan loop finds the status of an event, after
    a delta-time.  A byte with its high bit set is the new status, kept for
    the events to come, and the event is dispatched on it with the cursor
    behind it.  A byte with its high bit clear is the first data byte of an
    event of the status kept (running status): the event is dispatched on
    that status with the cursor before the byte.  With no status kept, such a
    byte is the one error of the running status without a previous status,
    at the offset of the byte, and the scan of the track ends. *)
Theorem status_of_event tindex start pair_notes strict pre dcs db b rest s :
  Forall (fun c => continues c = true) dcs -> (length dcs <= 3)%nat ->
  continues db = false ->
  te_local s = cursor pre (dcs ++ db :: b :: rest) ->
  (continues b = true ->
   scan_event tindex start pair_notes strict s =
   dispatch tindex start (byte_val b) pair_notes strict
     (with_status (fun _ => Some (byte_val b))
        (with_local (fun _ => cursor (pre ++ dcs ++ [db; b]) rest) s))) /\
  (continues b = false -> forall st, te_status s = Some st ->
   scan_event tindex start pair_notes strict s =
   dispatch tindex start st pair_notes strict
     (with_local (fun _ => cursor (pre ++ dcs ++ [db]) (b :: rest)) s)) /\
  (continues b = false -> te_status s = None ->
   exists s', scan_event tindex start pair_notes strict s = (Return Break, s') /\
     tr_errors (te_tr s') =
       tr_errors (te_tr s) ++ [pista tindex "running status sin previo."] /\
     tr_error_locs (te_tr s') =
       tr_error_locs (te_tr s)
       ++ [(pista tindex "running status sin previo.",
            start + Z.of_nat (length (pre ++ dcs ++ [db])))] /\
     stats (te_tr s') = stats (te_tr s)).
Proof.
  intros Hdcs Hlen Hdb Hl.
  assert (Hrem : (remaining (cursor (pre ++ dcs ++ [db]) (b :: rest)) <=? 0) = false).
  { rewrite remaining_cursor. simpl length. apply Z.leb_gt. lia. }
  assert (Hpre : scan_event tindex start pair_notes strict s =
    (let! c :=
       (if negb (Z.land (byte_val b) 128 =? 0)
        then modify (with_status (fun _ => Some (byte_val b)));;; ret Next
        else
          let! status := gets te_status in
          match status with
          | Some _ => modify (with_local (fun l => set_pos (pos l - 1) l));;; ret Next
          | None =>
              let! p := local_tell in
              _err (pista tindex "running status sin previo.") (start + p - 1);;;
              ret Break
          end) in
     match c with
     | Next =>
         let! status := gets te_status in
         match status with
         | Some status0 => dispatch tindex start status0 pair_notes strict
         | None =>
             let! p := local_tell in
             _err (pista tindex "status indefinido.") (start + p);;; ret Break
         end
     | Break => ret Break
     end)
      (with_local (fun _ => cursor ((pre ++ dcs ++ [db]) ++ [b]) rest)
         (with_local (fun _ => cursor (pre ++ dcs ++ [db]) (b :: rest)) s))).
  { unfold scan_event. unfold bind at 1. unfold local_tell at 1, gets at 1.
    unfold bind at 1.
    rewrite (local_read_vlq_or_cursor pre dcs db (b :: rest)) by assumption.
    unfold bind at 1. unfold local_remaining at 1, gets at 1.
    cbn [te_local with_local]. rewrite Hrem.
    unfold bind at 1.
    rewrite (local_read_byte_cursor (pre ++ dcs ++ [db]) b rest) by reflexivity.
    reflexivity. }
  rewrite Hpre. clear Hpre. unfold continues. split_and!.
  - intros Hb. rewrite Hb. unfold bind, modify, ret, gets; simpl.
    rewrite <- !app_assoc. reflexivity.
  - intros Hb st Hst. apply negb_false_iff in Hb. rewrite Hb. cbn [negb].
    unfold bind, modify, ret, gets; simpl. rewrite Hst. simpl.
    rewrite Hst. f_equal. unfold with_local; simpl. f_equal.
    apply cursor_push_back.
  - intros Hb Hst. apply negb_false_iff in Hb. rewrite Hb. cbn [negb].
    unfold bind, modify, ret, gets, local_tell, _err; simpl. rewrite Hst.
    eexists. split; [reflexivity|]. simpl. split_and!; auto.
    do 3 f_equal. unfold tell, cursor; simpl. rewrite !length_app. simpl. lia.
Qed.

Lemma status_of_event_witness :
  let s := mkTEnv (new_Reader []) (TrackReport0 0)
             (cursor [] ([] ++ x00 :: x90 :: [x3c; x40])) None ∅ in
  (Forall (fun c => continues c = true) [] /\ (length (@nil byte) <= 3)%nat /\
   continues x00 = false /\ continues x90 = true) /\
  scan_event 0 22 true false s =
  dispatch 0 22 0x90 true false
    (with_status (fun _ => Some 0x90)
       (with_local (fun _ => cursor [x00; x90] [x3c; x40]) s)).
Proof.
  intros s. split.
  - split_and!; [constructor|simpl; lia|reflexivity|reflexivity].
  - apply (proj1 (status_of_event 0 22 true false [] [] x00 x90 [x3c; x40] s
                    ltac:(constructor) ltac:(simpl; lia) eq_refl eq_refl)).
    reflexivity.
Defined.

(** ** Channel voice messages *)

Lemma nibbles status :
  0 <= status < 256 ->
  Z.land status 0xF0 = 16 * (status / 16) /\ Z.land status 0x0F = status mod 16.
Proof.
  intros Hs.
  assert (H0 : Z.land status 0x0F = status mod 16).
  { change 0x0F with (Z.ones 4). rewrite Z.land_ones by lia. reflexivity. }
  split; [|exact H0].
  assert (Hsplit : status = Z.lor (Z.land status 0xF0) (Z.land status 0x0F)).
  { rewrite <- Z.land_lor_distr_r. change (Z.lor 0xF0 0x0F) with (Z.ones 8).
    rewrite Z.land_ones by lia. change (2 ^ 8) with 256.
    rewrite Z.mod_small by lia. reflexivity. }
  assert (Hdisj : Z.land (Z.land status 0xF0) (Z.land status 0x0F) = 0).
  { rewrite Z.land_assoc, <- (Z.land_assoc status 0xF0 status).
    rewrite (Z.land_comm 0xF0 status), Z.land_assoc, Z.land_diag.
    rewrite <- Z.land_assoc. change (Z.land 0xF0 0x0F) with 0.
    apply Z.land_0_r. }
  rewrite <- Z.lxor_lor, <- Z.add_nocarry_lxor in Hsplit by exact Hdisj.
  rewrite H0 in Hsplit.
  pose proof (Z.div_mod status 16 ltac:(lia)). lia.
Qed.

Lemma wp_check_data_range vals tindex ctx off (Q : unit -> TEnv -> Prop) s :
  (forall s',
     tr_errors (te_tr s') = tr_errors (te_tr s) ++ data_range_errors vals tindex ctx ->
     same_but_diagnostics s s' -> Q tt s') ->
  wp (_check_data_range vals tindex ctx off) Q s.
Proof.
  intros HQ. unfold data_range_errors in HQ.
  induction vals as [|v vals IH]; simpl in *.
  - wp_steps. apply HQ; [rewrite app_nil_r; reflexivity|].
    unfold same_but_diagnostics. tauto.
  - destruct (byte_val v >? 127).
    + wp_steps. apply HQ; [reflexivity|]. unfold same_but_diagnostics. simpl. tauto.
    + apply IH, HQ.
Qed.

(** X17.  A channel voice message under the cursor (status 0x80 to 0xEF,
    with its one or two data bytes there), dispatched: the scan goes on
    behind the data bytes; exactly one counter goes up by one, the one of
    the message's kind; [active] changes as [voice_active] says; a data
    byte above 127 is one error, and the message is counted all the same;
    there is no warning and the status kept stays. *)
Theorem channel_voice_message tindex start status pair_notes strict pre data rest s :
  0x80 <= status <= 0xEF ->
  Z.of_nat (length data) = voice_data_length status ->
  te_local s = cursor pre (data ++ rest) ->
  exists s', dispatch tindex start status pair_notes strict s = (Return Next, s') /\
    te_local s' = cursor (pre ++ data) rest /\
    stats (te_tr s') = voice_counter status data (stats (te_tr s)) /\
    te_active s' = voice_active pair_notes status data (te_active s) /\
    tr_errors (te_tr s') =
      tr_errors (te_tr s) ++ data_range_errors data tindex ("msg " +:+ hex status) /\
    tr_warnings (te_tr s') = tr_warnings (te_tr s) /\
    te_status s' = te_status s.
Proof.
  intros Hst Hdl Hl.
  destruct (nibbles status ltac:(lia)) as [Hhi Hlo].
  assert (Hq : 8 <= status / 16 <= 14).
  { split; [apply Z.div_le_lower_bound; lia|].
    assert (status / 16 < 15) by (apply Z.div_lt_upper_bound; lia). lia. }
  set (Post := fun (c : ctl) (s' : TEnv) =>
    c = Next /\
    te_local s' = cursor (pre ++ data) rest /\
    stats (te_tr s') = voice_counter status data (stats (te_tr s)) /\
    te_active s' = voice_active pair_notes status data (te_active s) /\
    tr_errors (te_tr s') =
      tr_errors (te_tr s) ++ data_range_errors data tindex ("msg " +:+ hex status) /\
    tr_warnings (te_tr s') = tr_warnings (te_tr s) /\
    te_status s' = te_status s).
  assert (H : wp (dispatch tindex start status pair_notes strict) Post s).
  { unfold dispatch.
    destruct (Z.leb_spec 0x80 status); [|lia].
    destruct (Z.leb_spec status 0xEF); [|lia]. cbn [andb].
    unfold channel_voice. rewrite Hhi, Hlo.
    unfold Post, voice_counter, voice_active, voice_data_length in *.
    set (q := status / 16) in *. set (ch := status mod 16) in *.
    assert (Hcases : q = 8 \/ q = 9 \/ q = 10 \/ q = 11 \/ q = 12 \/ q = 13 \/ q = 14) by lia.
    clearbody q ch.
    destruct Hcases as [->|[->|[->|[->|[->|[->| ->]]]]]]; simpl in Hdl;
      [destruct data as [|d0 [|d1 [|? ?]]]; simpl in Hdl; try lia ..
      |destruct data as [|d0 [|d1 [|? ?]]]; simpl in Hdl; try lia].
    all: cbv zeta;
      repeat match goal with
             | |- context [16 * ?k] =>
                 let v := eval cbv in (16 * k) in change (16 * k) with v
             end;
      cbn [Z.eqb Pos.eqb orb].
    all: wp_steps; rewrite Hl, remaining_cursor.
    all: match goal with
         | |- context [Z.of_nat (length ?l) <? ?n] =>
             destruct (Z.ltb_spec (Z.of_nat (length l)) n) as [Hlt|_];
             [simpl in Hlt; lia|]
         end.
    all: wp_step.
    all: match goal with
         | |- wp (on_local (read 2)) _ _ =>
             apply (wp_local_read_cursor pre [d0; d1] rest); [exact Hl|]
         | |- wp (on_local (read 1)) _ _ =>
             apply (wp_local_read_cursor pre [d0] rest); [exact Hl|]
         end.
    all: wp_steps; apply wp_check_data_range.
    all: intros s1 He1 (Hr1 & Hl1 & Hst1 & Ha1 & Hs1 & _ & Hw1).
    all: cbn [te_local te_status te_active te_tr with_local stats tr_warnings] in Hl1, Hs1, Ha1, Hst1, Hw1.
    all: cbn [te_tr with_local tr_errors] in He1.
    all: wp_simpl; destruct pair_notes; cbn [when].
    all: repeat first
           [ wp_step
           | apply wp_getitem;
             [simpl; lia
             |let Hx := fresh "Hx" in
              intros ? Hx; cbn [nth_error] in Hx; injection Hx as <-]
           | match goal with
             | |- wp (if byte_val ?d =? 0 then _ else _) _ _ =>
                 destruct (byte_val d =? 0)
             end ].
    all: simpl; rewrite ?Hl1, ?Hs1, ?Ha1, ?Hst1, ?Hw1, ?He1; simpl.
    all: split_and!; auto. }
  destruct (wp_inv _ _ _ H) as (c & s' & E & -> & Hres).
  exists s'. split; [exact E|exact Hres].
Qed.

Lemma channel_voice_message_witness :
  let s := mkTEnv (new_Reader []) (TrackReport0 0)
             (cursor [x00; xc5] ([x07] ++ [])) (Some 0xC5) ∅ in
  (0x80 <= 0xC5 <= 0xEF /\ Z.of_nat (length [x07]) = voice_data_length 0xC5) /\
  exists s', dispatch 0 22 0xC5 true false s = (Return Next, s') /\
    program_changes (stats (te_tr s')) = 1 /\ tr_errors (te_tr s') = [].
Proof.
  intros s. split; [split; [lia|reflexivity]|].
  destruct (channel_voice_message 0 22 0xC5 true false [x00; xc5] [x07] [] s)
    as (s' & E & _ & Hs & _ & He & _); [lia|reflexivity|reflexivity|].
  exists s'. split; [exact E|]. rewrite Hs, He. split; reflexivity.
Defined.

(** X18.  A channel voice message whose data bytes are not all there: fewer
    bytes remain in the chunk than the message needs.  The one error of the
    insufficient data is recorded at the offset of the cursor, which does
    not move; nothing is counted, and the scan of the track ends. *)
Theorem channel_voice_truncated tindex start status pair_notes strict pre rest s :
  0x80 <= status <= 0xEF ->
  Z.of_nat (length rest) < voice_data_length status ->
  te_local s = cursor pre rest ->
  exists s', dispatch tindex start status pair_notes strict s = (Return Break, s') /\
    tr_errors (te_tr s') =
      tr_errors (te_tr s)
      ++ [pista tindex ("datos insuficientes para " +:+ hex status +:+ ".")] /\
    tr_error_locs (te_tr s') =
      tr_error_locs (te_tr s)
      ++ [(pista tindex ("datos insuficientes para " +:+ hex status +:+ "."),
           start + Z.of_nat (length pre))] /\
    same_but_diagnostics s s'.
Proof.
  intros Hst Hlt Hl.
  destruct (nibbles status ltac:(lia)) as [Hhi _].
  assert (Hdl : (if (Z.land status 0xF0 =? 0xC0) || (Z.land status 0xF0 =? 0xD0)
                 then 1 else 2) = voice_data_length status).
  { rewrite Hhi. unfold voice_data_length.
    destruct (Z.eqb_spec (status / 16) 12) as [->|N1]; [reflexivity|].
    destruct (Z.eqb_spec (status / 16) 13) as [->|N2]; [reflexivity|].
    destruct (Z.eqb_spec (16 * (status / 16)) 192); [lia|].
    destruct (Z.eqb_spec (16 * (status / 16)) 208); [lia|]. reflexivity. }
  unfold dispatch.
  destruct (Z.leb_spec 0x80 status); [|lia].
  destruct (Z.leb_spec status 0xEF); [|lia]. cbn [andb].
  unfold channel_voice. cbv zeta. rewrite Hdl.
  unfold bind at 1. unfold local_remaining, gets. rewrite Hl, remaining_cursor.
  destruct (Z.ltb_spec (Z.of_nat (length rest)) (voice_data_length status)); [|lia].
  eexists. split; [reflexivity|]. simpl. rewrite Hl.
  unfold same_but_diagnostics, tell, cursor; simpl. split_and!; auto.
Qed.

Lemma channel_voice_truncated_witness :
  let s := mkTEnv (new_Reader []) (TrackReport0 0)
             (cursor [x00; x90] [x3c]) (Some 0x90) ∅ in
  (0x80 <= 0x90 <= 0xEF /\ Z.of_nat (length [x3c]) < voice_data_length 0x90) /\
  exists s', dispatch 0 22 0x90 true false s = (Return Break, s') /\
    tr_errors (te_tr s') = ["Pista 0: datos insuficientes para 0x90."] /\
    tr_error_locs (te_tr s') = [("Pista 0: datos insuficientes para 0x90.", 24)].
Proof.
  intros s. split; [split; [lia|reflexivity]|].
  destruct (channel_voice_truncated 0 22 0x90 true false [x00; x90] [x3c] s)
    as (s' & E & He & Hloc & _); [lia|reflexivity|reflexivity|].
  exists s'. split; [exact E|]. rewrite He, Hloc. split; reflexivity.
Defined.

(** ** Meta events *)

(** A meta event whose type byte, length and data are all under the
    cursor is counted, and goes on as [meta_dispatch] does behind its data. *)
Lemma wp_dispatch_meta tindex start pair_notes strict pre mt lcs lb md rest
    (Q : ctl -> TEnv -> Prop) s :
  Forall (fun c => continues c = true) lcs -> (length lcs <= 3)%nat ->
  continues lb = false ->
  Z.of_nat (length md) = vlq_value (lcs ++ [lb]) ->
  te_local s = cursor pre (mt :: lcs ++ lb :: md ++ rest) ->
  wp (meta_dispatch tindex start strict (byte_val mt) (vlq_value (lcs ++ [lb])) md) Q
     (with_tr (with_stats incr_meta)
        (with_local (fun _ => cursor (pre ++ mt :: lcs ++ lb :: md) rest) s)) ->
  wp (dispatch tindex start 0xFF pair_notes strict) Q s.
Proof.
  intros Hlcs Hlen Hlb Hmd Hl HQ. unfold dispatch.
  change ((128 <=? 255) && (255 <=? 239)) with false.
  change (255 =? 255) with true. cbv iota.
  unfold meta_event. wp_steps. rewrite Hl, remaining_cursor.
  destruct (Z.ltb_spec (Z.of_nat (length (mt :: lcs ++ lb :: md ++ rest))) 2) as [Hlt|_].
  { simpl in Hlt. rewrite length_app in Hlt. simpl in Hlt. lia. }
  wp_step.
  apply (wp_local_read_byte_cursor pre mt (lcs ++ lb :: md ++ rest)); [exact Hl|].
  wp_simpl. wp_step.
  apply (wp_local_read_vlq_cursor (pre ++ [mt]) lcs lb (md ++ rest));
    try assumption; [reflexivity|].
  rewrite <- Hmd in *.
  wp_steps. cbn [te_local with_local]. rewrite remaining_cursor.
  destruct (Z.ltb_spec (Z.of_nat (length (md ++ rest))) (Z.of_nat (length md))) as [Hlt|_].
  { rewrite length_app in Hlt. lia. }
  wp_step.
  apply (wp_local_read_cursor ((pre ++ [mt]) ++ lcs ++ [lb]) md rest); [reflexivity|].
  wp_steps.
  replace (((pre ++ [mt]) ++ lcs ++ [lb]) ++ md) with (pre ++ mt :: lcs ++ lb :: md)
    by (rewrite <- !app_assoc; reflexivity).
  exact HQ.
Qed.

(** X19.  An End-of-Track meta event (FF 2F, a length, and the data bytes
    of that length) dispatched with [rest] behind it in the chunk: the event
    is counted as a meta event and the track has its End-of-Track; a length
    other than 0 is one error; bytes behind the event are one warning that
    gives their number, they are skipped and the scan ends; with none, the
    turn ends normally, the cursor at the end of the chunk in both cases. *)
Theorem end_of_track_event tindex start pair_notes strict pre lcs lb md rest s :
  Forall (fun c => continues c = true) lcs -> (length lcs <= 3)%nat ->
  continues lb = false ->
  Z.of_nat (length md) = vlq_value (lcs ++ [lb]) ->
  te_local s = cursor pre (x2f :: lcs ++ lb :: md ++ rest) ->
  exists s',
    dispatch tindex start 0xFF pair_notes strict s =
      (Return (match rest with [] => Next | _ => Break end), s') /\
    has_end_of_track (te_tr s') = true /\
    te_local s' = cursor (pre ++ x2f :: lcs ++ lb :: md ++ rest) [] /\
    tr_errors (te_tr s') =
      tr_errors (te_tr s)
      ++ (if vlq_value (lcs ++ [lb]) =? 0 then []
          else [pista tindex "End-of-Track len !=0."]) /\
    tr_warnings (te_tr s') =
      tr_warnings (te_tr s)
      ++ match rest with
         | [] => []
         | _ => [pista tindex ("bytes extra tras EOT ("
                               +:+ dec (Z.of_nat (length rest)) +:+ ").")]
         end /\
    stats (te_tr s') = incr_meta (stats (te_tr s)).
Proof.
  intros Hlcs Hlen Hlb Hmd Hl.
  set (Post := fun (c : ctl) (s' : TEnv) =>
    c = match rest with [] => Next | _ => Break end /\
    has_end_of_track (te_tr s') = true /\
    te_local s' = cursor (pre ++ x2f :: lcs ++ lb :: md ++ rest) [] /\
    tr_errors (te_tr s') =
      tr_errors (te_tr s)
      ++ (if vlq_value (lcs ++ [lb]) =? 0 then []
          else [pista tindex "End-of-Track len !=0."]) /\
    tr_warnings (te_tr s') =
      tr_warnings (te_tr s)
      ++ match rest with
         | [] => []
         | _ => [pista tindex ("bytes extra tras EOT ("
                               +:+ dec (Z.of_nat (length rest)) +:+ ").")]
         end /\
    stats (te_tr s') = incr_meta (stats (te_tr s))).
  assert (H : wp (dispatch tindex start 0xFF pair_notes strict) Post s).
  { apply (wp_dispatch_meta tindex start pair_notes strict pre x2f lcs lb md rest);
      try assumption.
    unfold meta_dispatch. change (byte_val x2f =? 0x2F) with true. cbv iota.
    set (ln := vlq_value (lcs ++ [lb])) in *.
    apply wp_bind.
    apply wp_mono with (Q := fun _ s1 =>
      te_local s1 = cursor (pre ++ x2f :: lcs ++ lb :: md) rest /\
      tr_errors (te_tr s1) =
        tr_errors (te_tr s)
        ++ (if ln =? 0 then [] else [pista tindex "End-of-Track len !=0."]) /\
      tr_warnings (te_tr s1) = tr_warnings (te_tr s) /\
      stats (te_tr s1) = incr_meta (stats (te_tr s))).
    2: { destruct (ln =? 0); cbn [negb when]; wp_steps; simpl;
         rewrite ?app_nil_r; auto. }
    intros [] s1 (Hl1 & He1 & Hw1 & Hs1). wp_simpl. wp_steps.
    cbn [te_local with_tr]. rewrite Hl1, remaining_cursor.
    unfold Post. destruct rest as [|b rest'].
    - change (Z.of_nat (length (@nil byte)) >? 0) with false. cbv iota.
      wp_steps. simpl. rewrite Hl1, He1, Hw1, Hs1, !app_nil_r.
      split_and!; auto.
    - destruct (Z.gtb_spec (Z.of_nat (length (b :: rest'))) 0) as [_|Hle];
        [|simpl in Hle; lia].
      wp_steps. cbn [te_local with_tr]. rewrite Hl1, remaining_cursor.
      apply (wp_local_read_cursor (pre ++ x2f :: lcs ++ lb :: md) (b :: rest') []).
      { cbn [te_local with_tr]. rewrite Hl1, app_nil_r. reflexivity. }
      wp_steps. simpl. rewrite He1, Hw1, Hs1.
      split_and!; auto.
      f_equal. rewrite <- !app_assoc. simpl. rewrite <- !app_assoc. reflexivity. }
  destruct (wp_inv _ _ _ H) as (c & s' & E & -> & Hres).
  exists s'. split; [exact E|exact Hres].
Qed.

Lemma end_of_track_event_witness :
  let s := mkTEnv (new_Reader []) (TrackReport0 0)
             (cursor [x00; xff] (x2f :: [] ++ x00 :: [] ++ [x00; x00])) (Some 0xFF) ∅ in
  (Forall (fun c => continues c = true) [] /\ (length (@nil byte) <= 3)%nat /\
   continues x00 = false /\
   Z.of_nat (length (@nil byte)) = vlq_value ([] ++ [x00])) /\
  exists s', dispatch 0 22 0xFF false false s = (Return Break, s') /\
    has_end_of_track (te_tr s') = true /\
    tr_errors (te_tr s') = [] /\
    tr_warnings (te_tr s') = ["Pista 0: bytes extra tras EOT (2)."] /\
    remaining (te_local s') = 0.
Proof.
  intros s. split.
  - split_and!; [constructor|simpl; lia|reflexivity|reflexivity].
  - destruct (end_of_track_event 0 22 false false [x00; xff] [] x00 [] [x00; x00] s)
      as (s' & E & Heot & Hl & He & Hw & _);
      [constructor|simpl; lia|reflexivity|reflexivity|reflexivity|].
    exists s'. rewrite Heot, Hl, He, Hw. split; [exact E|].
    split_and!; reflexivity.
Defined.

(** X20.  A Time Signature meta event (FF 58) dispatched: it is counted as
    a meta event and the scan goes on behind its data.  With a length other
    than 4 it is one error and no time signature is counted; with four data
    bytes nn dd cc bb one time signature is counted, with a warning exactly
    when nn is 0 or dd is above 7. *)
Theorem time_signature_event tindex start pair_notes strict pre lcs lb md rest s :
  Forall (fun c => continues c = true) lcs -> (length lcs <= 3)%nat ->
  continues lb = false ->
  Z.of_nat (length md) = vlq_value (lcs ++ [lb]) ->
  te_local s = cursor pre (x58 :: lcs ++ lb :: md ++ rest) ->
  exists s', dispatch tindex start 0xFF pair_notes strict s = (Return Next, s') /\
    te_local s' = cursor (pre ++ x58 :: lcs ++ lb :: md) rest /\
    meta (stats (te_tr s')) = meta (stats (te_tr s)) + 1 /\
    (vlq_value (lcs ++ [lb]) <> 4 ->
     tr_errors (te_tr s') =
       tr_errors (te_tr s)
       ++ [pista tindex ("TimeSig len " +:+ dec (vlq_value (lcs ++ [lb])) +:+ " (4).")] /\
     tr_warnings (te_tr s') = tr_warnings (te_tr s) /\
     time_sig_events (stats (te_tr s')) = time_sig_events (stats (te_tr s))) /\
    (forall nn dd cc bb, md = [nn; dd; cc; bb] ->
     tr_errors (te_tr s') = tr_errors (te_tr s) /\
     tr_warnings (te_tr s') =
       tr_warnings (te_tr s)
       ++ (if (byte_val nn =? 0) || (byte_val dd >? 7)
           then [pista tindex ("compás inusual nn=" +:+ dec (byte_val nn) +:+ ", dd="
                               +:+ dec (byte_val dd) +:+ ".")]
           else []) /\
     time_sig_events (stats (te_tr s')) = time_sig_events (stats (te_tr s)) + 1).
Proof.
  intros Hlcs Hlen Hlb Hmd Hl.
  set (ln := vlq_value (lcs ++ [lb])) in *.
  set (Post := fun (c : ctl) (s' : TEnv) =>
    c = Next /\
    te_local s' = cursor (pre ++ x58 :: lcs ++ lb :: md) rest /\
    meta (stats (te_tr s')) = meta (stats (te_tr s)) + 1 /\
    (ln <> 4 ->
     tr_errors (te_tr s') =
       tr_errors (te_tr s)
       ++ [pista tindex ("TimeSig len " +:+ dec ln +:+ " (4).")] /\
     tr_warnings (te_tr s') = tr_warnings (te_tr s) /\
     time_sig_events (stats (te_tr s')) = time_sig_events (stats (te_tr s))) /\
    (forall nn dd cc bb, md = [nn; dd; cc; bb] ->
     tr_errors (te_tr s') = tr_errors (te_tr s) /\
     tr_warnings (te_tr s') =
       tr_warnings (te_tr s)
       ++ (if (byte_val nn =? 0) || (byte_val dd >? 7)
           then [pista tindex ("compás inusual nn=" +:+ dec (byte_val nn) +:+ ", dd="
                               +:+ dec (byte_val dd) +:+ ".")]
           else []) /\
     time_sig_events (stats (te_tr s')) = time_sig_events (stats (te_tr s)) + 1)).
  assert (H : wp (dispatch tindex start 0xFF pair_notes strict) Post s).
  { apply (wp_dispatch_meta tindex start pair_notes strict pre x58 lcs lb md rest);
      try assumption.
    unfold meta_dispatch. change (byte_val x58 =? 0x2F) with false.
    change (byte_val x58 =? 0x51) with false.
    change (byte_val x58 =? 0x58) with true. cbv iota. fold ln. unfold Post.
    destruct (Z.eqb_spec ln 4) as [E4|N4]; cbn [negb].
    - destruct md as [|nn [|dd [|cc [|bb [|? ?]]]]]; simpl in Hmd; try lia.
      wp_step. wp_step.
      destruct ((byte_val nn =? 0) || (byte_val dd >? 7)) eqn:E; cbn [when];
        wp_steps; simpl; rewrite ?app_nil_r.
      all: split_and!; auto; try (intros; lia).
      all: intros nn' dd' cc' bb' [= <- <- <- <-].
      all: rewrite E, ?app_nil_r; auto.
    - wp_steps. simpl. split_and!; auto.
      intros nn dd cc bb ->. simpl in Hmd. lia. }
  destruct (wp_inv _ _ _ H) as (c & s' & E & -> & Hres).
  exists s'. split; [exact E|exact Hres].
Qed.

Lemma time_signature_event_witness :
  let s := mkTEnv (new_Reader []) (TrackReport0 0)
             (cursor [x00; xff] (x58 :: [] ++ x04 :: [x00; x02; x18; x08] ++ []))
             (Some 0xFF) ∅ in
  (Forall (fun c => continues c = true) [] /\ (length (@nil byte) <= 3)%nat /\
   continues x04 = false /\
   Z.of_nat (length [x00; x02; x18; x08]) = vlq_value ([] ++ [x04])) /\
  exists s', dispatch 0 22 0xFF false false s = (Return Next, s') /\
    tr_errors (te_tr s') = [] /\
    tr_warnings (te_tr s') = ["Pista 0: compás inusual nn=0, dd=2."] /\
    time_sig_events (stats (te_tr s')) = 1.
Proof.
  intros s. split.
  - split_and!; [constructor|simpl; lia|reflexivity|reflexivity].
  - destruct (time_signature_event 0 22 false false [x00; xff] [] x04
                [x00; x02; x18; x08] [] s)
      as (s' & E & _ & _ & _ & H4);
      [constructor|simpl; lia|reflexivity|reflexivity|reflexivity|].
    destruct (H4 x00 x02 x18 x08 eq_refl) as (He & Hw & Hn).
    exists s'. rewrite He, Hw, Hn. split; [exact E|].
    split_and!; reflexivity.
Defined.

(** X21.  A Key Signature meta event (FF 59) dispatched: it is counted as
    a meta event and the scan goes on behind its data, with no warning.
    With a length other than 2 it is one error and no key signature is
    counted; with a length of 2 one key signature is counted, whatever the
    two data bytes are. *)
Theorem key_signature_event tindex start pair_notes strict pre lcs lb md rest s :
  Forall (fun c => continues c = true) lcs -> (length lcs <= 3)%nat ->
  continues lb = false ->
  Z.of_nat (length md) = vlq_value (lcs ++ [lb]) ->
  te_local s = cursor pre (x59 :: lcs ++ lb :: md ++ rest) ->
  exists s', dispatch tindex start 0xFF pair_notes strict s = (Return Next, s') /\
    te_local s' = cursor (pre ++ x59 :: lcs ++ lb :: md) rest /\
    meta (stats (te_tr s')) = meta (stats (te_tr s)) + 1 /\
    tr_warnings (te_tr s') = tr_warnings (te_tr s) /\
    tr_errors (te_tr s') =
      tr_errors (te_tr s)
      ++ (if vlq_value (lcs ++ [lb]) =? 2 then []
          else [pista tindex ("KeySig len " +:+ dec (vlq_value (lcs ++ [lb]))
                              +:+ " (2).")]) /\
    key_sig_events (stats (te_tr s')) =
      key_sig_events (stats (te_tr s))
      + (if vlq_value (lcs ++ [lb]) =? 2 then 1 else 0).
Proof.
  intros Hlcs Hlen Hlb Hmd Hl.
  set (ln := vlq_value (lcs ++ [lb])) in *.
  set (Post := fun (c : ctl) (s' : TEnv) =>
    c = Next /\
    te_local s' = cursor (pre ++ x59 :: lcs ++ lb :: md) rest /\
    meta (stats (te_tr s')) = meta (stats (te_tr s)) + 1 /\
    tr_warnings (te_tr s') = tr_warnings (te_tr s) /\
    tr_errors (te_tr s') =
      tr_errors (te_tr s)
      ++ (if ln =? 2 then []
          else [pista tindex ("KeySig len " +:+ dec ln +:+ " (2).")]) /\
    key_sig_events (stats (te_tr s')) =
      key_sig_events (stats (te_tr s)) + (if ln =? 2 then 1 else 0)).
  assert (H : wp (dispatch tindex start 0xFF pair_notes strict) Post s).
  { apply (wp_dispatch_meta tindex start pair_notes strict pre x59 lcs lb md rest);
      try assumption.
    unfold meta_dispatch. change (byte_val x59 =? 0x2F) with false.
    change (byte_val x59 =? 0x51) with false.
    change (byte_val x59 =? 0x58) with false.
    change (byte_val x59 =? 0x59) with true. cbv iota. fold ln. unfold Post.
    destruct (ln =? 2); cbn [negb]; wp_steps; simpl; rewrite ?app_nil_r;
      split_and!; auto; lia. }
  destruct (wp_inv _ _ _ H) as (c & s' & E & -> & Hres).
  exists s'. split; [exact E|exact Hres].
Qed.

Lemma key_signature_event_witness :
  let s := mkTEnv (new_Reader []) (TrackReport0 0)
             (cursor [x00; xff] (x59 :: [] ++ x02 :: [xfe; x01] ++ []))
             (Some 0xFF) ∅ in
  (Forall (fun c => continues c = true) [] /\ (length (@nil byte) <= 3)%nat /\
   continues x02 = false /\
   Z.of_nat (length [xfe; x01]) = vlq_value ([] ++ [x02])) /\
  exists s', dispatch 0 22 0xFF false false s = (Return Next, s') /\
    tr_errors (te_tr s') = [] /\
    key_sig_events (stats (te_tr s')) = 1.
Proof.
  intros s. split.
  - split_and!; [constructor|simpl; lia|reflexivity|reflexivity].
  - destruct (key_signature_event 0 22 false false [x00; xff] [] x02 [xfe; x01] [] s)
      as (s' & E & _ & _ & _ & He & Hn);
      [constructor|simpl; lia|reflexivity|reflexivity|reflexivity|].
    exists s'. rewrite He, Hn. split; [exact E|]. split; reflexivity.
Defined.

(** X22.  A meta event of any other type than End-of-Track (0x2F), Set
    Tempo (0x51), Time Signature (0x58) and Key Signature (0x59), such as a
    text or a track name, dispatched: its data bytes are skipped unread and
    it is counted as a meta event; nothing else of the state changes, so it
    gives no error and no warning whatever its length and data are. *)
Theorem other_meta_event tindex start pair_notes strict pre mt lcs lb md rest s :
  Forall (fun c => continues c = true) lcs -> (length lcs <= 3)%nat ->
  continues lb = false ->
  Z.of_nat (length md) = vlq_value (lcs ++ [lb]) ->
  byte_val mt <> 0x2F -> byte_val mt <> 0x51 ->
  byte_val mt <> 0x58 -> byte_val mt <> 0x59 ->
  te_local s = cursor pre (mt :: lcs ++ lb :: md ++ rest) ->
  dispatch tindex start 0xFF pair_notes strict s =
  (Return Next,
   with_tr (with_stats incr_meta)
     (with_local (fun _ => cursor (pre ++ mt :: lcs ++ lb :: md) rest) s)).
Proof.
  intros Hlcs Hlen Hlb Hmd N1 N2 N3 N4 Hl.
  assert (H : wp (dispatch tindex start 0xFF pair_notes strict)
    (fun c s' => c = Next /\
       s' = with_tr (with_stats incr_meta)
              (with_local (fun _ => cursor (pre ++ mt :: lcs ++ lb :: md) rest) s)) s).
  { apply (wp_dispatch_meta tindex start pair_notes strict pre mt lcs lb md rest);
      try assumption.
    unfold meta_dispatch.
    destruct (Z.eqb_spec (byte_val mt) 0x2F); [contradiction|].
    destruct (Z.eqb_spec (byte_val mt) 0x51); [contradiction|].
    destruct (Z.eqb_spec (byte_val mt) 0x58); [contradiction|].
    destruct (Z.eqb_spec (byte_val mt) 0x59); [contradiction|].
    wp_steps. auto. }
  destruct (wp_inv _ _ _ H) as (c & s' & E & -> & ->). exact E.
Qed.

Lemma other_meta_event_witness :
  let s := mkTEnv (new_Reader []) (TrackReport0 0)
             (cursor [x00; xff] (x03 :: [] ++ x02 :: [x41; xff] ++ [x00]))
             (Some 0xFF) ∅ in
  (Forall (fun c => continues c = true) [] /\ (length (@nil byte) <= 3)%nat /\
   continues x02 = false /\
   Z.of_nat (length [x41; xff]) = vlq_value ([] ++ [x02]) /\
   byte_val x03 <> 0x2F /\ byte_val x03 <> 0x51 /\
   byte_val x03 <> 0x58 /\ byte_val x03 <> 0x59) /\
  dispatch 0 22 0xFF false false s =
  (Return Next,
   with_tr (with_stats incr_meta)
     (with_local (fun _ => cursor ([x00; xff] ++ x03 :: [] ++ x02 :: [x41; xff]) [x00]) s)).
Proof.
  intros s. split.
  - split_and!; [constructor|simpl; lia|reflexivity|reflexivity|..];
      intros H; discriminate H.
  - apply (other_meta_event 0 22 false false [x00; xff] x03 [] x02 [x41; xff] [x00] s);
      [constructor|simpl; lia|reflexivity|reflexivity|..]; try reflexivity;
      intros H; discriminate H.
Defined.

(** X23.  A meta event that is cut short.  With fewer than two bytes left
    behind the status, it is the one error of the truncated meta event, at
    the cursor.  With its type and length there but fewer data bytes left
    than the length says, it is the one error of the truncated data, which
    names the type, at the cursor behind the length.  In both cases nothing
    is counted and the scan of the track ends. *)
Theorem meta_event_truncated tindex start pair_notes strict pre s :
  (forall rest, (length rest < 2)%nat -> te_local s = cursor pre rest ->
   exists s', dispatch tindex start 0xFF pair_notes strict s = (Return Break, s') /\
     tr_errors (te_tr s') = tr_errors (te_tr s) ++ [pista tindex "meta truncado."] /\
     tr_error_locs (te_tr s') =
       tr_error_locs (te_tr s)
       ++ [(pista tindex "meta truncado.", start + Z.of_nat (length pre))] /\
     same_but_diagnostics s s') /\
  (forall mt lcs lb rest,
   Forall (fun c => continues c = true) lcs -> (length lcs <= 3)%nat ->
   continues lb = false ->
   Z.of_nat (length rest) < vlq_value (lcs ++ [lb]) ->
   te_local s = cursor pre (mt :: lcs ++ lb :: rest) ->
   exists s', dispatch tindex start 0xFF pair_notes strict s = (Return Break, s') /\
     tr_errors (te_tr s') =
       tr_errors (te_tr s)
       ++ [pista tindex ("meta datos truncados " +:+ hex (byte_val mt) +:+ ".")] /\
     tr_error_locs (te_tr s') =
       tr_error_locs (te_tr s)
       ++ [(pista tindex ("meta datos truncados " +:+ hex (byte_val mt) +:+ "."),
            start + Z.of_nat (length (pre ++ mt :: lcs ++ [lb])))] /\
     te_local s' = cursor (pre ++ mt :: lcs ++ [lb]) rest /\
     stats (te_tr s') = stats (te_tr s) /\
     tr_warnings (te_tr s') = tr_warnings (te_tr s)).
Proof.
  split.
  - intros rest Hlt Hl. unfold dispatch.
    change ((128 <=? 255) && (255 <=? 239)) with false.
    change (255 =? 255) with true. cbv iota.
    unfold meta_event. unfold bind at 1. unfold local_remaining, gets.
    rewrite Hl, remaining_cursor.
    destruct (Z.ltb_spec (Z.of_nat (length rest)) 2); [|lia].
    eexists. split; [reflexivity|]. simpl. rewrite Hl.
    unfold same_but_diagnostics, tell, cursor; simpl. split_and!; auto.
  - intros mt lcs lb rest Hlcs Hlen Hlb Hlt Hl.
    set (ln := vlq_value (lcs ++ [lb])) in *.
    assert (H : wp (dispatch tindex start 0xFF pair_notes strict)
      (fun c s' => c = Break /\
         tr_errors (te_tr s') =
           tr_errors (te_tr s)
           ++ [pista tindex ("meta datos truncados " +:+ hex (byte_val mt) +:+ ".")] /\
         tr_error_locs (te_tr s') =
           tr_error_locs (te_tr s)
           ++ [(pista tindex ("meta datos truncados " +:+ hex (byte_val mt) +:+ "."),
                start + Z.of_nat (length (pre ++ mt :: lcs ++ [lb])))] /\
         te_local s' = cursor (pre ++ mt :: lcs ++ [lb]) rest /\
         stats (te_tr s') = stats (te_tr s) /\
         tr_warnings (te_tr s') = tr_warnings (te_tr s)) s).
    { unfold dispatch.
      change ((128 <=? 255) && (255 <=? 239)) with false.
      change (255 =? 255) with true. cbv iota.
      unfold meta_event. wp_steps. rewrite Hl, remaining_cursor.
      destruct (Z.ltb_spec (Z.of_nat (length (mt :: lcs ++ lb :: rest))) 2) as [Hlt2|_].
      { simpl in Hlt2. rewrite length_app in Hlt2. simpl in Hlt2. lia. }
      wp_step.
      apply (wp_local_read_byte_cursor pre mt (lcs ++ lb :: rest)); [exact Hl|].
      wp_simpl. wp_step.
      apply (wp_local_read_vlq_cursor (pre ++ [mt]) lcs lb rest);
        try assumption; [reflexivity|].
      fold ln. wp_steps. cbn [te_local with_local]. rewrite remaining_cursor.
      destruct (Z.ltb_spec (Z.of_nat (length rest)) ln); [|lia].
      wp_steps. simpl.
      replace ((pre ++ [mt]) ++ lcs ++ [lb]) with (pre ++ mt :: lcs ++ [lb])
        by (rewrite <- !app_assoc; reflexivity).
      split_and!; auto. }
    destruct (wp_inv _ _ _ H) as (c & s' & E & -> & Hres).
    exists s'. split; [exact E|exact Hres].
Qed.

Lemma meta_event_truncated_witness :
  let s := mkTEnv (new_Reader []) (TrackReport0 0)
             (cursor [x00; xff] (x03 :: [] ++ x05 :: [x41; x42])) (Some 0xFF) ∅ in
  (Forall (fun c => continues c = true) [] /\ (length (@nil byte) <= 3)%nat /\
   continues x05 = false /\
   Z.of_nat (length [x41; x42]) < vlq_value ([] ++ [x05])) /\
  exists s', dispatch 0 22 0xFF false false s = (Return Break, s') /\
    tr_errors (te_tr s') = ["Pista 0: meta datos truncados 0x3."] /\
    tr_error_locs (te_tr s') = [("Pista 0: meta datos truncados 0x3.", 26)].
Proof.
  intros s. split.
  - split_and!; [constructor|simpl; lia|reflexivity|reflexivity].
  - destruct (proj2 (meta_event_truncated 0 22 false false [x00; xff] s)
                x03 [] x05 [x41; x42])
      as (s' & E & He & Hloc & _);
      [constructor|simpl; lia|reflexivity|reflexivity|reflexivity|].
    exists s'. rewrite He, Hloc. split; [exact E|]. split; reflexivity.
Defined.

(** ** System-exclusive blocks and unknown status bytes *)

(** X24.  A system-exclusive block (status 0xF0 or 0xF7) dispatched, its
    length under the cursor.  With the bytes of that length there, they are
    skipped unread and the block is counted; nothing else changes.  With
    fewer bytes left, it is the one error of the truncated block, at the
    cursor behind the length; nothing is counted and the scan ends. *)
Theorem sysex_block tindex start status pair_notes strict pre lcs lb s :
  status = 0xF0 \/ status = 0xF7 ->
  Forall (fun c => continues c = true) lcs -> (length lcs <= 3)%nat ->
  continues lb = false ->
  (forall body rest,
   Z.of_nat (length body) = vlq_value (lcs ++ [lb]) ->
   te_local s = cursor pre (lcs ++ lb :: body ++ rest) ->
   dispatch tindex start status pair_notes strict s =
   (Return Next,
    with_tr (with_stats incr_sysex)
      (with_local (fun _ => cursor (pre ++ lcs ++ lb :: body) rest) s))) /\
  (forall rest,
   Z.of_nat (length rest) < vlq_value (lcs ++ [lb]) ->
   te_local s = cursor pre (lcs ++ lb :: rest) ->
   exists s', dispatch tindex start status pair_notes strict s = (Return Break, s') /\
     tr_errors (te_tr s') = tr_errors (te_tr s) ++ [pista tindex "SysEx truncado."] /\
     tr_error_locs (te_tr s') =
       tr_error_locs (te_tr s)
       ++ [(pista tindex "SysEx truncado.",
            start + Z.of_nat (length (pre ++ lcs ++ [lb])))] /\
     te_local s' = cursor (pre ++ lcs ++ [lb]) rest /\
     stats (te_tr s') = stats (te_tr s) /\
     tr_warnings (te_tr s') = tr_warnings (te_tr s)).
Proof.
  intros Hst Hlcs Hlen Hlb.
  assert (Hd : dispatch tindex start status pair_notes strict
               = sysex_event tindex start).
  { unfold dispatch. destruct Hst as [-> | ->]; reflexivity. }
  rewrite Hd. split.
  - intros body rest Hbody Hl.
    assert (H : wp (sysex_event tindex start)
      (fun c s' => c = Next /\
         s' = with_tr (with_stats incr_sysex)
                (with_local (fun _ => cursor (pre ++ lcs ++ lb :: body) rest) s)) s).
    { unfold sysex_event. wp_step.
      apply (wp_local_read_vlq_cursor pre lcs lb (body ++ rest)); try assumption.
      rewrite <- Hbody.
      wp_steps. cbn [te_local with_local]. rewrite remaining_cursor.
      destruct (Z.ltb_spec (Z.of_nat (length (body ++ rest))) (Z.of_nat (length body)))
        as [Hlt|_].
      { rewrite length_app in Hlt. lia. }
      wp_step.
      apply (wp_local_read_cursor (pre ++ lcs ++ [lb]) body rest); [reflexivity|].
      wp_steps. split; [reflexivity|].
      replace ((pre ++ lcs ++ [lb]) ++ body) with (pre ++ lcs ++ lb :: body)
        by (rewrite <- !app_assoc; reflexivity).
      reflexivity. }
    destruct (wp_inv _ _ _ H) as (c & s' & E & -> & ->). exact E.
  - intros rest Hlt Hl.
    assert (H : wp (sysex_event tindex start)
      (fun c s' => c = Break /\
         tr_errors (te_tr s') = tr_errors (te_tr s) ++ [pista tindex "SysEx truncado."] /\
         tr_error_locs (te_tr s') =
           tr_error_locs (te_tr s)
           ++ [(pista tindex "SysEx truncado.",
                start + Z.of_nat (length (pre ++ lcs ++ [lb])))] /\
         te_local s' = cursor (pre ++ lcs ++ [lb]) rest /\
         stats (te_tr s') = stats (te_tr s) /\
         tr_warnings (te_tr s') = tr_warnings (te_tr s)) s).
    { unfold sysex_event. wp_step.
      apply (wp_local_read_vlq_cursor pre lcs lb rest); try assumption.
      wp_steps. cbn [te_local with_local]. rewrite remaining_cursor.
      destruct (Z.ltb_spec (Z.of_nat (length rest)) (vlq_value (lcs ++ [lb]))); [|lia].
      wp_steps. simpl. split_and!; auto. }
    destruct (wp_inv _ _ _ H) as (c & s' & E & -> & Hres).
    exists s'. split; [exact E|exact Hres].
Qed.

Lemma sysex_block_witness :
  let s := mkTEnv (new_Reader []) (TrackReport0 0)
             (cursor [x00; xf0] ([] ++ x03 :: [x7e; x7f; xf7] ++ [x00]))
             (Some 0xF0) ∅ in
  ((0xF0 = 0xF0 \/ 0xF0 = 0xF7) /\
   Forall (fun c => continues c = true) [] /\ (length (@nil byte) <= 3)%nat /\
   continues x03 = false /\
   Z.of_nat (length [x7e; x7f; xf7]) = vlq_value ([] ++ [x03])) /\
  dispatch 0 22 0xF0 false false s =
  (Return Next,
   with_tr (with_stats incr_sysex)
     (with_local (fun _ => cursor ([x00; xf0] ++ [] ++ x03 :: [x7e; x7f; xf7]) [x00]) s)).
Proof.
  intros s. split.
  - split_and!; [left; reflexivity|constructor|simpl; lia|reflexivity|reflexivity].
  - apply (proj1 (sysex_block 0 22 0xF0 false false [x00; xf0] [] x03 s
                    (or_introl eq_refl) ltac:(constructor) ltac:(simpl; lia) eq_refl));
      reflexivity.
Defined.

(** One turn of the scan loop that reads a delta-time and a byte with its
    high bit set goes on as [dispatch] does on that byte as the status. *)
Lemma wp_scan_event_status tindex start pair_notes strict pre dcs db b rest
    (Q : ctl -> TEnv -> Prop) s :
  Forall (fun c => continues c = true) dcs -> (length dcs <= 3)%nat ->
  continues db = false -> continues b = true ->
  te_local s = cursor pre (dcs ++ db :: b :: rest) ->
  wp (dispatch tindex start (byte_val b) pair_notes strict) Q
     (with_status (fun _ => Some (byte_val b))
        (with_local (fun _ => cursor (pre ++ dcs ++ [db; b]) rest) s)) ->
  wp (scan_event tindex start pair_notes strict) Q s.
Proof.
  intros Hdcs Hlen Hdb Hb Hl HQ. unfold scan_event. wp_steps.
  apply (wp_local_read_vlq_cursor pre dcs db (b :: rest)); try assumption.
  wp_steps. cbn [te_local with_local]. rewrite remaining_cursor.
  destruct (Z.leb_spec (Z.of_nat (length (b :: rest))) 0) as [Hle|_].
  { simpl in Hle. lia. }
  wp_step.
  apply (wp_local_read_byte_cursor (pre ++ dcs ++ [db]) b rest); [reflexivity|].
  wp_simpl. unfold continues in Hb. rewrite Hb. cbv iota.
  wp_steps. cbn [te_status with_status].
  replace ((pre ++ dcs ++ [db]) ++ [b]) with (pre ++ dcs ++ [db; b])
    by (rewrite <- !app_assoc; reflexivity).
  exact HQ.
Qed.

(** X25.  An event whose status byte is none the scan knows (0xF1 to 0xF6
    and 0xF8 to 0xFE: system common and real-time messages), after a
    delta-time: the byte becomes the status kept, it is the one error of the
    unknown status, which names the byte, at the offset behind it; nothing
    is counted and the scan of the track ends. *)
Theorem unknown_status_event tindex start pair_notes strict pre dcs db b rest s :
  Forall (fun c => continues c = true) dcs -> (length dcs <= 3)%nat ->
  continues db = false ->
  0xF1 <= byte_val b <= 0xF6 \/ 0xF8 <= byte_val b <= 0xFE ->
  te_local s = cursor pre (dcs ++ db :: b :: rest) ->
  exists s', scan_event tindex start pair_notes strict s = (Return Break, s') /\
    tr_errors (te_tr s') =
      tr_errors (te_tr s)
      ++ [pista tindex ("status desconocido " +:+ hex (byte_val b) +:+ ".")] /\
    tr_error_locs (te_tr s') =
      tr_error_locs (te_tr s)
      ++ [(pista tindex ("status desconocido " +:+ hex (byte_val b) +:+ "."),
           start + Z.of_nat (length (pre ++ dcs ++ [db; b])))] /\
    te_status s' = Some (byte_val b) /\
    te_local s' = cursor (pre ++ dcs ++ [db; b]) rest /\
    stats (te_tr s') = stats (te_tr s) /\
    tr_warnings (te_tr s') = tr_warnings (te_tr s) /\
    te_active s' = te_active s.
Proof.
  intros Hdcs Hlen Hdb Hb Hl.
  assert (H : wp (scan_event tindex start pair_notes strict)
    (fun c s' => c = Break /\
       tr_errors (te_tr s') =
         tr_errors (te_tr s)
         ++ [pista tindex ("status desconocido " +:+ hex (byte_val b) +:+ ".")] /\
       tr_error_locs (te_tr s') =
         tr_error_locs (te_tr s)
         ++ [(pista tindex ("status desconocido " +:+ hex (byte_val b) +:+ "."),
              start + Z.of_nat (length (pre ++ dcs ++ [db; b])))] /\
       te_status s' = Some (byte_val b) /\
       te_local s' = cursor (pre ++ dcs ++ [db; b]) rest /\
       stats (te_tr s') = stats (te_tr s) /\
       tr_warnings (te_tr s') = tr_warnings (te_tr s) /\
       te_active s' = te_active s) s).
  { apply (wp_scan_event_status tindex start pair_notes strict pre dcs db b rest);
      try assumption.
    { unfold continues. rewrite status_byte_high; [reflexivity|].
      pose proof (byte_val_range b). lia. }
    unfold dispatch.
    destruct (Z.leb_spec 0x80 (byte_val b)); [|lia].
    destruct (Z.leb_spec (byte_val b) 0xEF); [lia|]. cbn [andb].
    destruct (Z.eqb_spec (byte_val b) 0xFF); [lia|].
    destruct (Z.eqb_spec (byte_val b) 0xF0); [lia|].
    destruct (Z.eqb_spec (byte_val b) 0xF7); [lia|]. cbn [orb].
    wp_steps. simpl. split_and!; auto. }
  destruct (wp_inv _ _ _ H) as (c & s' & E & -> & Hres).
  exists s'. split; [exact E|exact Hres].
Qed.

Lemma unknown_status_event_witness :
  let s := mkTEnv (new_Reader []) (TrackReport0 0)
             (cursor [] ([] ++ x00 :: xf8 :: [x00])) None ∅ in
  (Forall (fun c => continues c = true) [] /\ (length (@nil byte) <= 3)%nat /\
   continues x00 = false /\
   (0xF1 <= byte_val xf8 <= 0xF6 \/ 0xF8 <= byte_val xf8 <= 0xFE)) /\
  exists s', scan_event 0 22 false false s = (Return Break, s') /\
    tr_errors (te_tr s') = ["Pista 0: status desconocido 0xf8."] /\
    tr_error_locs (te_tr s') = [("Pista 0: status desconocido 0xf8.", 24)].
Proof.
  intros s. split.
  - split_and!; [constructor|simpl; lia|reflexivity|right; change (byte_val xf8) with 248; lia].
  - destruct (unknown_status_event 0 22 false false [] [] x00 xf8 [x00] s
                ltac:(constructor) ltac:(simpl; lia) eq_refl
                ltac:(right; change (byte_val xf8) with 248; lia) eq_refl)
      as (s' & E & He & Hloc & _).
    exists s'. rewrite He, Hloc. split; [exact E|]. split; reflexivity.
Defined.

(** X26.  The report names the path it was asked for.  For a file that is
    read, [bytes_size] is the number of its bytes.  For a file that cannot
    be opened or read, the report is the initial one with the one error
    that gives the exception's text: not ok, no header, no track, size 0,
    and, unlike every other error, no entry in [error_locs]. *)
Theorem report_of_file p f pair_notes strict :
  exists rep, validate_midi_file p f pair_notes strict = Return rep /\
    path rep = p /\
    (forall d, f = FileBytes d -> bytes_size rep = Z.of_nat (length d)) /\
    (forall e, f = FileFails e ->
       rep = mkFileReport p false None [] ["Error: " +:+ str_exn e] [] [] [] 0).
Proof.
  destruct (validate_midi_file_spec p f pair_notes strict) as (rep & E & Hp & _).
  destruct (validate_tracks_spec (fun _ _ => True) p f pair_notes strict)
    as (rep1 & E1 & _ & _ & Hb); [trivial|].
  rewrite E in E1. injection E1 as <-.
  exists rep. split_and!; try assumption.
  intros e ->. unfold validate_midi_file in E. simpl in E.
  injection E as <-. reflexivity.
Qed.

(** ** Partial correctness *)

Section PartialRules.
Context {St : Type}.










End PartialRules.





(** ** What a turn of the scan loop owes the report *)










(** ** The scan loop and the errors of a chunk *)






(** ** What [parse_track] owes its report *)











(** ** The header a buffer starts with *)



Lemma new_Reader_cursor d : new_Reader d = cursor [] d.
Proof. reflexivity. Qed.


(** ** Cursors in the buffer *)


Section CursorKept.
Variable d : list byte.





End CursorKept.

(** ** The report of a file and the faults of its bytes *)



(** ** Events without fault *)











(** ** A chunk of events without fault *)







(** ** Faults the scan goes on after *)




(** ** Failures and diagnostics *)


(** ** Tracks without End-of-Track *)


